(** * Gradient synchronisation and the LAMB step of reframe-mlperf-epcc

    A shallow embedding of
      - [ML/BERT_Large/Torch/optimizer/lamb.py]  (class [Lamb]),
      - [ML/ResNet50/Torch/train.py]             ([train_step], [custom_reduce_hook]),
      - [ML_HPC/DeepCAM/Torch/train.py]          (the training loop of [main]).

    Tensors are flattened lists of scalars that carry their dtype, layout and
    shape.  The scalar arithmetic of torch is an interface ([Arith], [Scalar]):
    every theorem that does not name an instance holds for any arithmetic,
    IEEE rounding and NaN included.  Two instances are given: [F32], IEEE
    binary32 from the Standard Library's [SpecFloat], and [ExactQ], exact
    rationals.  Python exceptions are values of [error]; a method that mutates
    its object and may raise is a function [Lamb -> Lamb * result A] that
    returns the object as the exception leaves it. *)

From Stdlib Require Import ZArith QArith Qcanon SpecFloat String.
From stdpp Require Import base option list functions gmap.

Local Open Scope nat_scope.

(** ** Scalars *)

(** What [torch] does on single numbers that the averaging code needs. *)
Class Arith (R : Type) := {
  rzero : R;
  rone : R;
  radd : R -> R -> R;
  rdiv : R -> R -> R;
  of_nat : nat -> R      (* a Python int used as a number *)
}.

(** torch.dtype, as far as the sources name it. *)
Inductive DType := float32 | bfloat16 | float16 | float64.

Global Instance DType_eq_dec : EqDecision DType.
Proof. solve_decision. Defined.

(** The rest of the arithmetic the optimiser uses: comparisons are Python's
    (boolean, false on NaN), [cast d] rounds to the precision of [d]. *)
Class Scalar (R : Type) := {
  scalar_arith :: Arith R;
  rsub : R -> R -> R;
  rmul : R -> R -> R;
  ropp : R -> R;
  rsqrt : R -> R;
  rpow : R -> nat -> R;
  reqb : R -> R -> bool;
  rleb : R -> R -> bool;
  rltb : R -> R -> bool;
  cast : DType -> R -> R
}.

(** ** Exceptions *)

(** The message of the exception for a sparse gradient (lamb.py, line 97). *)
Definition sparse_msg : string :=
  "Lamb does not support sparse gradients, consider SparseAdam instad.".

Inductive error :=
  | ValueError (msg : string)
  | RuntimeError (msg : string)
  | AttributeError (msg : string)
  | KeyError (key : string)
  | IndexError (msg : string)
  | TypeError (msg : string).

Inductive result (A : Type) :=
  | Ok (a : A)
  | Err (e : error).
Arguments Ok {A} a.
Arguments Err {A} e.

Definition is_ok {A} (r : result A) : bool :=
  match r with Ok _ => true | Err _ => false end.

Definition rbind {A B} (r : result A) (k : A -> result B) : result B :=
  match r with Ok a => k a | Err e => Err e end.

(** ** Tensors *)

Section Tensors.
Context {R : Type}.

Record Tensor := mkTensor {
  dtype : DType;
  is_sparse : bool;
  shape : list nat;
  vals : list R
}.

(** An in-place elementwise operation keeps the receiver's dtype, layout and
    shape ([self.op_(other)]); [p.grad] has the shape of [p]. *)
Fixpoint map2_self (f : R -> R -> R) (xs ys : list R) : list R :=
  match xs, ys with
  | x :: xs', y :: ys' => f x y :: map2_self f xs' ys'
  | _, _ => xs
  end.

Definition tmap (f : R -> R) (t : Tensor) : Tensor :=
  mkTensor (dtype t) (is_sparse t) (shape t) (map f (vals t)).

Definition tmap2 (f : R -> R -> R) (t u : Tensor) : Tensor :=
  mkTensor (dtype t) (is_sparse t) (shape t) (map2_self f (vals t) (vals u)).
End Tensors.
Arguments Tensor R : clear implicits.

(** ** The optimiser object *)

Section LambData.
Context {R : Type}.

(** A parameter object: [p.data] and [p.grad] ([None] when no gradient was
    produced this round). *)
Record Param := mkParam {
  data : Tensor R;
  grad : option (Tensor R)
}.

(** One entry of [self.param_groups].  Parameters are named by identity: the
    objects themselves live in [params] of the optimiser below. *)
Record ParamGroup := mkGroup {
  g_params : list nat;
  g_lr : R;
  g_betas : R * R;
  g_eps : R;
  g_weight_decay : R
}.

(** [self.state[p]], once it is no longer the empty dict. *)
Record PState := mkPState {
  st_step : nat;
  exp_avg : Tensor R;
  exp_avg_sq : Tensor R;
  data_fp32 : option (Tensor R);
  st_weight_norm : option R;
  st_adam_norm : option R;
  st_trust_ratio : option R
}.

Record Defaults := mkDefaults {
  d_lr : R;
  d_betas : R * R;
  d_eps : R;
  d_weight_decay : R
}.

Record Lamb := mkLamb {
  adam : bool;
  bias_correction : bool;
  perform_allreduce : bool;
  distributed : bool;
  defaults : Defaults;
  param_groups : list ParamGroup;
  params : nat -> Param;             (* the parameter objects, by identity *)
  state : gmap nat PState            (* self.state; no entry = empty dict *)
}.

(** [torch.distributed] as one rank sees it.  [all_reduce p t] is what the
    buffer [t] holds when the all-reduce issued for the gradient of parameter
    [p] returns; it depends on the peers (see [world_dist]).  The collective
    works in place: dtype, layout and shape of the buffer stay. *)
Record Dist := mkDist {
  is_initialized : bool;
  get_world_size : nat;
  all_reduce : nat -> Tensor R -> list R
}.

Definition all_reduce_ (dist : Dist) (p : nat) (t : Tensor R) : Tensor R :=
  mkTensor (dtype t) (is_sparse t) (shape t) (all_reduce dist p t).

Definition set_param (p : nat) (v : Param) (o : Lamb) : Lamb :=
  mkLamb (adam o) (bias_correction o) (perform_allreduce o) (distributed o)
         (defaults o) (param_groups o) (<[p := v]> (params o)) (state o).

Definition set_state (p : nat) (s : PState) (o : Lamb) : Lamb :=
  mkLamb (adam o) (bias_correction o) (perform_allreduce o) (distributed o)
         (defaults o) (param_groups o) (params o) (<[p := s]> (state o)).

(** Methods: they mutate [self] and may raise. *)
Definition M (A : Type) : Type := Lamb -> Lamb * result A.

Definition ret {A} (a : A) : M A := fun o => (o, Ok a).
Definition raise {A} (e : error) : M A := fun o => (o, Err e).
Definition bind {A B} (m : M A) (k : A -> M B) : M B :=
  fun o => match m o with
           | (o', Ok a) => k a o'
           | (o', Err e) => (o', Err e)
           end.

(** [for x in xs: body(x)]; [continue] is [ret tt], an exception leaves the
    loop. *)
Fixpoint for_each {A} (xs : list A) (body : A -> M unit) : M unit :=
  match xs with
  | [] => ret tt
  | x :: xs' => bind (body x) (fun _ => for_each xs' body)
  end.

(** The parameters the two nested loops visit, in order. *)
Definition listed (o : Lamb) : list nat :=
  concat (map g_params (param_groups o)).
End LambData.
Arguments Param R : clear implicits.
Arguments ParamGroup R : clear implicits.
Arguments PState R : clear implicits.
Arguments Defaults R : clear implicits.
Arguments Lamb R : clear implicits.
Arguments Dist R : clear implicits.
Arguments M R A : clear implicits.

Notation "x <- m ;; k" := (bind m (fun x => k))
  (at level 100, m at next level, right associativity, only parsing).

(** ** [sync_params] and [sync_grads] (lamb.py, lines 58-72) *)

Section Sync.
Context {R : Type} {AR : Arith R}.
Variable dist : Dist R.

(** Lines 58-63.  The module imports [distance] from [turtle]; that function
    has no attribute [broadcase], so the attribute lookup raises at the
    first parameter. *)
Definition sync_params : M R unit := fun o =>
  if negb (distributed o) then ret tt o
  else
    for_each (param_groups o) (fun group =>
      for_each (g_params group) (fun p =>
        raise (AttributeError "'function' object has no attribute 'broadcase'"))) o.

(** [p.grad.data.div_(world_size)] *)
Definition div_ (world_size : nat) (g : Tensor R) : Tensor R :=
  tmap (fun x => rdiv x (of_nat world_size)) g.

(** Lines 65-72: divide, then all-reduce. *)
Definition sync_grads : M R unit := fun o =>
  if negb (distributed o) then ret tt o
  else
    let world_size := get_world_size dist in
    for_each (param_groups o) (fun group =>
      for_each (g_params group) (fun p => fun o =>
        match grad (params o p) with
        | None => raise (AttributeError "'NoneType' object has no attribute 'data'") o
        | Some g =>
            let g := div_ world_size g in
            let g := all_reduce_ dist p g in
            ret tt (set_param p (mkParam (data (params o p)) (Some g)) o)
        end)) o.
End Sync.

(** ** [Lamb.__init__] and [Lamb.step] (lamb.py, lines 29-56 and 74-157) *)

Section Step.
Context {R : Type} {SR : Scalar R}.
Variable dist : Dist R.

(** An entry of the [params] argument: a group of parameters with the
    hyperparameters it overrides.  A plain iterable of parameters is one
    group that overrides nothing. *)
Record GroupArg := mkGroupArg {
  ga_params : list nat;
  ga_lr : option R;
  ga_betas : option (R * R);
  ga_eps : option R;
  ga_weight_decay : option R
}.

(** [torch.optim.Optimizer.__init__]: every group takes the defaults it does
    not set itself.  This is library code; the checks it makes on the
    parameter list are not part of lamb.py. *)
Definition add_param_group (d : Defaults R) (a : GroupArg) : ParamGroup R :=
  mkGroup (ga_params a)
          (default (d_lr d) (ga_lr a))
          (default (d_betas d) (ga_betas a))
          (default (d_eps d) (ga_eps a))
          (default (d_weight_decay d) (ga_weight_decay a)).

(** Lines 29-56. *)
Definition Lamb__init__ (params_arg : list GroupArg) (mem : nat -> Param R)
    (lr : R) (betas : R * R) (eps weight_decay : R)
    (adam bias_correction perform_allreduce : bool) : result (Lamb R) :=
  if negb (rleb rzero lr) then
    Err (ValueError "Invalid learning rate")
  else if negb (rleb rzero eps) then
    Err (ValueError "Invalid epsilon value")
  else if negb (rleb rzero (fst betas) && rltb (fst betas) rone) then
    Err (ValueError "Invalid beta parameter at index 0")
  else if negb (rleb rzero (snd betas) && rltb (snd betas) rone) then
    Err (ValueError "Invalid beta parameter at index 1")
  else
    let defaults := mkDefaults lr betas eps weight_decay in
    let distributed :=
      is_initialized dist && (1 <? get_world_size dist) in
    Ok (mkLamb adam bias_correction perform_allreduce distributed defaults
               (map (add_param_group defaults) params_arg) mem ∅).

(** [t.to(d)] *)
Definition tensor_to (d : DType) (t : Tensor R) : Tensor R :=
  mkTensor d (is_sparse t) (shape t) (map (cast d) (vals t)).

(** [torch.zeros_like(t, dtype=d)] *)
Definition zeros_like (t : Tensor R) (d : DType) : Tensor R :=
  mkTensor d (is_sparse t) (shape t) (map (fun _ => rzero) (vals t)).

(** [t.pow(2).sum().sqrt()] *)
Definition norm2 (t : Tensor R) : R :=
  rsqrt (fold_left radd (map (fun x => rpow x 2) (vals t)) rzero).

(** Lines 102-110, the state a parameter gets the first time it is seen. *)
Definition init_state (p : Param R) : PState R :=
  let bf16_param := bool_decide (dtype (data p) = bfloat16) in
  mkPState 0
           (zeros_like (data p) float32)
           (zeros_like (data p) float32)
           (if bf16_param then Some (tensor_to float32 (data p)) else None)
           None None None.

(** Lines 137-151.  [tr_divisors] lists the divisors of every division
    [weight_norm / adam_norm] that is executed. *)
Record TrustOut := mkTrustOut {
  tr_adam_step : Tensor R;
  tr_trust_ratio : R;
  tr_norms : option (R * R * R);   (* weight_norm, adam_norm, trust_ratio *)
  tr_divisors : list R
}.

(** [adam_step.add_(data, alpha=weight_decay)] (line 139) *)
Definition decayed (weight_decay : R) (adam_step data : Tensor R) : Tensor R :=
  tmap2 (fun a d => radd a (rmul weight_decay d)) adam_step data.

Definition trust_block (adam : bool) (weight_decay : R)
    (data adam_step : Tensor R) : TrustOut :=
  let trust_ratio := rone in
  if negb (reqb weight_decay rzero) then
    let adam_step := decayed weight_decay adam_step data in
    let weight_norm := norm2 data in
    let adam_norm := norm2 adam_step in
    let '(trust_ratio, divisors) :=
      if reqb weight_norm rzero || reqb adam_norm rzero
      then (rone, [])
      else (rdiv weight_norm adam_norm, [adam_norm]) in
    let trust_ratio := if adam then rone else trust_ratio in
    mkTrustOut adam_step trust_ratio
               (Some (weight_norm, adam_norm, trust_ratio)) divisors
  else
    mkTrustOut adam_step trust_ratio None [].

(** Lines 90-155, the body of the inner loop for parameter [p]. *)
Definition step_param (group : ParamGroup R) (p : nat) : M R unit := fun o =>
  let P := params o p in
  let p_grad := grad P in
  match p_grad with
  | None => ret tt o                                        (* continue *)
  | Some grad =>
    let bf16_param := bool_decide (dtype (data P) = bfloat16) in
    if is_sparse grad then
      raise (RuntimeError sparse_msg) o
    else
      let st := match state o !! p with
                | None => init_state P
                | Some st => st
                end in
      let '(beta1, beta2) := g_betas group in
      match (if bf16_param
             then match data_fp32 st with
                  | Some d => Ok (tensor_to float32 grad, d)
                  | None => Err (KeyError "data_fp32")
                  end
             else Ok (grad, data P)) with
      | Err e => raise e o
      | Ok (grad, data) =>
        let step := S (st_step st) in
        let exp_avg :=
          tmap2 (fun m g => radd m (rmul (rsub rone beta1) g))
                (tmap (fun m => rmul m beta1) (exp_avg st)) grad in
        let exp_avg_sq :=
          tmap2 (fun v g => radd v (rmul (rsub rone beta2) (rmul g g)))
                (tmap (fun v => rmul v beta2) (exp_avg_sq st)) grad in
        let step_size := g_lr group in
        let '(exp_avg_hat, exp_avg_sq_hat) :=
          if bias_correction o
          then (tmap (fun m => rdiv m (rsub rone (rpow beta1 step))) exp_avg,
                tmap (fun v => rdiv v (rsub rone (rpow beta2 step))) exp_avg_sq)
          else (exp_avg, exp_avg_sq) in
        let adam_step :=
          tmap2 rdiv exp_avg_hat
                (tmap (fun v => radd (rsqrt v) (g_eps group)) exp_avg_sq_hat) in
        let tb := trust_block (adam o) (g_weight_decay group) data adam_step in
        let alpha := rmul (ropp step_size) (tr_trust_ratio tb) in
        let data := tmap2 (fun d a => radd d (rmul alpha a)) data (tr_adam_step tb) in
        let st' :=
          mkPState step exp_avg exp_avg_sq
            (if bf16_param then Some data else data_fp32 st)
            (match tr_norms tb with Some (w, _, _) => Some w | None => st_weight_norm st end)
            (match tr_norms tb with Some (_, a, _) => Some a | None => st_adam_norm st end)
            (match tr_norms tb with Some (_, _, r) => Some r | None => st_trust_ratio st end) in
        let P' := mkParam (if bf16_param then tensor_to bfloat16 data else data)
                          p_grad in
        ret tt (set_param p P' (set_state p st' o))
      end
  end.

(** Lines 88-89. *)
Definition step_loop : M R unit := fun o =>
  for_each (param_groups o) (fun group =>
    for_each (g_params group) (fun p => step_param group p)) o.

(** Lines 74-157.  [closure] is the caller's: it may change the object
    before the step sees it. *)
Definition step (closure : option (M R R)) : M R (option R) :=
  loss <- match closure with
          | Some closure => (l <- closure ;; ret (Some l))
          | None => ret None
          end ;;
  _ <- (fun o => if perform_allreduce o then sync_grads dist o else ret tt o) ;;
  _ <- step_loop ;;
  ret loss.
End Step.

(** ** Two arithmetics *)

(** IEEE binary32, the arithmetic of [torch.float32]. *)
Module F32.
Definition prec : Z := 24.
Definition emax : Z := 128.

Definition of_Z (z : Z) : spec_float := binary_normalize prec emax z 0 false.

(** The binary32 number nearest to [a / b], for literals such as 0.9. *)
Definition ratio (a b : Z) : spec_float := SFdiv prec emax (of_Z a) (of_Z b).

(** Round to a format with [p] bits of mantissa and infinities at [2^em],
    then store the value as a binary32 number. *)
Definition round_to (p em : Z) (x : spec_float) : spec_float :=
  match x with
  | S754_finite s m e =>
      match binary_round p em s m e with
      | S754_finite s' m' e' => binary_round prec emax s' m' e'
      | y => y
      end
  | _ => x
  end.

Definition cast (d : DType) (x : spec_float) : spec_float :=
  match d with
  | bfloat16 => round_to 8 128 x
  | float16 => round_to 11 16 x
  | float32 | float64 => x
  end.

Definition pow (x : spec_float) (n : nat) : spec_float :=
  Nat.iter n (SFmul prec emax x) (of_Z 1).

#[global] Instance arith : Arith spec_float := {
  rzero := S754_zero false;
  rone := of_Z 1;
  radd := SFadd prec emax;
  rdiv := SFdiv prec emax;
  of_nat n := of_Z (Z.of_nat n)
}.

#[global] Instance scalar : Scalar spec_float := {
  rsub := SFsub prec emax;
  rmul := SFmul prec emax;
  ropp := SFopp;
  rsqrt := SFsqrt prec emax;
  rpow := pow;
  reqb := SFeqb;
  rleb := SFleb;
  rltb := SFltb;
  cast := cast
}.
End F32.

(** Exact rationals: the arithmetic in which a sum of quotients is the
    quotient of the sum. *)
Module ExactQ.
#[global] Instance arith : Arith Qc := {
  rzero := 0%Qc;
  rone := 1%Qc;
  radd := Qcplus;
  rdiv := Qcdiv;
  of_nat n := Q2Qc (inject_Z (Z.of_nat n))
}.
End ExactQ.

(** ** Gradient accumulation in the training loops *)

Section Accumulation.
Context {R : Type} {AR : Arith R}.

(** What a micro-batch does to the model and the optimiser.  [Backward l ns]
    is [loss.backward()] on the loss value [l], inside [model.no_sync()]
    when [ns] holds. *)
Inductive event :=
  | Backward (loss : R) (no_sync : bool)
  | OptStep
  | ZeroGrad
  | SchedulerStep.

Definition is_backward (e : event) : bool :=
  match e with Backward _ _ => true | _ => false end.

Definition is_opt_step (e : event) : bool :=
  match e with OptStep => true | _ => false end.

(** ResNet50/Torch/train.py, lines 24-44.  [raw] is the value of
    [loss_fn(model(x), y)] on this micro-batch, [is_ddp] whether the model
    is wrapped in DistributedDataParallel, [freq] is
    [gc["data"]["gradient_accumulation_freq"]], at least 1.  Returns the
    events and the returned loss. *)
Definition train_step (is_ddp : bool) (freq : nat) (raw : R)
    (batch_idx : nat) : list event * R :=
  if negb ((batch_idx + 1) mod freq =? 0) then
    if is_ddp then
      let loss := rdiv raw (of_nat freq) in
      ([Backward loss true], loss)
    else
      let loss := rdiv raw (of_nat freq) in
      ([Backward loss false], loss)
  else
    let loss := rdiv raw (of_nat freq) in
    ([Backward loss false; OptStep; ZeroGrad], loss).

(** ResNet50/Torch/train.py, lines 210-217: one epoch. *)
Definition resnet_epoch (is_ddp : bool) (freq : nat) (train_data : list R)
    : list (list event) :=
  imap (fun i raw => fst (train_step is_ddp freq raw i)) train_data.

(** DeepCAM/Torch/train.py, lines 130-137: the body of the loop; [len] is
    [len(train_data)], [ga] is [gc["data"]["gradient_accumulation"]]. *)
Definition deepcam_iter (ga len : nat) (raw : R) (idx : nat) : list event :=
  let loss := rdiv raw (of_nat ga) in
  Backward loss false ::
  (if ((idx + 1) mod ga =? 0) || (idx + 1 =? len)
   then [OptStep; ZeroGrad; SchedulerStep]
   else []).

(** DeepCAM/Torch/train.py, line 129: one epoch. *)
Definition deepcam_epoch (ga : nat) (train_data : list R) : list (list event) :=
  imap (fun idx raw => deepcam_iter ga (length train_data) raw idx) train_data.

(** The micro-batches of an epoch at which the optimiser stepped. *)
Definition step_indices (epoch : list (list event)) : list nat :=
  map fst (filter (fun ie => existsb is_opt_step (snd ie) = true)
                  (imap (fun i evs => (i, evs)) epoch)).

(** The micro-batches at the end of an epoch whose gradients were accumulated
    and not followed by an optimiser step. *)
Definition unapplied (epoch : list (list event)) : nat :=
  fold_left (fun n evs => if existsb is_opt_step evs then 0 else S n) epoch 0.
End Accumulation.
Arguments event R : clear implicits.

(** ** The hierarchical reduction hook (ResNet50/Torch/train.py, lines 62-86) *)

Section Hook.
Context {R : Type} {AR : Arith R}.

(** What a future holds: the list of tensors of a finished collective, a
    tensor, or a 0-dim tensor. *)
Inductive pyval :=
  | VList (ts : list (list R))
  | VTensor (t : list R)
  | VScalar (x : R).

(** [v[0]] *)
Definition getitem0 (v : pyval) : result pyval :=
  match v with
  | VList (t :: _) => Ok (VTensor t)
  | VList [] => Err (IndexError "list index out of range")
  | VTensor (x :: _) => Ok (VScalar x)
  | VTensor [] => Err (IndexError "index 0 is out of bounds for dimension 0 with size 0")
  | VScalar _ => Err (IndexError "invalid index of a 0-dim tensor")
  end.

(** [v / n] *)
Definition truediv (v : pyval) (n : nat) : result pyval :=
  match v with
  | VTensor t => Ok (VTensor (map (fun x => rdiv x (of_nat n)) t))
  | VScalar x => Ok (VScalar (rdiv x (of_nat n)))
  | VList _ => Err (TypeError "unsupported operand type(s) for /: 'list' and 'int'")
  end.

Definition as_tensor (v : pyval) : result (list R) :=
  match v with
  | VTensor t => Ok t
  | _ => Err (TypeError "expected a tensor")
  end.

(** The collectives as one rank sees them: the content of the buffer when
    the call has completed, or the exception it raised. *)
Record Collectives := mkCollectives {
  reduce : list R -> nat -> list nat -> result (list R);
  all_reduce_in : list R -> list nat -> result (list R);
  broadcast : list R -> nat -> list nat -> result (list R)
}.

Variable c : Collectives.
Variable rank world_size : nat.             (* gc.rank, gc.world_size *)

(** Lines 76-79. *)
Definition _local_broadcast (local_ranks : list nat) (fut : pyval)
    : result pyval :=
  rbind (getitem0 fut) (fun v =>
  rbind (as_tensor v) (fun tensor =>
  rbind (broadcast c tensor 0 local_ranks) (fun tensor =>
  Ok (VTensor tensor)))).

(** Lines 73-74: [then(_local_broadcast).value()[0]].  The second argument
    of the all-reduce, 0, is the reduction, a sum. *)
Definition _all_reduce_zeros (local_ranks zero_ranks : list nat)
    (fut : pyval) : result pyval :=
  rbind (getitem0 fut) (fun v =>
  rbind (as_tensor v) (fun tensor =>
  rbind (all_reduce_in c tensor zero_ranks) (fun tensor =>
  rbind (_local_broadcast local_ranks (VList [tensor])) (fun v =>
  getitem0 v)))).

(** Lines 66-71. *)
Definition _reduce (local_ranks zero_ranks : list nat) (taskspernode : nat)
    (tensor : list R) : result pyval :=
  rbind (reduce c tensor 0 local_ranks) (fun tensor =>
  let fut := VList [tensor] in
  if rank mod taskspernode =? 0
  then _all_reduce_zeros local_ranks zero_ranks fut
  else _local_broadcast local_ranks fut).

(** Lines 81-82. *)
Definition _dev (fut : pyval) : result pyval :=
  rbind (getitem0 fut) (fun v => truediv v world_size).

(** Lines 62-86; [state] is [(local_ranks, zero_ranks, taskspernode)] and
    [buffer] is [bucket.buffer()]. *)
Definition custom_reduce_hook (state : list nat * list nat * nat)
    (buffer : list R) : result pyval :=
  let '(local_ranks, zero_ranks, taskspernode) := state in
  rbind (_reduce local_ranks zero_ranks taskspernode buffer) _dev.
End Hook.
Arguments pyval R : clear implicits.
Arguments Collectives R : clear implicits.

(** The elementwise sum of the buffers of the ranks, taken in rank order:
    what a sum all-reduce leaves on every rank. *)
Definition sum_over_ranks {R} {AR : Arith R} (bufs : list (list R)) : list R :=
  match bufs with
  | [] => []
  | b :: bs => fold_left (map2_self radd) bs b
  end.

(** A flat sum all-reduce followed by division by [n], on the buffers
    [bufs] of the [n] ranks: the value every rank ends with. *)
Definition flat_all_reduce_mean {R} {AR : Arith R} (bufs : list (list R)) : list R :=
  map (fun x => rdiv x (of_nat (length bufs))) (sum_over_ranks bufs).

(** The collectives of a run on one node whose ranks entered the hook with
    the buffers [w], as rank [r] sees them: the reduce leaves the sum at its
    destination, the only leader all-reduces with itself, and the broadcast
    hands out what the source holds by then, the sum. *)
Definition one_node_collectives {R} {AR : Arith R} (w : list (list R)) (r : nat)
    : Collectives R :=
  let total := sum_over_ranks w in
  mkCollectives
    (fun t dst _ => Ok (if r =? dst then total else t))
    (fun t _ => Ok t)
    (fun t src _ => Ok (if r =? src then t else total)).

(** ** What the specification asks of the hyperparameters *)

Section Ranges.
Context {R : Type} {SR : Scalar R}.

(** [learning_rate >= 0], [0 <= eps], [0 <= beta1 < 1], [0 <= beta2 < 1]. *)
Definition in_range (lr eps : R) (betas : R * R) : Prop :=
  rleb rzero lr = true /\
  rleb rzero eps = true /\
  (rleb rzero (fst betas) = true /\ rltb (fst betas) rone = true) /\
  (rleb rzero (snd betas) = true /\ rltb (snd betas) rone = true).

End Ranges.

(** ** Vocabulary of the properties *)

Section Vocabulary.
Context {R : Type} {AR : Arith R}.

(** The object as the caller's closure leaves it, before the step proper. *)
Definition after_closure (closure : option (M R R)) (o : Lamb R) : Lamb R :=
  match closure with
  | Some closure => fst (closure o)
  | None => o
  end.

(** What the closure returned. *)
Definition closure_result (closure : option (M R R)) (o : Lamb R)
    : result (option R) :=
  match closure with
  | Some closure =>
      match snd (closure o) with Ok l => Ok (Some l) | Err e => Err e end
  | None => Ok None
  end.

(** A parameter object and its state in [o]. *)
Definition slot (o : Lamb R) (p : nat) : Param R * option (PState R) :=
  (params o p, state o !! p).

(** Two readings of [p.grad] that agree on presence and layout. *)
Definition same_layout (a b : option (Tensor R)) : Prop :=
  match a, b with
  | None, None => True
  | Some g, Some g' => is_sparse g' = is_sparse g
  | _, _ => False
  end.

(** Everything of the optimiser that is neither a parameter object nor a
    parameter's state. *)
Definition same_config (o o' : Lamb R) : Prop :=
  adam o' = adam o /\ bias_correction o' = bias_correction o /\
  perform_allreduce o' = perform_allreduce o /\
  distributed o' = distributed o /\
  defaults o' = defaults o /\ param_groups o' = param_groups o.

(** [state["step"]], 0 while the state is the empty dict. *)
Definition step_count (s : option (PState R)) : nat :=
  match s with Some st => st_step st | None => 0 end.

Definition same_shape (t u : Tensor R) : Prop :=
  shape t = shape u /\ length (vals t) = length (vals u).

(** The invariant of a parameter's state: both moments have the parameter's
    shape and are float32, and the float32 copy of the value exists exactly
    for a bfloat16 parameter, with the parameter's shape. *)
Definition state_ok (p : Param R) (st : PState R) : Prop :=
  same_shape (exp_avg st) (data p) /\ dtype (exp_avg st) = float32 /\
  same_shape (exp_avg_sq st) (data p) /\ dtype (exp_avg_sq st) = float32 /\
  (is_Some (data_fp32 st) <-> dtype (data p) = bfloat16) /\
  (forall d, data_fp32 st = Some d -> same_shape d (data p)).

(** Every state the optimiser holds is sound. *)
Definition states_ok (o : Lamb R) : Prop :=
  forall p st, state o !! p = Some st -> state_ok (params o p) st.

(** The pairs (group, parameter) in the order the nested loops visit them. *)
Definition items (gs : list (ParamGroup R)) : list (ParamGroup R * nat) :=
  flat_map (fun g => map (pair g) (g_params g)) gs.

(** The gradient values of parameter [p] on the ranks of [w], by rank. *)
Definition world_vals (w : list (Lamb R)) (p : nat) : list (list R) :=
  omap (fun o => vals <$> grad (params o p)) w.

(** [torch.distributed] on rank [r] of a run whose ranks are the optimisers
    [w], all inside [sync_grads]: the all-reduce for parameter [p] sums, in
    rank order, what each rank passes to it, which on a peer is its gradient
    already divided by the world size. *)
Definition world_dist (w : list (Lamb R)) (r : nat) : Dist R :=
  mkDist true (length w) (fun p own =>
    sum_over_ranks
      (imap (fun r' o =>
               if r' =? r then vals own
               else match grad (params o p) with
                    | Some g => vals (div_ (length w) g)
                    | None => []
                    end) w)).
End Vocabulary.

(** ** Concrete runs *)

(** One rank, binary32: [lr = 0.01], [betas = (0.9, 0.999)], [eps = 1e-6],
    [weight_decay = 0.01].  Parameter 0 is float32 and parameter 1 bfloat16,
    both [1, 1] with gradient [0.1, 0.1]; parameter 2 has no gradient and
    parameter 3 a sparse one. *)
Module Scenario.
Definition lr : spec_float := F32.ratio 1 100.
Definition betas : spec_float * spec_float := (F32.ratio 9 10, F32.ratio 999 1000).
Definition eps : spec_float := F32.ratio 1 1000000.
Definition weight_decay : spec_float := F32.ratio 1 100.

Definition vec (d : DType) (sparse : bool) (x : spec_float) : Tensor spec_float :=
  mkTensor d sparse [2] [F32.cast d x; F32.cast d x].

Definition mem (p : nat) : Param spec_float :=
  match p with
  | 0 => mkParam (vec float32 false (F32.of_Z 1))
                 (Some (vec float32 false (F32.ratio 1 10)))
  | 1 => mkParam (vec bfloat16 false (F32.of_Z 1))
                 (Some (vec bfloat16 false (F32.ratio 1 10)))
  | 2 => mkParam (vec float32 false (F32.of_Z 1)) None
  | _ => mkParam (vec float32 false (F32.of_Z 1))
                 (Some (vec float32 true (F32.ratio 1 10)))
  end.

Definition single : Dist spec_float := mkDist false 1 (fun _ t => vals t).

(** What [Lamb(params, lr, betas, eps, weight_decay)] returns for the
    parameters [ps] (see [built_by_init]). *)
Definition built (ps : list nat) : Lamb spec_float :=
  mkLamb false true false false
         (mkDefaults lr betas eps weight_decay)
         [mkGroup ps lr betas eps weight_decay] mem ∅.

(** The expectations of the one-step scenario, on the outcome of a step. *)
Definition one_step_check (r : Lamb spec_float * result (option spec_float)) : bool :=
  is_ok (snd r) &&
  forallb (fun x => SFltb x (F32.of_Z 1)) (vals (data (params (fst r) 0))) &&
  match state (fst r) !! 0 with
  | Some st =>
      (st_step st =? 1) &&
      match st_trust_ratio st with
      | Some ratio => SFltb (F32.of_Z 0) ratio && SFltb ratio (F32.of_Z 2)
      | None => false
      end
  | None => false
  end.
End Scenario.

(** Two ranks in exact arithmetic, each with one parameter whose gradient is
    [x] on the rank built by [rank_with x]. *)
Module ExactRun.
Definition rank_with (x : Qc) : Lamb Qc :=
  mkLamb false true true true
         (mkDefaults 0%Qc (0%Qc, 0%Qc) 0%Qc 0%Qc)
         [mkGroup [0] 0%Qc (0%Qc, 0%Qc) 0%Qc 0%Qc]
         (fun _ => mkParam (mkTensor float32 false [1] [x])
                           (Some (mkTensor float32 false [1] [x])))
         ∅.

Definition world : list (Lamb Qc) :=
  [rank_with (Q2Qc 1); rank_with (Q2Qc 3)].
End ExactRun.

(** ** Further exceptions *)

(** Exceptions of the code below that [error] does not list;
    [UnboundLocalError] names the local variable that was read. *)
Inductive exn :=
  | Raised (e : error)
  | ZeroDivisionError
  | UnboundLocalError (name : string)
  | OSError (path : string).

Inductive outcome (A : Type) :=
  | Return (a : A)
  | Raise (e : exn).
Arguments Return {A} a.
Arguments Raise {A} e.

Definition obind {A B} (r : outcome A) (k : A -> outcome B) : outcome B :=
  match r with Return a => k a | Raise e => Raise e end.

Definition returned {A} (r : outcome A) : bool :=
  match r with Return _ => true | Raise _ => false end.

(** [a // b] on non-negative ints *)
Definition floordiv (a b : nat) : outcome nat :=
  if b =? 0 then Raise ZeroDivisionError else Return (a / b).

(** [a % b] on non-negative ints *)
Definition pymod (a b : nat) : outcome nat :=
  if b =? 0 then Raise ZeroDivisionError else Return (a mod b).

(** ** Process topology (ResNet50/Torch/train.py, lines 134-140) *)

Record Topology := mkTopology {
  taskspernode : nat;
  node : nat;
  zeros_ranks : list nat;
  local_ranks : list nat
}.

(** Lines 134-137: [LOCAL_WORLD_SIZE] under torchelastic, else the world size
    over [SLURM_NNODES]; the environment variables are given as read. *)
Definition tasks_per_node (world_size : nat) (torchelastic : bool)
    (local_world_size slurm_nnodes : nat) : outcome nat :=
  if torchelastic then Return local_world_size
  else floordiv world_size slurm_nnodes.

(** Line 139: [[i for i in range(world_size) if i % taskspernode == 0]];
    the comprehension raises at its first element when [taskspernode] is 0. *)
Fixpoint zero_ranks_of (taskspernode : nat) (range : list nat) : outcome (list nat) :=
  match range with
  | [] => Return []
  | i :: range' =>
      obind (pymod i taskspernode) (fun m =>
      obind (zero_ranks_of taskspernode range') (fun rest =>
      Return (if m =? 0 then i :: rest else rest)))
  end.

(** Lines 134-140, for the rank [rank] of [world_size]. *)
Definition topology (world_size rank : nat) (torchelastic : bool)
    (local_world_size slurm_nnodes : nat) : outcome Topology :=
  obind (tasks_per_node world_size torchelastic local_world_size slurm_nnodes)
    (fun taskspernode =>
  obind (floordiv rank taskspernode) (fun node =>
  obind (zero_ranks_of taskspernode (seq 0 world_size)) (fun zeros_ranks =>
  let local_ranks := map (fun i => node * taskspernode + i) (seq 0 taskspernode) in
  Return (mkTopology taskspernode node zeros_ranks local_ranks)))).

(** ** Batch sizes (DeepCAM/Torch/train.py, lines 47-49;
       ResNet50/Torch/train.py, line 129) *)

(** [(global_batch_size // world_size) // gradient_accumulation]: the samples
    of one micro-batch on one rank. *)
Definition micro_batch_size (global_batch_size world_size gradient_accumulation : nat)
    : outcome nat :=
  obind (floordiv global_batch_size world_size) (fun per_rank =>
  floordiv per_rank gradient_accumulation).

(** Lines 47-49: the shapes of the batches [dummy_loaders(n_samples)] yields;
    each batch is an input and a label tensor of ones and a file name. *)
Definition dummy_loaders (global_batch_size world_size gradient_accumulation : nat)
    (n_samples : nat) : outcome (list (list nat * list nat * string)) :=
  obind (micro_batch_size global_batch_size world_size gradient_accumulation)
    (fun bs => Return [([bs; 16; 768; 1152], [bs; 1; 768; 1152], "file.txt"%string)]).

(** ** Vocabulary of the further properties *)

Section Reads.
Context {R : Type}.

(** What an iteration of the step reads of parameter [p]: its value, the
    state kept for it and, of its gradient, the layout and the values. *)
Definition reads (o : Lamb R) (p : nat)
    : Tensor R * option (PState R) * option (bool * list R) :=
  (data (params o p), state o !! p,
   (fun g => (is_sparse g, vals g)) <$> grad (params o p)).

(** The optimiser [o] with its [adam] flag set to [b]. *)
Definition set_adam (b : bool) (o : Lamb R) : Lamb R :=
  mkLamb b (bias_correction o) (perform_allreduce o) (distributed o)
         (defaults o) (param_groups o) (params o) (state o).
End Reads.

(** ** Vocabulary of the accumulation windows *)

Section Windows.
Context {R : Type}.

(** For a run of events entered with the gradients of [pending] micro-batches
    accumulated: the number of micro-batches whose gradients each optimiser
    step applies, and the number left accumulated at the end.  A backward
    pass adds one, [zero_grad] empties. *)
Fixpoint applied (evs : list (event R)) (pending : nat) : list nat * nat :=
  match evs with
  | [] => ([], pending)
  | Backward _ _ :: rest => applied rest (S pending)
  | OptStep :: rest =>
      let '(sizes, kept) := applied rest pending in (pending :: sizes, kept)
  | ZeroGrad :: rest => applied rest 0
  | SchedulerStep :: rest => applied rest pending
  end.
End Windows.

(** ** The epoch loops of the two [main]s

    What a loop does outside itself is recorded, in order, as a trace: the
    calls on [gc] that returned, the optimiser events of the micro-batches,
    the passes over the training and the validation data.  A call on [gc]
    returns or raises as [gc] decides; data loading, the model, the metrics,
    the collectives and the prints are taken to return. *)

Section Runs.
Context {R : Type} {SR : Scalar R}.

(** The methods of [GlobalContext] the loops call, with the epoch number of
    the metadata, and for [stop_run] the status, ["success"] when the caller
    gives none (ML/gc.py, line 140; ML_HPC/gc.py, line 146). *)
Inductive gc_call :=
  | start_epoch (epoch_num : nat)
  | stop_epoch (epoch_num : nat)
  | start_eval (epoch_num : nat)
  | stop_eval (epoch_num : nat)
  | stop_run (status : string)
  | log_event (key : string) (epoch_num : nat).

Inductive run_event :=
  | Gc (c : gc_call)
  | Trained (epoch : nat)
  | Validated (epoch : nat)
  | Opt (e : event R).

(** A computation that leaves a trace and returns or raises. *)
Definition T (A : Type) : Type := list run_event * outcome A.

Definition tret {A} (a : A) : T A := ([], Return a).
Definition traise {A} (e : exn) : T A := ([], Raise e).
Definition emit (ev : run_event) : T unit := ([ev], Return tt).
Definition tbind {A B} (m : T A) (k : A -> T B) : T B :=
  match m with
  | (tr, Return a) => (tr ++ fst (k a), snd (k a))
  | (tr, Raise e) => (tr, Raise e)
  end.

(** [for idx, x in enumerate(xs): body(idx, x)], counting from [idx]. *)
Fixpoint tfor {A} (idx : nat) (xs : list A) (body : nat -> A -> T unit) : T unit :=
  match xs with
  | [] => tret tt
  | x :: xs' => tbind (body idx x) (fun _ => tfor (S idx) xs' body)
  end.

(** Reading a local variable that may not have been assigned. *)
Definition local {A} (name : string) (v : option A) : T A :=
  match v with
  | Some a => tret a
  | None => traise (UnboundLocalError name)
  end.

Variable gc : gc_call -> result unit.

Definition call_gc (c : gc_call) : T unit :=
  match gc c with
  | Ok _ => emit (Gc c)
  | Err e => traise (Raised e)
  end.

(** *** ResNet50/Torch/train.py, lines 202-263 *)

Variable rank world_size : nat.            (* gc.rank, gc.world_size *)
Variable benchmark : bool.                 (* gc["training"]["benchmark"] *)
Variable n_epochs : Z.                     (* gc["data"]["n_epochs"] *)
Variable target_accuracy : R.              (* gc["training"]["target_accuracy"] *)
(** The loss the last [train_step] of epoch [E] returned, the loss the last
    [valid_step] of its validation returned ([None] when the data is empty),
    and [val_metric.compute()] after the all-reduce. *)
Variable train_loss val_loss : nat -> option R.
Variable val_metric : nat -> R.

(** The local variables of [main] the loop assigns. *)
Record Locals := mkLocals {
  l_E : nat;
  l_loss : option R;
  l_val_accuracy : option R
}.

(** [val_accuracy/gc.world_size >= gc["training"]["target_accuracy"]] *)
Definition reached (val_accuracy : R) : bool :=
  rleb target_accuracy (rdiv val_accuracy (of_nat world_size)).

(** [val_accuracy] is assigned and reaches the target. *)
Definition target_met (val_accuracy : option R) : bool :=
  match val_accuracy with Some a => reached a | None => false end.

(** [if gc.rank == 0 and gc["training"]["benchmark"]: print(... {loss})] *)
Definition print_loss (loss : option R) : T unit :=
  if (rank =? 0) && benchmark
  then tbind (local "loss" loss) (fun _ => tret tt)
  else tret tt.

(** Lines 205-254: one pass of the [while]; the boolean is [break]. *)
Definition resnet_pass (l : Locals) : T (Locals * bool) :=
  let E := l_E l in
  tbind (call_gc (start_epoch E)) (fun _ =>
  tbind (emit (Trained E)) (fun _ =>
  let loss := match train_loss E with Some x => Some x | None => l_loss l end in
  tbind (print_loss loss) (fun _ =>
  tbind (call_gc (start_eval E)) (fun _ =>
  tbind (if E mod 4 =? 0
         then
           tbind (emit (Validated E)) (fun _ =>
           let loss := match val_loss E with Some x => Some x | None => loss end in
           let val_accuracy := val_metric E in
           tbind (print_loss loss) (fun _ =>
           tret (loss, Some val_accuracy)))
         else tret (loss, l_val_accuracy l)) (fun '(loss, val_accuracy) =>
  tbind (call_gc (stop_eval E)) (fun _ =>
  tbind (call_gc (stop_epoch E)) (fun _ =>
  if (Z.of_nat E >=? n_epochs)%Z then
    tret (mkLocals E loss val_accuracy, true)
  else if match val_accuracy with Some a => reached a | None => false end then
    tret (mkLocals E loss val_accuracy, true)
  else
    tbind (emit (Opt SchedulerStep)) (fun _ =>
    tret (mkLocals (E + 1) loss val_accuracy, false))))))))).

(** [while True:] run for at most [fuel] passes; [None] when the loop has
    not been left by then. *)
Fixpoint resnet_while (fuel : nat) (l : Locals) : option (T Locals) :=
  match fuel with
  | 0 => None
  | S fuel =>
      match resnet_pass l with
      | (tr, Raise e) => Some (tr, Raise e)
      | (tr, Return (l', true)) => Some (tr, Return l')
      | (tr, Return (l', false)) =>
          match resnet_while fuel l' with
          | Some (tr', r) => Some (tr ++ tr', r)
          | None => None
          end
      end
  end.

(** Lines 256-263. *)
Definition resnet_status (l : Locals) : T unit :=
  match l_val_accuracy l with
  | Some val_accuracy =>
      if reached val_accuracy then
        tbind (call_gc (stop_run "success")) (fun _ =>
        call_gc (log_event "target_accuracy_reached" (l_E l - 1)))
      else call_gc (stop_run "target not met")
  | None => call_gc (stop_run "target not met")
  end.

(** Lines 202-263; the result is the value of [E] at the end. *)
Definition resnet_run (fuel : nat) : option (T nat) :=
  match resnet_while fuel (mkLocals 1 None None) with
  | Some m => Some (tbind m (fun l => tbind (resnet_status l) (fun _ => tret (l_E l))))
  | None => None
  end.

(** *** DeepCAM/Torch/train.py, lines 119-163 *)

Variable ga : nat.                         (* gc["data"]["gradient_accumulation"] *)
(** Whether lines 94-110 assigned [scheduler]: they do when
    [gc["lr_schedule"]["type"]] is ["multistep"] or ["cosine_annealing"]. *)
Variable scheduler_bound : bool.
Variable train_data : nat -> list R.       (* [criterion(...)] by micro-batch *)
Variable validate : nat -> bool.           (* what [validate(...)] returns *)

Definition scheduler : T unit :=
  if scheduler_bound then tret tt else traise (UnboundLocalError "scheduler").

Definition lift {A} (r : outcome A) : T A := ([], r).

(** Lines 130-154: one micro-batch. *)
Definition deepcam_batch (epoch len idx : nat) (raw : R) : T unit :=
  tbind (emit (Opt (Backward (rdiv raw (of_nat ga)) false))) (fun _ =>
  tbind (lift (pymod (idx + 1) ga)) (fun m =>
  tbind (if (m =? 0) || (idx + 1 =? len)
         then
           tbind (emit (Opt OptStep)) (fun _ =>
           tbind (emit (Opt ZeroGrad)) (fun _ =>
           tbind scheduler (fun _ => emit (Opt SchedulerStep))))
         else tret tt) (fun _ =>
  tbind scheduler (fun _ =>
  tbind (call_gc (log_event "learning_rate" (epoch + 1))) (fun _ =>
  tbind (call_gc (log_event "training_accuracy" (epoch + 1))) (fun _ =>
  call_gc (log_event "train_loss" (epoch + 1)))))))).

(** Lines 125-163: one pass of the [while]; the boolean is [break]. *)
Definition deepcam_pass (epoch : nat) : T (nat * bool) :=
  tbind (call_gc (start_epoch (epoch + 1))) (fun _ =>
  let data := train_data epoch in
  tbind (tfor 0 data (deepcam_batch epoch (length data))) (fun _ =>
  tbind (emit (Validated epoch)) (fun _ =>
  let stop_training := validate epoch in
  tbind (call_gc (stop_epoch (epoch + 1))) (fun _ =>
  let epoch := epoch + 1 in
  if stop_training || (Z.of_nat epoch =? n_epochs)%Z then
    tbind (call_gc (stop_run "success")) (fun _ => tret (epoch, true))
  else tret (epoch, false))))).

Fixpoint deepcam_while (fuel : nat) (epoch : nat) : option (T nat) :=
  match fuel with
  | 0 => None
  | S fuel =>
      match deepcam_pass epoch with
      | (tr, Raise e) => Some (tr, Raise e)
      | (tr, Return (epoch', true)) => Some (tr, Return epoch')
      | (tr, Return (epoch', false)) =>
          match deepcam_while fuel epoch' with
          | Some (tr', r) => Some (tr ++ tr', r)
          | None => None
          end
      end
  end.

(** Lines 119-163; the result is the value of [epoch] at the end. *)
Definition deepcam_run (fuel : nat) : option (T nat) := deepcam_while fuel 0.
End Runs.
Arguments gc_call : clear implicits.
Arguments run_event R : clear implicits.
Arguments T R A : clear implicits.
Arguments Locals R : clear implicits.

(** The epochs a trace trained and validated, its calls on [gc] and its
    optimiser events. *)
Definition trained {R} (tr : list (run_event R)) : list nat :=
  omap (fun ev => match ev with Trained e => Some e | _ => None end) tr.
Definition validated {R} (tr : list (run_event R)) : list nat :=
  omap (fun ev => match ev with Validated e => Some e | _ => None end) tr.
Definition gc_calls {R} (tr : list (run_event R)) : list gc_call :=
  omap (fun ev => match ev with Gc c => Some c | _ => None end) tr.
Definition opt_events {R} (tr : list (run_event R)) : list (event R) :=
  omap (fun ev => match ev with Opt e => Some e | _ => None end) tr.

(** ** The decorator of the logging methods (ML/gc.py, lines 18-25;
       ML_HPC/gc.py, lines 19-26) *)

(** Lines 19-25, [wrapper]: on rank 0 it returns what [func] returns, on
    any other rank it reaches [return wrapper] and returns itself, for which
    [None] stands here.  [get_rank] is the outcome of
    [dist.get_global_rank()], in ML_HPC/gc.py of [dist.get_rank()]; the
    barrier taken when [sync] is set is taken to return. *)
Definition wrapper (get_rank : result nat) (func : gc_call -> result unit)
    (c : gc_call) : result (option unit) :=
  rbind get_rank (fun rank =>
  if rank =? 0 then rbind (func c) (fun u => Ok (Some u)) else Ok None).

(** Lines 18-25, [_run_on_0].  [return wrapper] is indented as the last
    statement of [wrapper]: the body of [_run_on_0] is the definition of
    [wrapper] and nothing more, and a function that ends without [return]
    returns [None]. *)
Definition _run_on_0 (get_rank : result nat) (func : gc_call -> result unit)
    : option (gc_call -> result (option unit)) :=
  let wrapper := wrapper get_rank func in
  None.

(** Calling what a method name of the class is bound to. *)
Definition call_method (m : option (gc_call -> result (option unit)))
    (c : gc_call) : result unit :=
  match m with
  | Some f => rbind (f c) (fun _ => Ok tt)
  | None => Err (TypeError "'NoneType' object is not callable")
  end.

(** [gc] as the two gc.py define it: [start_epoch], [stop_epoch],
    [start_eval], [stop_eval], [stop_run] and [log_event] are all decorated
    with [_run_on_0]; [body] is what the undecorated methods do. *)
Definition decorated_gc (get_rank : result nat) (body : gc_call -> result unit)
    : gc_call -> result unit :=
  call_method (_run_on_0 get_rank body).

(** ** The configuration object (ML/gc.py, lines 10-59, and the same code
       in ML_HPC/gc.py; the options of [main] in the two train.py)

    [GlobalContext] is a [dict] subclass: it has the items of the dict, read
    by [gc[key]], and the attributes of its [__dict__].  Values that are not
    strings are of any type [V].  [lower] is [str.lower].  [load path] is what
    [open(path)] and [yaml.safe_load] give: [None] when the file cannot be
    opened, [Some None] for an empty document, [Some (Some m)] for a mapping;
    a document that is neither is not covered. *)

Section Config.
Context {V : Type}.

Inductive pyobj :=
  | Str (s : string)
  | Other (v : V).

Variable lower : string -> string.
Variable load : string -> option (option (gmap string pyobj)).

Record GlobalContext := mkGlobalContext {
  gc_items : gmap string pyobj;
  gc_attrs : gmap string pyobj
}.

(** A method that mutates the object and returns or raises. *)
Definition G (A : Type) : Type := GlobalContext * outcome A.

(** [self[key]] *)
Definition getitem (self : GlobalContext) (key : string) : outcome pyobj :=
  match gc_items self !! key with
  | Some v => Return v
  | None => Raise (Raised (KeyError key))
  end.

(** [self[key] = v] *)
Definition setitem (self : GlobalContext) (key : string) (v : pyobj)
    : GlobalContext :=
  mkGlobalContext (<[key := v]> (gc_items self)) (gc_attrs self).

(** [v.lower()] *)
Definition str_lower (v : pyobj) : outcome string :=
  match v with
  | Str s => Return (lower s)
  | Other _ => Raise (Raised (AttributeError "object has no attribute 'lower'"))
  end.

(** Lines 39-40 and 58-59:
    [if self["device"].lower() == 'gpu': self["device"] = "cuda"]. *)
Definition gpu_to_cuda (self : GlobalContext) : G unit :=
  match obind (getitem self "device") str_lower with
  | Raise e => (self, Raise e)
  | Return d =>
      if String.eqb d "gpu"
      then (setitem self "device" (Str "cuda"), Return tt)
      else (self, Return tt)
  end.

(** [open(config_path, "r")] and [yaml.safe_load(stream)] *)
Definition open_yaml (config_path : option string)
    : outcome (option (gmap string pyobj)) :=
  match config_path with
  | None => Raise (Raised (TypeError "expected str, bytes or os.PathLike object, not NoneType"))
  | Some path =>
      match load path with
      | Some document => Return document
      | None => Raise (OSError path)
      end
  end.

(** [d.update(document)] for a dict [d] *)
Definition dict_update (d : gmap string pyobj)
    (document : option (gmap string pyobj)) : outcome (gmap string pyobj) :=
  match document with
  | Some m => Return (m ∪ d)
  | None => Raise (Raised (TypeError "'NoneType' object is not iterable"))
  end.

(** Lines 34-40. *)
Definition GlobalContext__init__ (self : GlobalContext)
    (config_path : option string) : G unit :=
  if bool_decide (gc_attrs self = ∅) then
    match open_yaml config_path with
    | Raise e => (self, Raise e)
    | Return document =>
        let self := mkGlobalContext ∅ (gc_attrs self) in          (* self.clear() *)
        match dict_update (gc_items self) document with
        | Raise e => (self, Raise e)
        | Return d => gpu_to_cuda (mkGlobalContext d (gc_attrs self))
        end
    end
  else (self, Return tt).

(** Lines 13-16, [SingletonMetaClass.__call__], for the class
    [GlobalContext]: [instance] is its entry in [_instances]. *)
Definition GlobalContext_call (instance : option GlobalContext)
    (config_path : option string) : option GlobalContext * outcome GlobalContext :=
  match instance with
  | Some gc => (instance, Return gc)
  | None =>
      match GlobalContext__init__ (mkGlobalContext ∅ ∅) config_path with
      | (gc, Return _) => (Some gc, Return gc)
      | (_, Raise e) => (None, Raise e)
      end
  end.

(** Lines 50-52, the property [device]. *)
Definition device (self : GlobalContext) : outcome string :=
  obind (getitem self "device") str_lower.

(** Lines 54-59. *)
Definition update_config (self : GlobalContext) (config_path : string) : G unit :=
  match open_yaml (Some config_path) with
  | Raise e => (self, Raise e)
  | Return document =>
      let self := mkGlobalContext (gc_items self) ∅ in   (* self.__dict__.clear() *)
      match dict_update (gc_attrs self) document with
      | Raise e => (self, Raise e)
      | Return d => gpu_to_cuda (mkGlobalContext (gc_items self) d)
      end
  end.

(** ResNet50/Torch/train.py, lines 93-96, and DeepCAM/Torch/train.py, lines
    55-58: the first lines of [main(device, config)]; the options are [""]
    when not given. *)
Definition main_options (device config : string) (gc : GlobalContext) : G unit :=
  let gc :=
    if negb (String.eqb device "")
       && bool_decide (In (lower device) ["cpu"; "gpu"; "cuda"]%string)
    then setitem gc "device" (Str (lower device))
    else gc in
  if negb (String.eqb config "") then update_config gc config
  else (gc, Return tt).

(** ResNet50/Torch/train.py, lines 100-105: the backend handed to
    [init_process_group]. *)
Definition backend (is_mpi_available is_torchelastic_launched : bool)
    (gc : GlobalContext) : outcome string :=
  if is_mpi_available && negb is_torchelastic_launched then Return "mpi"%string
  else obind (device gc) (fun d =>
       if String.eqb d "cuda" then Return "nccl"%string
       else Return "gloo"%string).
End Config.
Arguments pyobj V : clear implicits.
Arguments GlobalContext V : clear implicits.
Arguments G V A : clear implicits.

(** [str.lower] on ASCII strings. *)
Fixpoint ascii_lower (s : string) : string :=
  match s with
  | EmptyString => EmptyString
  | String c s' =>
      let n := Ascii.nat_of_ascii c in
      String (if (65 <=? n) && (n <=? 90) then Ascii.ascii_of_nat (n + 32) else c)
             (ascii_lower s')
  end.

(** ** Further concrete runs *)

(** The parameters of [Scenario] in a distributed run with
    [perform_allreduce] on. *)
Module Distributed.
Definition built (ps : list nat) : Lamb spec_float :=
  mkLamb false true true true
         (mkDefaults Scenario.lr Scenario.betas Scenario.eps Scenario.weight_decay)
         [mkGroup ps Scenario.lr Scenario.betas Scenario.eps Scenario.weight_decay]
         Scenario.mem ∅.

(** A replica whose only parameter is [1, 1] with the gradient [x, x]. *)
Definition rank_with (x : spec_float) : Lamb spec_float :=
  mkLamb false true true true
         (mkDefaults Scenario.lr Scenario.betas Scenario.eps Scenario.weight_decay)
         [mkGroup [0] Scenario.lr Scenario.betas Scenario.eps Scenario.weight_decay]
         (fun _ => mkParam (Scenario.vec float32 false (F32.of_Z 1))
                           (Some (Scenario.vec float32 false x)))
         ∅.

Definition world : list (Lamb spec_float) :=
  [rank_with (F32.ratio 1 10); rank_with (F32.ratio 3 10)].

(** Three replicas that all hold the gradient [0.1, 0.1]. *)
Definition world3 : list (Lamb spec_float) :=
  [rank_with (F32.ratio 1 10); rank_with (F32.ratio 1 10);
   rank_with (F32.ratio 1 10)].
End Distributed.

(** The parameters of [Scenario] with the default weight decay, 0, and the
    bfloat16 parameter once its state exists. *)
Module Plain.
Definition built (ps : list nat) : Lamb spec_float :=
  mkLamb false true false false
         (mkDefaults Scenario.lr Scenario.betas Scenario.eps (F32.of_Z 0))
         [mkGroup ps Scenario.lr Scenario.betas Scenario.eps (F32.of_Z 0)]
         Scenario.mem ∅.

Definition seen : Lamb spec_float :=
  set_state 1 (init_state (Scenario.mem 1)) (Scenario.built [1]).
End Plain.

(** A configuration file that asks for the device "gpu". *)
Module ConfigFile.
Definition document : gmap string (pyobj unit) :=
  {[ "device"%string := Str "gpu" ]}.
Definition load (path : string) : option (option (gmap string (pyobj unit))) :=
  Some (Some document).
Definition empty : GlobalContext unit := mkGlobalContext ∅ ∅.
End ConfigFile.

(** * Properties *)

(** ** Tensors *)

Lemma map2_self_length {R} (f : R -> R -> R) xs ys :
  length (map2_self f xs ys) = length xs.
Proof.
  revert ys; induction xs as [|x xs IH]; intros [|y ys]; simpl; auto.
Qed.

(** ** Construction *)

Section InitFacts.
Context {R : Type} {SR : Scalar R}.
Variable dist : Dist R.

Ltac raises_value_error :=
  split; [|split];
  [ split; [intuition discriminate | eauto]
  | split; [intros [? ?]; discriminate | intuition discriminate]
  | intros ? [= <-]; eauto ].

(** C6.  [Lamb.__init__] raises [ValueError] exactly when a hyperparameter is
    out of range (not [0 <= lr], not [0 <= eps], [beta1] or [beta2] not in
    [0, 1)), and returns the optimiser exactly when all are in range; the
    weight decay is not looked at. *)
Theorem init_validates_hyperparameters
    (params_arg : list GroupArg) (mem : nat -> Param R)
    (lr : R) (betas : R * R) (eps weight_decay : R)
    (adam bias_correction perform_allreduce : bool) :
  let r := Lamb__init__ dist params_arg mem lr betas eps weight_decay
                        adam bias_correction perform_allreduce in
  ((exists msg, r = Err (ValueError msg)) <-> ~ in_range lr eps betas) /\
  ((exists o, r = Ok o) <-> in_range lr eps betas) /\
  (forall e, r = Err e -> exists msg, e = ValueError msg).
Proof.
  cbv zeta. unfold Lamb__init__, in_range.
  destruct (rleb rzero lr); simpl; [|raises_value_error].
  destruct (rleb rzero eps); simpl; [|raises_value_error].
  destruct (rleb rzero (fst betas)), (rltb (fst betas) rone); simpl;
    try raises_value_error.
  destruct (rleb rzero (snd betas)), (rltb (snd betas) rone); simpl;
    try raises_value_error.
  split; [|split].
  - split; [intros [? ?]; discriminate | intros H; exfalso; apply H; intuition].
  - split; [intuition | eauto].
  - intros ? ?; discriminate.
Qed.
End InitFacts.

(** ** The trust ratio *)

Section TrustFacts.
Context {R : Type} {SR : Scalar R}.

(** C5.  The trust ratio the step applies is exactly 1 when the weight decay
    is 0, when the norm of the parameter value or of the decayed update is 0,
    and in Adam mode; and no division [weight_norm / adam_norm] is executed
    with a divisor equal to 0. *)
Theorem trust_ratio_one_and_no_zero_divisor
    (adam : bool) (weight_decay : R) (data adam_step : Tensor R) :
  let out := trust_block adam weight_decay data adam_step in
  (reqb weight_decay rzero = true -> tr_trust_ratio out = rone) /\
  (reqb (norm2 data) rzero = true \/
   reqb (norm2 (decayed weight_decay adam_step data)) rzero = true ->
   tr_trust_ratio out = rone) /\
  (adam = true -> tr_trust_ratio out = rone) /\
  Forall (fun d => reqb d rzero = false) (tr_divisors out).
Proof.
  cbv zeta. unfold trust_block.
  destruct (reqb weight_decay rzero) eqn:Hwd; simpl.
  - repeat split; auto.
  - destruct (reqb (norm2 data) rzero) eqn:Hw; simpl.
    + repeat split; auto; destruct adam; auto.
    + destruct (reqb (norm2 (decayed _ adam_step data)) rzero) eqn:Ha; simpl.
      * repeat split; auto; destruct adam; auto.
      * repeat split.
        -- discriminate.
        -- intros [?|?]; discriminate.
        -- intros ->; reflexivity.
        -- repeat constructor; exact Ha.
Qed.
End TrustFacts.

(** ** Accumulation *)

Section AccumulationFacts.
Context {R : Type} {AR : Arith R}.

Lemma train_step_steps_iff is_ddp freq (raw : R) batch_idx :
  existsb is_opt_step (fst (train_step is_ddp freq raw batch_idx)) = true
  <-> (batch_idx + 1) mod freq = 0.
Proof.
  unfold train_step.
  destruct (Nat.eqb_spec ((batch_idx + 1) mod freq) 0) as [E|E]; simpl.
  - tauto.
  - destruct is_ddp; simpl; split; (discriminate || contradiction).
Qed.

Lemma deepcam_iter_steps_iff ga len (raw : R) idx :
  existsb is_opt_step (deepcam_iter ga len raw idx) = true
  <-> (idx + 1) mod ga = 0 \/ idx + 1 = len.
Proof.
  unfold deepcam_iter.
  destruct (Nat.eqb_spec ((idx + 1) mod ga) 0) as [E|E];
    destruct (Nat.eqb_spec (idx + 1) len) as [L|L]; simpl; try tauto.
  split; [discriminate | tauto].
Qed.

(** C9.  In both loops, whether the micro-batch only accumulates or ends in an
    optimiser step, the backward pass is the first thing run and it is run on
    the loss divided by the accumulation frequency. *)
Theorem loss_divided_before_backward
    (is_ddp : bool) (freq ga len : nat) (raw : R) (idx : nat) :
  (exists no_sync rest,
      fst (train_step is_ddp freq raw idx)
        = Backward (rdiv raw (of_nat freq)) no_sync :: rest /\
      existsb is_backward rest = false /\
      snd (train_step is_ddp freq raw idx) = rdiv raw (of_nat freq)) /\
  (exists rest,
      deepcam_iter ga len raw idx
        = Backward (rdiv raw (of_nat ga)) false :: rest /\
      existsb is_backward rest = false).
Proof.
  split.
  - unfold train_step.
    destruct (negb _); [destruct is_ddp|]; simpl; eauto.
  - unfold deepcam_iter.
    destruct (_ || _); simpl; eauto.
Qed.
End AccumulationFacts.

(** C2.  With an accumulation frequency of 4 and 10 micro-batches in the
    epoch, the ResNet50 loop steps at micro-batches 3 and 7 only: the last
    micro-batch, 9, closes a partial window and does not step, and the epoch
    ends with the gradients of two micro-batches not applied.  The DeepCAM
    loop steps at 3, 7 and 9 and leaves none. *)
Theorem resnet_epoch_leaves_partial_window :
  let train_data := repeat (F32.of_Z 1) 10 in
  step_indices (resnet_epoch true 4 train_data) = [3; 7] /\
  step_indices (resnet_epoch false 4 train_data) = [3; 7] /\
  unapplied (resnet_epoch true 4 train_data) = 2 /\
  step_indices (deepcam_epoch 4 train_data) = [3; 7; 9] /\
  unapplied (deepcam_epoch 4 train_data) = 0.
Proof. vm_compute. repeat split. Qed.

(** ** Parameter broadcast *)

Section SyncParamsFacts.
Context {R : Type}.

Lemma sync_params_not_distributed (o : Lamb R) :
  distributed o = false -> sync_params o = (o, Ok tt).
Proof. intros H. unfold sync_params. rewrite H. reflexivity. Qed.

(** In a distributed run the call changes nothing and, as soon as there is a
    parameter, raises. *)
Lemma sync_params_distributed (o : Lamb R) :
  distributed o = true ->
  fst (sync_params o) = o /\
  (listed o <> [] -> exists msg, snd (sync_params o) = Err (AttributeError msg)).
Proof.
  intros H. unfold sync_params, listed. rewrite H. simpl.
  induction (param_groups o) as [|g gs IH]; simpl.
  - split; [reflexivity | congruence].
  - unfold bind at 1.
    destruct (g_params g) as [|p ps] eqn:E; simpl.
    + exact IH.
    + split; [reflexivity | eauto].
Qed.
End SyncParamsFacts.

(** C3.  Rank 1 of a two-rank run holds the value 2 for its only parameter
    while rank 0 holds 1.  The optimiser built there is distributed, and
    [sync_params] raises [AttributeError] and leaves the parameter at 2. *)
Theorem sync_params_raises_in_distributed_run :
  let t x := mkTensor float32 false [1] [F32.of_Z x] in
  let dist := mkDist true 2 (fun _ g => vals g) in
  let lr := F32.ratio 1 1000 in
  let betas := (F32.ratio 9 10, F32.ratio 999 1000) in
  let eps := F32.ratio 1 1000000 in
  exists rank1,
    Lamb__init__ dist [mkGroupArg [0] None None None None]
                 (fun _ => mkParam (t 2%Z) None)
                 lr betas eps (F32.of_Z 0) false true false = Ok rank1 /\
    distributed rank1 = true /\
    snd (sync_params rank1)
      = Err (AttributeError "'function' object has no attribute 'broadcase'") /\
    data (params (fst (sync_params rank1)) 0) = t 2%Z /\
    data (params (fst (sync_params rank1)) 0) <> t 1%Z.
Proof.
  cbv zeta. eexists. split; [vm_compute; reflexivity|].
  vm_compute. repeat split; congruence.
Qed.

(** ** The hierarchical hook *)

Section HookFacts.
Context {R : Type} {AR : Arith R}.
Variable c : Collectives R.
Variable rank world_size : nat.

(** On a leader the hook indexes a 0-dim tensor: it raises whatever the
    collectives do. *)
Lemma hook_raises_on_leader local_ranks zero_ranks taskspernode buffer :
  rank mod taskspernode = 0 ->
  exists e,
    custom_reduce_hook c rank world_size
      (local_ranks, zero_ranks, taskspernode) buffer = Err e.
Proof.
  intros Hl. unfold custom_reduce_hook, _reduce.
  destruct (reduce c buffer 0 local_ranks) as [t|e]; simpl; [|eauto].
  rewrite Hl. simpl.
  unfold _all_reduce_zeros; simpl.
  destruct (all_reduce_in c t zero_ranks) as [t'|e]; simpl; [|eauto].
  unfold _local_broadcast; simpl.
  destruct (broadcast c t' 0 local_ranks) as [t''|e]; simpl; [|eauto].
  destruct t''; simpl; eauto.
Qed.

(** On any other rank what the hook returns is a 0-dim tensor, never the
    buffer. *)
Lemma hook_returns_0dim_elsewhere local_ranks zero_ranks taskspernode buffer v :
  rank mod taskspernode <> 0 ->
  custom_reduce_hook c rank world_size
    (local_ranks, zero_ranks, taskspernode) buffer = Ok v ->
  exists x, v = VScalar x.
Proof.
  intros Hl. unfold custom_reduce_hook, _reduce.
  destruct (reduce c buffer 0 local_ranks) as [t|e]; simpl; [|discriminate].
  apply Nat.eqb_neq in Hl. rewrite Hl.
  unfold _local_broadcast; simpl.
  destruct (broadcast c t 0 local_ranks) as [t'|e]; simpl; [|discriminate].
  unfold _dev; simpl.
  destruct t'; simpl; [discriminate|].
  intros [= <-]. eauto.
Qed.
End HookFacts.

(** C1.  Two ranks on one node enter the hook with the buckets [1, 2] and
    [3, 4].  A flat all-reduce followed by division by 2 leaves [2, 3] on
    both.  The hook raises [IndexError] on rank 0, the leader, and returns the
    0-dim tensor 2 on rank 1. *)
Theorem hook_differs_from_flat_all_reduce :
  let w := [[F32.of_Z 1; F32.of_Z 2]; [F32.of_Z 3; F32.of_Z 4]] in
  let state := ([0; 1], [0], 2) in
  flat_all_reduce_mean w = [F32.of_Z 2; F32.of_Z 3] /\
  custom_reduce_hook (one_node_collectives w 0) 0 2 state [F32.of_Z 1; F32.of_Z 2]
    = Err (IndexError "invalid index of a 0-dim tensor") /\
  custom_reduce_hook (one_node_collectives w 1) 1 2 state [F32.of_Z 3; F32.of_Z 4]
    = Ok (VScalar (F32.of_Z 2)).
Proof. vm_compute. auto. Qed.

(** ** Loops over the parameters *)

Section LoopFacts.
Context {R : Type}.
Implicit Types (o : Lamb R) (p q : nat).

Lemma for_each_app {A} (xs ys : list A) (body : A -> M R unit) o :
  for_each (xs ++ ys) body o
  = bind (for_each xs body) (fun _ => for_each ys body) o.
Proof.
  revert o; induction xs as [|x xs IH]; intros o; simpl.
  - reflexivity.
  - unfold bind in *. destruct (body x o) as [o1 [[]|e]]; simpl.
    + apply IH.
    + reflexivity.
Qed.

Lemma for_each_map {A B} (f : A -> B) (xs : list A) (body : B -> M R unit) o :
  for_each (map f xs) body o = for_each xs (fun x => body (f x)) o.
Proof.
  revert o; induction xs as [|x xs IH]; intros o; simpl; [reflexivity|].
  unfold bind. destruct (body (f x) o) as [o1 [[]|e]]; auto.
Qed.

(** The nested loops visit [items]. *)
Lemma for_each_nested (gs : list (ParamGroup R))
    (body : ParamGroup R -> nat -> M R unit) o :
  for_each gs (fun g => for_each (g_params g) (body g)) o
  = for_each (items gs) (fun gp => body (fst gp) (snd gp)) o.
Proof.
  revert o; induction gs as [|g gs IH]; intros o; simpl; [reflexivity|].
  rewrite for_each_app. unfold bind. rewrite for_each_map. simpl.
  destruct (for_each (g_params g) (body g) o) as [o1 [[]|e]]; auto.
Qed.

Lemma items_snd (gs : list (ParamGroup R)) :
  map snd (items gs) = concat (map g_params gs).
Proof.
  induction gs as [|g gs IH]; simpl; [reflexivity|].
  rewrite map_app, IH. f_equal.
  rewrite map_map. simpl. apply map_id.
Qed.

(** A property every iteration keeps holds when the loop is left, normally or
    by an exception. *)
Lemma for_each_inv {A} (P : Lamb R -> Prop) (xs : list A) (body : A -> M R unit) o :
  (forall x o, P o -> P (fst (body x o))) ->
  P o -> P (fst (for_each xs body o)).
Proof.
  intros Hb. revert o; induction xs as [|x xs IH]; intros o Ho; simpl; [exact Ho|].
  unfold bind. specialize (Hb x o Ho).
  destruct (body x o) as [o1 [[]|e]]; simpl in *; auto.
Qed.

(** If an iteration that is bound to raise is in the list, the loop raises. *)
Lemma for_each_raises {A} (P : Lamb R -> Prop) (xs : list A)
    (body : A -> M R unit) (x : A) o :
  In x xs ->
  (forall y o, P o -> P (fst (body y o))) ->
  (forall o, P o -> is_ok (snd (body x o)) = false) ->
  P o -> is_ok (snd (for_each xs body o)) = false.
Proof.
  intros Hin Hb Hx. revert o; induction xs as [|y ys IH]; intros o Ho.
  - destruct Hin.
  - simpl. unfold bind.
    destruct Hin as [->|Hin].
    + specialize (Hx o Ho). destruct (body x o) as [o1 [[]|e]]; simpl in *;
        [discriminate | reflexivity].
    + specialize (Hb y o Ho). destruct (body y o) as [o1 [[]|e]]; simpl in *; auto.
Qed.

(** If every iteration, under [P], keeps [P] and can only raise [e], the loop
    keeps [P] and can only raise [e]. *)
Lemma for_each_only_raises {A} (P : Lamb R -> Prop) (e : error) (xs : list A)
    (body : A -> M R unit) o :
  (forall x o, P o ->
     P (fst (body x o)) /\ (snd (body x o) = Ok tt \/ snd (body x o) = Err e)) ->
  P o ->
  P (fst (for_each xs body o)) /\
  (snd (for_each xs body o) = Ok tt \/ snd (for_each xs body o) = Err e).
Proof.
  intros Hb. revert o; induction xs as [|x xs IH]; intros o Ho; simpl; [auto|].
  unfold bind. destruct (Hb x o Ho) as [H1 H2].
  destruct (body x o) as [o1 [[]|e1]]; simpl in *; auto.
Qed.

(** A loop whose iteration for [x] succeeds under [pre], rewrites the slot of
    [key x] as [post] says and touches no other slot: over distinct keys it
    succeeds, rewrites every visited slot once and leaves the others. *)
Lemma for_each_slots {A} (key : A -> nat) (body : A -> M R unit)
    (pre : A -> Param R * option (PState R) -> Prop)
    (post : A -> Param R * option (PState R) -> Param R * option (PState R) -> Prop)
    (xs : list A) :
  (forall x o, pre x (slot o (key x)) ->
     exists o', body x o = (o', Ok tt) /\
                (forall q, q <> key x -> slot o' q = slot o q) /\
                post x (slot o (key x)) (slot o' (key x))) ->
  NoDup (map key xs) ->
  forall o,
  (forall x, In x xs -> pre x (slot o (key x))) ->
  exists o', for_each xs body o = (o', Ok tt) /\
             (forall q, ~ In q (map key xs) -> slot o' q = slot o q) /\
             (forall x, In x xs -> post x (slot o (key x)) (slot o' (key x))).
Proof.
  intros Hb. induction xs as [|x xs IH]; intros Hnd o Hpre; simpl.
  - exists o. repeat split; auto. intros x [].
  - apply NoDup_cons in Hnd as [Hx Hnd].
    destruct (Hb x o) as (o1 & E1 & F1 & P1); [apply Hpre; left; reflexivity|].
    destruct (IH Hnd o1) as (o2 & E2 & F2 & P2).
    { intros y Hy. rewrite F1; [apply Hpre; right; exact Hy|].
      intros E. apply Hx. rewrite <- E. apply list_elem_of_In, in_map, Hy. }
    exists o2. unfold bind. rewrite E1. split; [exact E2|]. split.
    + intros q Hq. simpl in Hq. rewrite F2, F1; auto.
    + intros y [<-|Hy].
      * rewrite F2; [exact P1|]. intros Hin. apply Hx, list_elem_of_In, Hin.
      * rewrite <- (F1 (key y)); [apply P2, Hy|].
        intros E. apply Hx. rewrite <- E. apply list_elem_of_In, in_map, Hy.
Qed.
End LoopFacts.

(** ** One parameter of the step *)

Section StepParamFacts.
Context {R : Type} {SR : Scalar R}.
Implicit Types (o : Lamb R) (p q : nat) (g : ParamGroup R).

Lemma slot_set_ne o p q (v : Param R) (st : PState R) :
  q <> p -> slot (set_param p v (set_state p st o)) q = slot o q.
Proof.
  intros H. unfold slot, set_param, set_state; simpl.
  rewrite fn_lookup_insert_ne by congruence.
  rewrite lookup_insert_ne by congruence. reflexivity.
Qed.

Ltac slot_written p Hg :=
  repeat split; try reflexivity; try assumption;
  [ intros q Hq; apply slot_set_ne, Hq
  | intros q; destruct (decide (q = p)) as [->|Hq];
    [ rewrite fn_lookup_insert; simpl; auto
    | rewrite fn_lookup_insert_ne by congruence; reflexivity ] ].

Ltac shapes :=
  unfold state_ok, same_shape in *; simpl;
  repeat first [rewrite map2_self_length | rewrite length_map];
  intuition (simplify_eq; simpl;
             repeat first [rewrite map2_self_length | rewrite length_map];
             try congruence; eauto).

(** A parameter without gradient: [continue]. *)
Lemma step_param_none g p o :
  grad (params o p) = None -> step_param g p o = (o, Ok tt).
Proof. intros H. unfold step_param. rewrite H. reflexivity. Qed.

(** A sparse gradient: the exception, and nothing written. *)
Lemma step_param_sparse g p o gr :
  grad (params o p) = Some gr -> is_sparse gr = true ->
  step_param g p o = (o, Err (RuntimeError sparse_msg)).
Proof. intros H Hs. unfold step_param. rewrite H, Hs. reflexivity. Qed.

(** Whatever happens, the iteration for [p] writes the slot of [p] only, and
    in it not the gradient. *)
Lemma step_param_writes g p o :
  let o' := fst (step_param g p o) in
  (forall q, q <> p -> slot o' q = slot o q) /\
  (forall q, grad (params o' q) = grad (params o q)) /\
  same_config o o'.
Proof.
  cbv zeta. unfold step_param, same_config.
  destruct (grad (params o p)) as [gr|] eqn:Hg; simpl; [|repeat split; auto].
  destruct (is_sparse gr); simpl; [repeat split; auto|].
  destruct (g_betas g) as [beta1 beta2].
  destruct (bool_decide (dtype (data (params o p)) = bfloat16)).
  - destruct (data_fp32 _) as [d|]; simpl; [|repeat split; auto].
    destruct (bias_correction o) eqn:Hbc; simpl; slot_written p Hg.
  - simpl. destruct (bias_correction o) eqn:Hbc; simpl; slot_written p Hg.
Qed.

Lemma init_state_ok (P : Param R) : state_ok P (init_state P).
Proof.
  unfold state_ok, init_state, same_shape, zeros_like, tensor_to; simpl.
  rewrite !length_map. unfold same_shape.
  case_bool_decide as Hbf.
  - repeat apply conj; eauto.
    intros d [= <-]. split; simpl; [reflexivity | apply length_map].
  - repeat apply conj; auto; try discriminate.
    + intros [? ?]; discriminate.
    + intros; contradiction.
Qed.

(** A dense gradient and a state that is absent or sound: the iteration
    succeeds, counts one step, keeps the state sound and the value in its
    dtype and shape. *)
Lemma step_param_dense g p o gr :
  grad (params o p) = Some gr -> is_sparse gr = false ->
  (forall st, state o !! p = Some st -> state_ok (params o p) st) ->
  exists P' st',
    step_param g p o = (set_param p P' (set_state p st' o), Ok tt) /\
    st_step st' = S (step_count (state o !! p)) /\
    state_ok P' st' /\
    same_shape (data P') (data (params o p)) /\
    dtype (data P') = dtype (data (params o p)) /\
    grad P' = Some gr.
Proof.
  intros Hg Hs Hst. unfold step_param. rewrite Hg, Hs.
  set (P := params o p) in *.
  assert (Hok : state_ok P (match state o !! p with
                            | Some st => st | None => init_state P end)).
  { destruct (state o !! p) as [st|]; [apply Hst; reflexivity | apply init_state_ok]. }
  assert (Hcnt : st_step (match state o !! p with
                          | Some st => st | None => init_state P end)
                 = step_count (state o !! p)).
  { destruct (state o !! p); reflexivity. }
  revert Hok Hcnt.
  generalize (match state o !! p with Some st => st | None => init_state P end).
  intros st (Hm & Hmd & Hv & Hvd & Hsh & Hshd) Hcnt.
  destruct (g_betas g) as [beta1 beta2].
  case_bool_decide as Hbf.
  - destruct (proj2 Hsh Hbf) as [d Hd]. rewrite Hd.
    specialize (Hshd d Hd).
    destruct (bias_correction o); simpl; eexists _, _;
      (split; [reflexivity|]); simpl; shapes.
  - destruct (bias_correction o); simpl; eexists _, _;
      (split; [reflexivity|]); simpl; shapes.
Qed.
(** From sound states an iteration ends normally or with the exception for a
    sparse gradient, and the states stay sound. *)
Lemma step_param_sound g p o :
  states_ok o ->
  states_ok (fst (step_param g p o)) /\
  (snd (step_param g p o) = Ok tt \/
   snd (step_param g p o) = Err (RuntimeError sparse_msg)).
Proof.
  intros Hok.
  destruct (grad (params o p)) as [gr|] eqn:Hg.
  - destruct (is_sparse gr) eqn:Hs.
    + rewrite (step_param_sparse g p o gr Hg Hs). simpl. auto.
    + destruct (step_param_dense g p o gr Hg Hs (Hok p))
        as (P' & st' & E & _ & Hst & _).
      rewrite E. simpl. split; [|auto].
      intros q st. unfold set_param, set_state; simpl.
      destruct (decide (q = p)) as [->|Hq].
      * rewrite lookup_insert_eq, fn_lookup_insert. intros [= <-]. exact Hst.
      * rewrite lookup_insert_ne, fn_lookup_insert_ne by congruence. apply Hok.
  - rewrite (step_param_none g p o Hg). simpl. auto.
Qed.
End StepParamFacts.

(** ** The whole step *)

Section StepFacts.
Context {R : Type} {SR : Scalar R}.
Variable dist : Dist R.
Implicit Types (o : Lamb R) (p q : nat) (g : ParamGroup R).

Lemma same_layout_refl (a : option (Tensor R)) : same_layout a a.
Proof. destruct a; simpl; auto. Qed.

Lemma same_layout_trans (a b c : option (Tensor R)) :
  same_layout a b -> same_layout b c -> same_layout a c.
Proof. destruct a, b, c; simpl; try tauto; congruence. Qed.

(** [sync_grads] writes gradient values only. *)
Lemma sync_grads_writes o :
  let o' := fst (sync_grads dist o) in
  (forall q, state o' !! q = state o !! q /\
             data (params o' q) = data (params o q) /\
             same_layout (grad (params o q)) (grad (params o' q))) /\
  param_groups o' = param_groups o.
Proof.
  cbv zeta. unfold sync_grads.
  destruct (distributed o); simpl;
    [|split; [intros q; auto using same_layout_refl | reflexivity]].
  rewrite (for_each_nested (param_groups o) (fun _ p => _)).
  apply (for_each_inv (fun o' =>
    (forall q, state o' !! q = state o !! q /\
               data (params o' q) = data (params o q) /\
               same_layout (grad (params o q)) (grad (params o' q))) /\
    param_groups o' = param_groups o)).
  - intros [g p] o1 [H Hg]. simpl.
    destruct (grad (params o1 p)) as [gr|] eqn:E; simpl; [|auto].
    split; [|exact Hg].
    intros q. destruct (H q) as (Hs & Hd & Hl).
    split; [exact Hs|].
    destruct (decide (q = p)) as [->|Hq].
    + rewrite fn_lookup_insert. simpl. split; [exact Hd|].
      eapply same_layout_trans; [exact Hl|]. rewrite E. reflexivity.
    + rewrite fn_lookup_insert_ne by congruence. auto.
  - split; [intros q; auto using same_layout_refl | reflexivity].
Qed.

(** The step, phase by phase. *)
Lemma step_unfold (closure : option (M R R)) o :
  step dist closure o =
  let o1 := after_closure closure o in
  match closure_result closure o with
  | Err e => (o1, Err e)
  | Ok loss =>
      let s := if perform_allreduce o1 then sync_grads dist o1 else (o1, Ok tt) in
      match snd s with
      | Err e => (fst s, Err e)
      | Ok _ =>
          match snd (step_loop (fst s)) with
          | Err e => (fst (step_loop (fst s)), Err e)
          | Ok _ => (fst (step_loop (fst s)), Ok loss)
          end
      end
  end.
Proof.
  unfold step, after_closure, closure_result, bind, ret.
  destruct closure as [c|]; simpl.
  - destruct (c o) as [o1 [l|e]]; simpl; [|reflexivity].
    destruct (perform_allreduce o1); simpl.
    + destruct (sync_grads dist o1) as [o2 [[]|e]]; simpl; [|reflexivity].
      destruct (step_loop o2) as [o3 [[]|e]]; reflexivity.
    + destruct (step_loop o1) as [o3 [[]|e]]; reflexivity.
  - destruct (perform_allreduce o); simpl.
    + destruct (sync_grads dist o) as [o2 [[]|e]]; simpl; [|reflexivity].
      destruct (step_loop o2) as [o3 [[]|e]]; reflexivity.
    + destruct (step_loop o) as [o3 [[]|e]]; reflexivity.
Qed.

Lemma step_loop_items o :
  step_loop o
  = for_each (items (param_groups o)) (fun gp => step_param (fst gp) (snd gp)) o.
Proof. unfold step_loop. apply for_each_nested. Qed.

Lemma same_config_refl o : same_config o o.
Proof. unfold same_config. repeat split. Qed.

Lemma same_config_trans o1 o2 o3 :
  same_config o1 o2 -> same_config o2 o3 -> same_config o1 o3.
Proof. unfold same_config. intuition congruence. Qed.

(** The loop writes neither a gradient nor the configuration. *)
Lemma step_loop_keeps_gradients o :
  (forall q, grad (params (fst (step_loop o)) q) = grad (params o q)) /\
  same_config o (fst (step_loop o)).
Proof.
  rewrite step_loop_items.
  apply (for_each_inv (fun o' =>
    (forall q, grad (params o' q) = grad (params o q)) /\ same_config o o')).
  - intros [g p] o1 [H Hc]. simpl.
    destruct (step_param_writes g p o1) as (_ & Hg & Hc1). split.
    + intros q. rewrite Hg. apply H.
    + eapply same_config_trans; eauto.
  - split; [reflexivity | apply same_config_refl].
Qed.

(** C10.  With [perform_allreduce] off, the gradients after the step are the
    gradients the step was entered with (as the closure, if any, left them),
    whether the step returns or raises; the flags, the defaults and the
    parameter groups are not written either, so what the step writes is
    parameter values and parameter states. *)
Theorem step_keeps_gradients (closure : option (M R R)) o :
  perform_allreduce (after_closure closure o) = false ->
  (forall q,
     grad (params (fst (step dist closure o)) q)
     = grad (params (after_closure closure o) q)) /\
  same_config (after_closure closure o) (fst (step dist closure o)).
Proof.
  intros Hp. rewrite step_unfold. cbv zeta. rewrite Hp.
  destruct (closure_result closure o) as [loss|e]; simpl;
    [|split; [reflexivity | apply same_config_refl]].
  destruct (snd (step_loop _)); simpl; apply step_loop_keeps_gradients.
Qed.

(** A parameter whose gradient is absent keeps its slot through the loop. *)
Lemma step_loop_skips o p :
  grad (params o p) = None -> slot (fst (step_loop o)) p = slot o p.
Proof.
  intros Hn. rewrite step_loop_items.
  apply (for_each_inv (fun o' => slot o' p = slot o p)); [|reflexivity].
  intros [g q] o1 H. simpl.
  destruct (decide (p = q)) as [<-|Hq].
  - rewrite step_param_none; [exact H|].
    unfold slot in H. injection H as H1 _. rewrite H1. exact Hn.
  - destruct (step_param_writes g q o1) as (Hf & _). rewrite Hf; auto.
Qed.

Lemma sync_grads_skips o p :
  grad (params o p) = None -> slot (fst (sync_grads dist o)) p = slot o p.
Proof.
  intros Hn. unfold sync_grads.
  destruct (distributed o); simpl; [|reflexivity].
  rewrite (for_each_nested (param_groups o) (fun _ p => _)).
  apply (for_each_inv (fun o' => slot o' p = slot o p)); [|reflexivity].
  intros [g q] o1 H. simpl.
  destruct (grad (params o1 q)) as [gr|] eqn:E; simpl; [|exact H].
  rewrite <- H. unfold slot, set_param; simpl.
  rewrite fn_lookup_insert_ne; [reflexivity|].
  intros <-. unfold slot in H. injection H as H1 _. congruence.
Qed.

(** A parameter with a sparse gradient that the loops visit: the loop raises
    and the state and value of the parameter are as before. *)
Lemma step_loop_sparse o p gr :
  In p (listed o) -> grad (params o p) = Some gr -> is_sparse gr = true ->
  is_ok (snd (step_loop o)) = false /\
  slot (fst (step_loop o)) p = slot o p.
Proof.
  intros Hin Hg Hs. rewrite step_loop_items.
  assert (Hkeep : forall (y : ParamGroup R * nat) o1,
            slot o1 p = slot o p ->
            slot (fst (step_param (fst y) (snd y) o1)) p = slot o p).
  { intros [g q] o1 H. simpl. destruct (decide (p = q)) as [<-|Hq].
    - rewrite (step_param_sparse g p o1 gr); auto.
      unfold slot in H. injection H as H1 _. rewrite H1. exact Hg.
    - destruct (step_param_writes g q o1) as (Hf & _). rewrite Hf; auto. }
  split.
  - unfold listed in Hin. rewrite <- items_snd in Hin.
    apply in_map_iff in Hin as ([g p'] & E & Hin). simpl in E. subst p'.
    apply (for_each_raises (fun o' => slot o' p = slot o p) _ _ (g, p));
      auto.
    intros o1 H. simpl. rewrite (step_param_sparse g p o1 gr); auto.
    unfold slot in H. injection H as H1 _. rewrite H1. exact Hg.
  - apply (for_each_inv (fun o' => slot o' p = slot o p)); auto.
Qed.

(** From sound states the loop returns or raises for a sparse gradient. *)
Lemma step_loop_sound o :
  states_ok o ->
  states_ok (fst (step_loop o)) /\
  (snd (step_loop o) = Ok tt \/
   snd (step_loop o) = Err (RuntimeError sparse_msg)).
Proof.
  intros Hok. rewrite step_loop_items.
  apply (for_each_only_raises states_ok); [|exact Hok].
  intros [g p] o1 H1. apply step_param_sound, H1.
Qed.

(** C7.  A parameter without gradient is passed over ([continue]) and a
    sparse gradient raises the [RuntimeError] with nothing written; over the
    whole step, a parameter whose gradient is absent keeps its value, its
    gradient and its state, and if a visited parameter has a sparse gradient
    the step raises and that parameter keeps its value and its state; the
    exception is that [RuntimeError] when the closure returned, the states
    were sound and [perform_allreduce] is off. *)
Theorem step_skips_absent_and_rejects_sparse (closure : option (M R R)) o p :
  let o1 := after_closure closure o in
  let o' := fst (step dist closure o) in
  (forall g o, grad (params o p) = None -> step_param g p o = (o, Ok tt)) /\
  (forall g o gr, grad (params o p) = Some gr -> is_sparse gr = true ->
     step_param g p o = (o, Err (RuntimeError sparse_msg))) /\
  (grad (params o1 p) = None -> slot o' p = slot o1 p) /\
  (forall gr, In p (listed o1) ->
     grad (params o1 p) = Some gr -> is_sparse gr = true ->
     is_ok (snd (step dist closure o)) = false /\
     state o' !! p = state o1 !! p /\
     data (params o' p) = data (params o1 p) /\
     (is_ok (closure_result closure o) = true ->
      perform_allreduce o1 = false -> states_ok o1 ->
      snd (step dist closure o) = Err (RuntimeError sparse_msg))).
Proof.
  cbv zeta. split; [|split; [|split]].
  - intros g o0. apply step_param_none.
  - intros g o0 gr. apply step_param_sparse.
  - intros Hn. rewrite step_unfold. cbv zeta.
    destruct (closure_result closure o) as [loss|e]; simpl; [|reflexivity].
    set (o1 := after_closure closure o) in *.
    assert (Hs : slot (fst (if perform_allreduce o1 then sync_grads dist o1
                            else (o1, Ok tt))) p = slot o1 p).
    { destruct (perform_allreduce o1); [apply sync_grads_skips, Hn | reflexivity]. }
    destruct (snd (if perform_allreduce o1 then _ else _)); simpl; [|exact Hs].
    assert (slot (fst (step_loop (fst (if perform_allreduce o1
              then sync_grads dist o1 else (o1, Ok tt))))) p = slot o1 p).
    { rewrite step_loop_skips; [exact Hs|].
      unfold slot in Hs. injection Hs as H1 _. rewrite H1. exact Hn. }
    destruct (snd (step_loop _)); simpl; assumption.
  - intros gr Hin Hg Hsp. rewrite step_unfold. cbv zeta.
    destruct (closure_result closure o) as [loss|e]; simpl;
      [|repeat split; auto; discriminate].
    set (o1 := after_closure closure o) in *.
    set (s := if perform_allreduce o1 then sync_grads dist o1 else (o1, Ok tt)).
    assert (Hs : (state (fst s) !! p = state o1 !! p /\
                  data (params (fst s) p) = data (params o1 p) /\
                  same_layout (grad (params o1 p)) (grad (params (fst s) p))) /\
                 param_groups (fst s) = param_groups o1).
    { unfold s. destruct (perform_allreduce o1); simpl.
      - destruct (sync_grads_writes o1) as [H1 H2]. split; [apply H1 | exact H2].
      - auto using same_layout_refl. }
    destruct Hs as ((Hst & Hd & Hl) & Hpg).
    assert (Hoff : perform_allreduce o1 = false -> s = (o1, Ok tt)).
    { unfold s. intros ->. reflexivity. }
    destruct (snd s) as [[]|e] eqn:Es; simpl;
      [|repeat split; auto; intros _ Hp _; rewrite (Hoff Hp) in Es; discriminate].
    rewrite Hg in Hl. simpl in Hl.
    destruct (grad (params (fst s) p)) as [gr'|] eqn:Hg'; [|contradiction].
    destruct (step_loop_sparse (fst s) p gr') as [Hr Hsl]; auto.
    { unfold listed. rewrite Hpg. exact Hin. }
    { congruence. }
    unfold slot in Hsl. injection Hsl as Hp' Hs'.
    destruct (snd (step_loop (fst s))) as [[]|e] eqn:El; simpl in *;
      [discriminate|].
    rewrite Hs', Hp'. repeat split; auto.
    intros _ Hp Hok. rewrite (Hoff Hp) in El. simpl in El.
    destruct (step_loop_sound o1 Hok) as [_ [H|H]]; congruence.
Qed.
End StepFacts.

(** ** Averaging the gradients *)

Section SyncGradsFacts.
Context {R : Type} {AR : Arith R}.
Implicit Types (o : Lamb R) (p q : nat).

Lemma sync_grads_not_distributed (dist : Dist R) o :
  distributed o = false -> sync_grads dist o = (o, Ok tt).
Proof. intros H. unfold sync_grads. rewrite H. reflexivity. Qed.

(** A loop whose iterations, over its list, keep a property and return under
    it, returns and keeps it. *)
Lemma for_each_returns {A} (P : Lamb R -> Prop) (xs : list A)
    (body : A -> M R unit) o :
  (forall x o, In x xs -> P o -> P (fst (body x o)) /\ snd (body x o) = Ok tt) ->
  P o -> snd (for_each xs body o) = Ok tt /\ P (fst (for_each xs body o)).
Proof.
  revert o; induction xs as [|x xs IH]; intros o Hb Ho; simpl; [auto|].
  unfold bind. destruct (Hb x o (or_introl eq_refl) Ho) as [H1 H2].
  destruct (body x o) as [o1 [[]|e]]; simpl in *; [|discriminate].
  apply IH; [|exact H1]. intros y o2 Hy. apply Hb. right. exact Hy.
Qed.

(** [sync_grads] has no test for a gradient that is [None]: in a distributed
    run a listed parameter without gradient makes it raise. *)
Lemma sync_grads_missing_gradient (dist : Dist R) o p :
  distributed o = true -> In p (listed o) -> grad (params o p) = None ->
  snd (sync_grads dist o)
  = Err (AttributeError "'NoneType' object has no attribute 'data'").
Proof.
  intros Hd Hin Hn. unfold sync_grads. rewrite Hd. simpl.
  rewrite (for_each_nested (param_groups o) (fun _ p => _)).
  set (body := fun gp : ParamGroup R * nat => _).
  assert (Hfail : is_ok (snd (for_each (items (param_groups o)) body o)) = false).
  { unfold listed in Hin. rewrite <- items_snd in Hin.
    apply in_map_iff in Hin as ([g p'] & Hp & Hin). simpl in Hp. subst p'.
    apply (for_each_raises (fun o' => grad (params o' p) = None) _ body (g, p));
      auto.
    - intros [g' q] o1 H. unfold body. simpl.
      destruct (grad (params o1 q)) as [gr|] eqn:E; simpl; [|exact H].
      rewrite fn_lookup_insert_ne; [exact H|]. congruence.
    - intros o1 H. unfold body. simpl. rewrite H. reflexivity. }
  destruct (for_each_only_raises (fun _ => True)
              (AttributeError "'NoneType' object has no attribute 'data'")
              (items (param_groups o)) body o) as [_ [H|H]]; auto.
  - intros [g' q] o1 _. split; [exact I|]. unfold body. simpl.
    destruct (grad (params o1 q)); simpl; auto.
  - rewrite H in Hfail. discriminate.
Qed.

(** When every listed parameter has a gradient, listed once or more,
    [sync_grads] returns. *)
Lemma sync_grads_returns (dist : Dist R) o :
  (distributed o = true ->
   forall p, In p (listed o) -> is_Some (grad (params o p))) ->
  snd (sync_grads dist o) = Ok tt.
Proof.
  intros Hg. unfold sync_grads.
  destruct (distributed o); simpl; [|reflexivity].
  rewrite (for_each_nested (param_groups o) (fun _ p => _)).
  apply (for_each_returns
           (fun o' => forall p, In p (listed o) -> is_Some (grad (params o' p))));
    [|auto].
  intros [g p] o1 Hin H. simpl.
  assert (Hp : In p (listed o)).
  { unfold listed. rewrite <- items_snd. apply in_map_iff. exists (g, p). auto. }
  destruct (H p Hp) as [gr Hgr]. rewrite Hgr. simpl. split; [|reflexivity].
  intros q Hq. destruct (decide (q = p)) as [->|Hne].
  - rewrite fn_lookup_insert. simpl. eauto.
  - rewrite fn_lookup_insert_ne by congruence. auto.
Qed.

(** In a distributed run where every visited parameter has a gradient and is
    visited once, [sync_grads] returns and has replaced every such gradient
    by the all-reduce of its quotient by the world size. *)
Lemma sync_grads_distributed (dist : Dist R) o :
  distributed o = true ->
  NoDup (listed o) ->
  (forall p, In p (listed o) -> is_Some (grad (params o p))) ->
  exists o',
    sync_grads dist o = (o', Ok tt) /\
    forall p, In p (listed o) ->
      exists gr, grad (params o p) = Some gr /\
        grad (params o' p)
        = Some (all_reduce_ dist p (div_ (get_world_size dist) gr)).
Proof.
  intros Hd Hnd Hg. unfold sync_grads. rewrite Hd. simpl.
  rewrite (for_each_nested (param_groups o) (fun _ p => _)).
  unfold listed in *. rewrite <- items_snd in *.
  destruct (for_each_slots snd
    (fun gp : ParamGroup R * nat => fun o : Lamb R =>
       match grad (params o (snd gp)) with
       | Some g =>
           ret tt (set_param (snd gp)
             (mkParam (data (params o (snd gp)))
                (Some (all_reduce_ dist (snd gp) (div_ (get_world_size dist) g)))) o)
       | None => raise (AttributeError "'NoneType' object has no attribute 'data'") o
       end)
    (fun _ s => is_Some (grad (fst s)))
    (fun gp s s' => exists gr, grad (fst s) = Some gr /\
        grad (fst s')
        = Some (all_reduce_ dist (snd gp) (div_ (get_world_size dist) gr)))
    (items (param_groups o))) with (o := o) as (o' & E & _ & P); auto.
  - intros [g p] o1 [gr Hgr]. simpl in *. rewrite Hgr.
    eexists. split; [reflexivity|]. split.
    + intros q Hq. unfold slot, set_param; simpl.
      rewrite fn_lookup_insert_ne by congruence. reflexivity.
    + exists gr. split; [reflexivity|].
      unfold set_param; simpl. rewrite fn_lookup_insert. reflexivity.
  - intros [g p] Hin. simpl. apply Hg, in_map_iff. exists (g, p). auto.
  - exists o'. split; [exact E|].
    intros p Hin. apply in_map_iff in Hin as ([g p'] & <- & Hin).
    apply (P (g, p') Hin).
Qed.

Lemma map_div_map2_self (n : R) (xs ys : list R) :
  (forall a b c : R, rdiv (radd a b) c = radd (rdiv a c) (rdiv b c)) ->
  map (fun x => rdiv x n) (map2_self radd xs ys)
  = map2_self radd (map (fun x => rdiv x n) xs) (map (fun x => rdiv x n) ys).
Proof.
  intros law. revert ys; induction xs as [|x xs IH]; intros [|y ys]; simpl; auto.
  rewrite law, IH. reflexivity.
Qed.

Lemma map_div_fold (n : R) (bs : list (list R)) (b : list R) :
  (forall a b c : R, rdiv (radd a b) c = radd (rdiv a c) (rdiv b c)) ->
  map (fun x => rdiv x n) (fold_left (map2_self radd) bs b)
  = fold_left (map2_self radd) (map (map (fun x => rdiv x n)) bs)
              (map (fun x => rdiv x n) b).
Proof.
  intros law. revert b; induction bs as [|c bs IH]; intros b; simpl; auto.
  rewrite IH, map_div_map2_self; auto.
Qed.

(** What the ranks pass to the all-reduce for [p] is every rank's gradient
    divided by the world size. *)
Lemma world_contributions (w : list (Lamb R)) (n r : nat) o p gr :
  w !! r = Some o -> grad (params o p) = Some gr ->
  (forall o, In o w -> is_Some (grad (params o p))) ->
  imap (fun r' o => if r' =? r then vals (div_ n gr)
                    else match grad (params o p) with
                         | Some g => vals (div_ n g)
                         | None => []
                         end) w
  = map (map (fun x => rdiv x (of_nat n))) (world_vals w p).
Proof.
  intros Hr Hg Hall.
  set (contrib := fun o : Lamb R => match grad (params o p) with
                                    | Some g => vals (div_ n g)
                                    | None => []
                                    end).
  transitivity (imap (const contrib) w).
  - apply imap_ext. intros i x Hi. simpl. unfold contrib.
    destruct (Nat.eqb_spec i r) as [->|]; [|reflexivity].
    rewrite Hr in Hi. injection Hi as <-. rewrite Hg. reflexivity.
  - rewrite imap_const. unfold world_vals, contrib. clear Hr.
    induction w as [|o0 w' IH]; simpl; [reflexivity|].
    destruct (Hall o0) as [g0 Hg0]; [left; reflexivity|].
    rewrite Hg0. simpl. f_equal.
    apply IH. intros o1 H1. apply Hall. right. exact H1.
Qed.

Lemma world_vals_length (w : list (Lamb R)) p :
  (forall o, In o w -> is_Some (grad (params o p))) ->
  length (world_vals w p) = length w.
Proof.
  unfold world_vals. induction w as [|o w IH]; intros H; simpl; [reflexivity|].
  destruct (H o) as [g Hg]; [left; reflexivity|]. rewrite Hg. simpl.
  f_equal. apply IH. intros o1 H1. apply H. right. exact H1.
Qed.

Lemma map_div_sum (n : R) (bufs : list (list R)) :
  (forall a b c : R, rdiv (radd a b) c = radd (rdiv a c) (rdiv b c)) ->
  map (fun x => rdiv x n) (sum_over_ranks bufs)
  = sum_over_ranks (map (map (fun x => rdiv x n)) bufs).
Proof.
  intros law. destruct bufs as [|b bs]; simpl; [reflexivity|].
  apply map_div_fold, law.
Qed.

(** C4, as amended.  [sync_grads] divides first and reduces second.  In a
    distributed run whose ranks all list the same parameters, each once and
    each with a gradient, it returns on every rank and leaves, for every
    parameter, the sum over the ranks of the gradients divided by the world
    size, the same on every rank.  That is the flat all-reduce followed by
    the division, the mean of the gradients, in an arithmetic where a
    quotient of a sum is the sum of the quotients; binary32 is not one.
    When the run is not distributed the call changes nothing.  A listed
    parameter whose gradient is [None] is not passed over: the call
    raises. *)
Theorem sync_grads_averages (w : list (Lamb R)) (ps : list nat) :
  NoDup ps ->
  (forall o, In o w ->
     distributed o = true /\ listed o = ps /\
     forall p, In p ps -> is_Some (grad (params o p))) ->
  (forall r o, w !! r = Some o ->
     exists o', sync_grads (world_dist w r) o = (o', Ok tt) /\
       forall p, In p ps ->
         exists g', grad (params o' p) = Some g' /\
           vals g' = sum_over_ranks
                       (map (map (fun x => rdiv x (of_nat (length w))))
                            (world_vals w p)) /\
           ((forall a b c : R, rdiv (radd a b) c = radd (rdiv a c) (rdiv b c)) ->
            vals g' = flat_all_reduce_mean (world_vals w p))) /\
  (forall dist o, distributed o = false -> sync_grads dist o = (o, Ok tt)) /\
  (forall dist o p,
     distributed o = true -> In p (listed o) -> grad (params o p) = None ->
     snd (sync_grads dist o)
     = Err (AttributeError "'NoneType' object has no attribute 'data'")).
Proof.
  intros Hnd Hw.
  split; [|split; [intros; apply sync_grads_not_distributed; auto
                  |intros dist o p; apply sync_grads_missing_gradient]].
  intros r o Hr.
  assert (Ho : In o w) by (apply list_elem_of_In, list_elem_of_lookup; eauto).
  destruct (Hw o Ho) as (Hd & Hl & Hg).
  destruct (sync_grads_distributed (world_dist w r) o) as (o' & E & P); auto.
  { rewrite Hl. exact Hnd. }
  { rewrite Hl. exact Hg. }
  exists o'. split; [exact E|].
  intros p Hp. destruct (P p) as (gr & Hgr & Hgr'); [rewrite Hl; exact Hp|].
  assert (Hall : forall o, In o w -> is_Some (grad (params o p))).
  { intros o2 H2. apply (Hw o2 H2), Hp. }
  assert (Hv : vals (all_reduce_ (world_dist w r) p
                       (div_ (get_world_size (world_dist w r)) gr))
               = sum_over_ranks
                   (map (map (fun x => rdiv x (of_nat (length w))))
                        (world_vals w p))).
  { unfold all_reduce_. cbn [vals]. unfold world_dist.
    cbn [all_reduce get_world_size].
    rewrite (world_contributions w (length w) r o p gr); auto. }
  eexists. split; [exact Hgr'|]. split; [exact Hv|].
  intros law. rewrite Hv. unfold flat_all_reduce_mean.
  rewrite (world_vals_length w p Hall). symmetry. apply map_div_sum, law.
Qed.
End SyncGradsFacts.

(** ** The state of a parameter across steps *)

Section StateFacts.
Context {R : Type} {SR : Scalar R}.
Variable dist : Dist R.
Implicit Types (o : Lamb R) (p q : nat) (g : ParamGroup R).

Lemma classic_in p (l : list nat) : In p l \/ ~ In p l.
Proof. destruct (in_dec Nat.eq_dec p l); auto. Qed.

Lemma state_ok_data (P P' : Param R) st :
  data P' = data P -> state_ok P st -> state_ok P' st.
Proof. unfold state_ok. intros ->. auto. Qed.

(** The loop over parameters that are visited once, none with a sparse
    gradient, whose states are absent or sound: it returns; a parameter with
    a gradient gets a sound state that counts one more step, a parameter
    without one keeps its slot. *)
Lemma step_loop_no_sparse o :
  NoDup (listed o) ->
  (forall p, In p (listed o) ->
     (forall gr, grad (params o p) = Some gr -> is_sparse gr = false) /\
     (forall st, state o !! p = Some st -> state_ok (params o p) st)) ->
  exists o',
    step_loop o = (o', Ok tt) /\
    (forall p, ~ In p (listed o) -> slot o' p = slot o p) /\
    (forall p, In p (listed o) ->
       match grad (params o p) with
       | None => slot o' p = slot o p
       | Some _ =>
           exists st', state o' !! p = Some st' /\
             st_step st' = S (step_count (state o !! p)) /\
             state_ok (params o' p) st' /\
             same_shape (data (params o' p)) (data (params o p))
       end).
Proof.
  intros Hnd Hpre. rewrite step_loop_items.
  unfold listed in *. rewrite <- items_snd in *.
  destruct (for_each_slots snd
    (fun gp : ParamGroup R * nat => step_param (fst gp) (snd gp))
    (fun _ s => (forall gr, grad (fst s) = Some gr -> is_sparse gr = false) /\
                (forall st, snd s = Some st -> state_ok (fst s) st))
    (fun _ s s' =>
       match grad (fst s) with
       | None => s' = s
       | Some _ =>
           exists st', snd s' = Some st' /\
             st_step st' = S (step_count (snd s)) /\
             state_ok (fst s') st' /\
             same_shape (data (fst s')) (data (fst s))
       end)
    (items (param_groups o))) with (o := o) as (o' & E & F & P); auto.
  - intros [g p] o1 [Hs Hst]. cbn [fst snd slot] in *.
    destruct (grad (params o1 p)) as [gr|] eqn:Hg.
    + destruct (step_param_dense g p o1 gr Hg (Hs gr eq_refl) Hst)
        as (P' & st' & E & Hc & Hok & Hsh & _ & _).
      eexists. split; [exact E|]. split.
      * intros q Hq. apply slot_set_ne, Hq.
      * exists st'. unfold set_param, set_state; simpl.
        rewrite lookup_insert_eq, fn_lookup_insert. auto.
    + exists o1. rewrite (step_param_none g p o1 Hg). auto.
  - intros [g p] Hin. simpl. apply Hpre, in_map_iff. exists (g, p). auto.
  - exists o'. split; [exact E|]. split; [exact F|].
    intros p Hin. apply in_map_iff in Hin as ([g p'] & <- & Hin).
    apply (P (g, p') Hin).
Qed.

Lemma same_shape_trans (a b c : Tensor R) :
  same_shape a b -> same_shape b c -> same_shape a c.
Proof. unfold same_shape. intros [-> ->] [-> ->]. auto. Qed.

(** The loop over any list of visits, a parameter being visited as often as
    it is listed: when no visited gradient is sparse and the visited states
    are absent or sound, the loop returns; it writes no gradient and keeps
    the shape of every value; the step count of a parameter that has a
    gradient grows by the number of its visits, and its state is sound from
    the first visit on; every other parameter keeps its slot. *)
Lemma step_visits_count (xs : list (ParamGroup R * nat)) : forall o,
  (forall p, In p (map snd xs) ->
     (forall gr, grad (params o p) = Some gr -> is_sparse gr = false) /\
     (forall st, state o !! p = Some st -> state_ok (params o p) st)) ->
  exists o',
    for_each xs (fun gp => step_param (fst gp) (snd gp)) o = (o', Ok tt) /\
    forall p,
      let n := match grad (params o p) with
               | Some _ => count_occ Nat.eq_dec (map snd xs) p
               | None => 0
               end in
      grad (params o' p) = grad (params o p) /\
      same_shape (data (params o' p)) (data (params o p)) /\
      step_count (state o' !! p) = step_count (state o !! p) + n /\
      (n = 0 -> slot o' p = slot o p) /\
      (0 < n -> exists st', state o' !! p = Some st' /\
                            state_ok (params o' p) st').
Proof.
  induction xs as [|[g q] xs IH]; intros o Hpre.
  - exists o. split; [reflexivity|]. intros p. cbv zeta.
    cbn [map count_occ].
    destruct (grad (params o p)); repeat split; auto; lia.
  - cbn [for_each map fst snd] in *. unfold bind.
    destruct (step_param_writes g q o) as (Hframe & Hgrad & _).
    assert (H1 : exists o1,
              step_param g q o = (o1, Ok tt) /\
              same_shape (data (params o1 q)) (data (params o q)) /\
              match grad (params o q) with
              | None => o1 = o
              | Some _ =>
                  exists st1, state o1 !! q = Some st1 /\
                    st_step st1 = S (step_count (state o !! q)) /\
                    state_ok (params o1 q) st1
              end).
    { destruct (Hpre q (or_introl eq_refl)) as [Hs Hst].
      destruct (grad (params o q)) as [gr|] eqn:Hg.
      - destruct (step_param_dense g q o gr Hg (Hs gr eq_refl) Hst)
          as (P' & st' & E & Hc & Hok & Hsh & _ & _).
        eexists. split; [exact E|].
        unfold set_param, set_state; simpl.
        rewrite lookup_insert_eq, fn_lookup_insert. split; [exact Hsh|].
        exists st'. auto.
      - exists o. rewrite (step_param_none g q o Hg).
        repeat split; reflexivity. }
    destruct H1 as (o1 & E1 & Hsh1 & Hq1).
    rewrite E1 in Hframe, Hgrad. cbn [fst] in Hframe, Hgrad. rewrite E1.
    destruct (IH o1) as (o' & E' & Post).
    { intros p Hp. rewrite Hgrad.
      destruct (decide (p = q)) as [->|Hne].
      - destruct (Hpre q (or_introl eq_refl)) as [Hs Hst]. split; [exact Hs|].
        destruct (grad (params o q)) as [gr|] eqn:Hg.
        + destruct Hq1 as (st1 & Hs1 & _ & Hok1). intros st Hst'.
          rewrite Hs1 in Hst'. injection Hst' as <-. exact Hok1.
        + subst o1. exact Hst.
      - pose proof (Hframe p Hne) as Hsl. unfold slot in Hsl.
        injection Hsl as Hp1 Hs1. rewrite Hp1, Hs1.
        apply Hpre. right. exact Hp. }
    exists o'. split; [exact E'|].
    intros p. specialize (Post p). cbv zeta in *.
    rewrite Hgrad in Post.
    destruct Post as (Pg & Psh & Pc & P0 & Ppos).
    destruct (decide (p = q)) as [->|Hne].
    + rewrite count_occ_cons_eq by reflexivity.
      destruct (grad (params o q)) as [gr|] eqn:Hg.
      * destruct Hq1 as (st1 & Hs1 & Hc1 & Hok1).
        rewrite Hs1 in Pc. cbn [step_count] in Pc.
        split; [exact Pg|]. split; [eapply same_shape_trans; eauto|].
        split; [lia|]. split; [lia|]. intros _.
        destruct (Nat.eq_dec (count_occ Nat.eq_dec (map snd xs) q) 0) as [Hz|Hz].
        -- specialize (P0 Hz). unfold slot in P0. injection P0 as Hp0 Hs0.
           exists st1. rewrite Hs0, Hp0. auto.
        -- apply Ppos. lia.
      * subst o1. split; [exact Pg|]. split; [exact Psh|].
        split; [exact Pc|]. split; [exact P0 | exact Ppos].
    + rewrite count_occ_cons_neq by congruence.
      pose proof (Hframe p Hne) as Hsl. unfold slot in Hsl.
      injection Hsl as Hp1 Hs1.
      rewrite Hs1 in Pc. rewrite Hp1 in Psh.
      split; [exact Pg|]. split; [exact Psh|]. split; [exact Pc|].
      split.
      * intros Hz. rewrite (P0 Hz). apply Hframe, Hne.
      * exact Ppos.
Qed.

(** C8, as amended.  The state a parameter gets when first seen has step 0,
    both moments zero-filled in the parameter's shape and float32 whatever
    the parameter's dtype, and a float32 copy of the parameter's value
    exactly for a bfloat16 parameter.  A step over parameters none of which
    has a sparse gradient, from states that are absent or sound, returns; it
    leaves the state of every parameter that has a gradient sound (moments
    in the parameter's shape and float32, copy exactly for bfloat16) and
    keeps the shape of the value.  The step count grows by 1 each time the
    loop visits the parameter, that is by the number of times the parameter
    is listed in the groups: by exactly 1 when it is listed once.  The state
    of every other parameter is left alone. *)
Theorem state_invariant_and_step_count (closure : option (M R R)) o :
  let o1 := after_closure closure o in
  let o' := fst (step dist closure o) in
  is_ok (closure_result closure o) = true ->
  (forall p gr, In p (listed o1) ->
     grad (params o1 p) = Some gr -> is_sparse gr = false) ->
  (perform_allreduce o1 = true -> distributed o1 = true ->
   forall p, In p (listed o1) -> is_Some (grad (params o1 p))) ->
  (forall p st, In p (listed o1) ->
     state o1 !! p = Some st -> state_ok (params o1 p) st) ->
  (forall P : Param R,
     st_step (init_state P) = 0 /\
     exp_avg (init_state P) = zeros_like (data P) float32 /\
     exp_avg_sq (init_state P) = zeros_like (data P) float32 /\
     (is_Some (data_fp32 (init_state P)) <-> dtype (data P) = bfloat16) /\
     (dtype (data P) = bfloat16 ->
      data_fp32 (init_state P) = Some (tensor_to float32 (data P)))) /\
  (forall (t : Tensor R) d,
     dtype (zeros_like t d) = d /\ same_shape (zeros_like t d) t /\
     Forall (fun x => x = rzero) (vals (zeros_like t d)) /\
     dtype (tensor_to d t) = d /\ same_shape (tensor_to d t) t /\
     vals (tensor_to d t) = map (cast d) (vals t)) /\
  snd (step dist closure o) = closure_result closure o /\
  (forall p, In p (listed o1) -> is_Some (grad (params o1 p)) ->
     exists st', state o' !! p = Some st' /\
       st_step st'
         = step_count (state o1 !! p) + count_occ Nat.eq_dec (listed o1) p /\
       (NoDup (listed o1) -> st_step st' = S (step_count (state o1 !! p))) /\
       state_ok (params o' p) st' /\
       same_shape (data (params o' p)) (data (params o1 p))) /\
  (forall p, ~ In p (listed o1) \/ grad (params o1 p) = None ->
     state o' !! p = state o1 !! p).
Proof.
  cbv zeta. intros Hc Hg Hsync Hst.
  split; [|split].
  { intros P. destruct (init_state_ok P) as (_ & _ & _ & _ & Hsh & _).
    repeat split; auto; try apply Hsh.
    intros Hbf. unfold init_state.
    rewrite bool_decide_eq_true_2 by exact Hbf. reflexivity. }
  { intros t d. unfold zeros_like, tensor_to, same_shape; simpl.
    rewrite !length_map.
    repeat split; auto. apply Forall_forall. intros x Hx.
    apply list_elem_of_In, in_map_iff in Hx as (? & <- & _). reflexivity. }
  rewrite step_unfold. cbv zeta.
  destruct (closure_result closure o) as [loss|e]; [|discriminate Hc].
  set (o1 := after_closure closure o) in *.
  set (s := if perform_allreduce o1 then sync_grads dist o1 else (o1, Ok tt)).
  assert (Hs : snd s = Ok tt /\
               (forall q, state (fst s) !! q = state o1 !! q /\
                          data (params (fst s) q) = data (params o1 q) /\
                          same_layout (grad (params o1 q)) (grad (params (fst s) q))) /\
               param_groups (fst s) = param_groups o1).
  { unfold s. destruct (perform_allreduce o1) eqn:Hp.
    - split; [|apply sync_grads_writes].
      apply sync_grads_returns. intros Hd. apply Hsync; auto.
    - simpl. repeat split; auto using same_layout_refl. }
  destruct Hs as (Hok & Hw & Hpg). rewrite Hok.
  assert (Hl : listed (fst s) = listed o1) by (unfold listed; rewrite Hpg; auto).
  rewrite step_loop_items.
  destruct (step_visits_count (items (param_groups (fst s))) (fst s))
    as (o' & E & Post).
  { rewrite items_snd. fold (listed (fst s)). rewrite Hl.
    intros p Hp. destruct (Hw p) as (Hs1 & Hd1 & Hl1). split.
    - intros gr' Hgr'. rewrite Hgr' in Hl1.
      destruct (grad (params o1 p)) as [gr|] eqn:Hgr; [|contradiction].
      simpl in Hl1. rewrite Hl1. apply (Hg p gr Hp Hgr).
    - intros st Hst1. rewrite Hs1 in Hst1.
      apply (state_ok_data (params o1 p)); auto. }
  rewrite items_snd in Post. fold (listed (fst s)) in Post. rewrite Hl in Post.
  rewrite E. simpl. split; [reflexivity|]. split.
  - intros p Hp [gr Hgr].
    destruct (Post p) as (_ & Psh & Pc & _ & Ppos).
    destruct (Hw p) as (Hs1 & Hd1 & Hl1). rewrite Hgr in Hl1.
    destruct (grad (params (fst s) p)) as [gr'|]; [|contradiction].
    assert (Hn : 0 < count_occ Nat.eq_dec (listed o1) p)
      by (apply count_occ_In, Hp).
    destruct (Ppos Hn) as (st' & Hst' & Hok').
    rewrite Hst', Hs1 in Pc. cbn [step_count] in Pc. rewrite Hd1 in Psh.
    exists st'. split; [exact Hst'|]. split; [exact Pc|].
    split; [|split; [exact Hok' | exact Psh]].
    intros Hnd. apply NoDup_ListNoDup in Hnd. rewrite Pc.
    rewrite (proj1 (NoDup_count_occ' Nat.eq_dec (listed o1)) Hnd p Hp). lia.
  - intros p Hp. destruct (Hw p) as (Hs1 & _ & Hl1). rewrite <- Hs1.
    destruct (Post p) as (_ & _ & _ & P0 & _).
    assert (Hz : match grad (params (fst s) p) with
                 | Some _ => count_occ Nat.eq_dec (listed o1) p
                 | None => 0
                 end = 0).
    { destruct Hp as [Hp|Hp].
      - destruct (grad (params (fst s) p)); [|reflexivity].
        apply count_occ_not_In, Hp.
      - rewrite Hp in Hl1.
        destruct (grad (params (fst s) p)); [contradiction | reflexivity]. }
    specialize (P0 Hz). unfold slot in P0. injection P0 as _ P0. exact P0.
Qed.
End StateFacts.

(** ** The concrete runs *)

Lemma built_by_init (ps : list nat) :
  Lamb__init__ Scenario.single [mkGroupArg ps None None None None] Scenario.mem
               Scenario.lr Scenario.betas Scenario.eps Scenario.weight_decay
               false true false
  = Ok (Scenario.built ps).
Proof. reflexivity. Qed.

(** One step of the scenario on parameter 0: the step returns, the parameter
    decreases in every component, the step count is 1 and the trust ratio
    lies strictly between 0 and 2. *)
Lemma scenario_one_step :
  Scenario.one_step_check (step Scenario.single None (Scenario.built [0])) = true.
Proof. vm_compute. reflexivity. Qed.

Lemma trust_ratio_witness :
  tr_trust_ratio (trust_block true Scenario.weight_decay
                    (Scenario.vec float32 false (F32.of_Z 1))
                    (Scenario.vec float32 false (F32.ratio 1 10)))
  = rone.
Proof.
  apply (proj1 (proj2 (proj2
    (@trust_ratio_one_and_no_zero_divisor spec_float F32.scalar
       true Scenario.weight_decay
       (Scenario.vec float32 false (F32.of_Z 1))
       (Scenario.vec float32 false (F32.ratio 1 10)))))).
  reflexivity.
Defined.

Lemma step_skips_witness :
  (grad (params (Scenario.built [0; 2]) 2) = None /\
   slot (fst (step Scenario.single None (Scenario.built [0; 2]))) 2
   = slot (Scenario.built [0; 2]) 2) /\
  (is_sparse (Scenario.vec float32 true (F32.ratio 1 10)) = true /\
   snd (step Scenario.single None (Scenario.built [0; 3]))
   = Err (RuntimeError sparse_msg)).
Proof.
  split; (split; [reflexivity|]).
  - apply (step_skips_absent_and_rejects_sparse Scenario.single None
             (Scenario.built [0; 2]) 2).
    reflexivity.
  - apply (step_skips_absent_and_rejects_sparse Scenario.single None
             (Scenario.built [0; 3]) 3)
      with (gr := Scenario.vec float32 true (F32.ratio 1 10)).
    + right. left. reflexivity.
    + reflexivity.
    + reflexivity.
    + reflexivity.
    + reflexivity.
    + intros p st H. discriminate H.
Defined.

Lemma step_keeps_gradients_witness :
  perform_allreduce (Scenario.built [0; 1; 2]) = false /\
  forall q,
    grad (params (fst (step Scenario.single None (Scenario.built [0; 1; 2]))) q)
    = grad (params (Scenario.built [0; 1; 2]) q).
Proof.
  split; [reflexivity|].
  apply (step_keeps_gradients Scenario.single None (Scenario.built [0; 1; 2])).
  reflexivity.
Defined.

Lemma state_invariant_witness :
  data_fp32 (init_state (Scenario.mem 1))
    = Some (tensor_to float32 (data (Scenario.mem 1))) /\
  (forall p, In p [0; 1] ->
     exists st',
       state (fst (step Scenario.single None (Scenario.built [0; 1; 2]))) !! p
         = Some st' /\
       st_step st' = 1 /\
       state_ok
         (params (fst (step Scenario.single None (Scenario.built [0; 1; 2]))) p)
         st') /\
  state (fst (step Scenario.single None (Scenario.built [0; 1; 2]))) !! 2 = None.
Proof.
  assert (Hnd : NoDup (listed (Scenario.built [0; 1; 2]))).
  { compute_done. }
  assert (Hc : is_ok (closure_result None (Scenario.built [0; 1; 2])) = true)
    by reflexivity.
  assert (Hg : forall p gr, In p (listed (Scenario.built [0; 1; 2])) ->
             grad (params (Scenario.built [0; 1; 2]) p) = Some gr ->
             is_sparse gr = false).
  { intros p gr [<-|[<-|[<-|[]]]] [= <-]; reflexivity. }
  assert (Hsync : perform_allreduce (Scenario.built [0; 1; 2]) = true ->
             distributed (Scenario.built [0; 1; 2]) = true ->
             forall p, In p (listed (Scenario.built [0; 1; 2])) ->
               is_Some (grad (params (Scenario.built [0; 1; 2]) p))).
  { intros H. discriminate H. }
  assert (Hs : forall p st, In p (listed (Scenario.built [0; 1; 2])) ->
             state (Scenario.built [0; 1; 2]) !! p = Some st ->
             state_ok (params (Scenario.built [0; 1; 2]) p) st).
  { intros p st _ H. discriminate H. }
  destruct (state_invariant_and_step_count Scenario.single None
              (Scenario.built [0; 1; 2]) Hc Hg Hsync Hs)
    as (Hinit & _ & _ & H & Hrest).
  split; [|split].
  - apply (Hinit (Scenario.mem 1)). reflexivity.
  - intros p Hp.
    destruct (H p) as (st' & H1 & _ & H2 & H3 & _).
    + destruct Hp as [<-|[<-|[]]]; simpl; auto.
    + destruct Hp as [<-|[<-|[]]]; eexists; reflexivity.
    + exists st'. split; [exact H1|]. split; [exact (H2 Hnd) | exact H3].
  - rewrite (Hrest 2); [reflexivity | right; reflexivity].
Defined.

Lemma sync_grads_averages_witness :
  exists o',
    sync_grads (world_dist ExactRun.world 1) (ExactRun.rank_with (Q2Qc 3))
    = (o', Ok tt) /\
    exists g', grad (params o' 0) = Some g' /\
               vals g' = flat_all_reduce_mean (world_vals ExactRun.world 0).
Proof.
  assert (law : forall a b c : Qc,
            rdiv (radd a b) c = radd (rdiv a c) (rdiv b c)).
  { intros a b c. simpl. unfold Qcdiv. apply Qcmult_plus_distr_l. }
  assert (Hnd : NoDup [0]) by apply NoDup_singleton.
  assert (Hw : forall o, In o ExactRun.world ->
            distributed o = true /\ listed o = [0] /\
            forall p, In p [0] -> is_Some (grad (params o p))).
  { intros o [<-|[<-|[]]]; (split; [reflexivity|]); (split; [reflexivity|]);
      intros p _; eexists; reflexivity. }
  destruct (sync_grads_averages ExactRun.world [0] Hnd Hw) as [H _].
  destruct (H 1 (ExactRun.rank_with (Q2Qc 3)) eq_refl) as (o' & E & P).
  exists o'. split; [exact E|].
  destruct (P 0) as (g' & Hg' & _ & Hmean); [left; reflexivity|].
  exists g'. split; [exact Hg' | exact (Hmean law)].
Defined.

(** ** Where the claims as written fail *)

(** C4 as written fails in binary32.  Three ranks hold the gradient
    [0.1, 0.1] for their parameter.  [sync_grads] returns on rank 0 and the
    gradient it leaves there is not what a flat all-reduce followed by the
    division by 3 gives. *)
Lemma sync_grads_differs_from_flat_mean :
  snd (sync_grads (world_dist Distributed.world3 0)
                  (Distributed.rank_with (F32.ratio 1 10))) = Ok tt /\
  vals <$> grad (params (fst (sync_grads (world_dist Distributed.world3 0)
                                         (Distributed.rank_with (F32.ratio 1 10))))
                        0)
  <> Some (flat_all_reduce_mean (world_vals Distributed.world3 0)).
Proof. vm_compute. split; [reflexivity | discriminate]. Qed.

(** C8 as written fails for a parameter that is listed twice.  One step
    over the group [[0; 0]], entered with no state for parameter 0, returns
    and leaves its step count at 2. *)
Lemma step_counts_every_visit :
  step_count (state (Scenario.built [0; 0]) !! 0) = 0 /\
  is_ok (snd (step Scenario.single None (Scenario.built [0; 0]))) = true /\
  step_count (state (fst (step Scenario.single None (Scenario.built [0; 0]))) !! 0)
  = 2.
Proof. vm_compute. repeat split. Qed.

(** ** Process topology *)

Lemma div_band (x t n : nat) :
  t <> 0 -> (x / t = n <-> n * t <= x < n * t + t).
Proof.
  intros Ht. split.
  - intros <-. pose proof (Nat.div_mod_eq x t) as E.
    pose proof (Nat.mod_upper_bound x t Ht). nia.
  - intros [H1 H2]. symmetry. apply (Nat.div_unique x t n (x - n * t)); lia.
Qed.

Lemma zero_ranks_of_filter (t : nat) (range : list nat) :
  t <> 0 ->
  zero_ranks_of t range = Return (List.filter (fun i => i mod t =? 0) range).
Proof.
  intros Ht. induction range as [|i range IH]; simpl; [reflexivity|].
  unfold pymod. destruct (Nat.eqb_spec t 0) as [|_]; [contradiction|].
  simpl. rewrite IH. simpl. reflexivity.
Qed.

(** What [topology] computes when it returns, and when it does. *)
Lemma topology_returns (world_size rank : nat) (torchelastic : bool)
    (local_world_size slurm_nnodes : nat) (t : Topology) :
  topology world_size rank torchelastic local_world_size slurm_nnodes = Return t ->
  taskspernode t <> 0 /\
  taskspernode t
    = (if torchelastic then local_world_size else world_size / slurm_nnodes) /\
  (torchelastic = false -> slurm_nnodes <> 0) /\
  node t = rank / taskspernode t /\
  zeros_ranks t
    = List.filter (fun i => i mod taskspernode t =? 0) (seq 0 world_size) /\
  local_ranks t = seq (node t * taskspernode t) (taskspernode t).
Proof.
  unfold topology, tasks_per_node, floordiv.
  assert (Hseq : forall a n, map (fun i => a + i) (seq 0 n) = seq a n).
  { intros a n. replace (seq a n) with (seq (a + 0) n) by (f_equal; lia).
    generalize 0 as k.
    induction n as [|n IH]; intros k; simpl; [reflexivity|].
    f_equal. rewrite IH. f_equal. lia. }
  destruct torchelastic; simpl.
  - destruct (Nat.eqb_spec local_world_size 0) as [|Hn]; simpl; [discriminate|].
    rewrite zero_ranks_of_filter by exact Hn. simpl.
    intros [= <-]. simpl. rewrite Hseq. repeat split; auto; discriminate.
  - destruct (Nat.eqb_spec slurm_nnodes 0) as [|Hnn]; simpl; [discriminate|].
    destruct (Nat.eqb_spec (world_size / slurm_nnodes) 0) as [|Hn]; simpl;
      [discriminate|].
    rewrite zero_ranks_of_filter by exact Hn. simpl.
    intros [= <-]. simpl. rewrite Hseq. repeat split; auto.
Qed.

Lemma filter_none {A} (p : A -> bool) (l : list A) :
  (forall x, In x l -> p x = false) -> List.filter p l = [].
Proof.
  induction l as [|x l IH]; intros H; simpl; [reflexivity|].
  rewrite (H x) by (left; reflexivity). apply IH. intros y Hy. apply H. right. exact Hy.
Qed.

(** Among [t] consecutive ranks that start at a multiple of [t], the first is
    the only multiple of [t]. *)
Lemma one_multiple_in_band (n t : nat) :
  t <> 0 -> List.filter (fun i => i mod t =? 0) (seq (n * t) t) = [n * t].
Proof.
  intros Ht. destruct t as [|t]; [contradiction|]. cbn [seq List.filter].
  rewrite Nat.Div0.mod_mul. cbn [Nat.eqb]. f_equal.
  apply filter_none. intros x Hx. apply in_seq in Hx.
  apply Nat.eqb_neq. intros E.
  apply Nat.Div0.mod_divides in E as [c Hc].
  assert (c = n \/ c <= n - 1 \/ n + 1 <= c) as [->|[H|H]] by lia; nia.
Qed.

(** X1.  A rank is in its own local group; the group has [taskspernode]
    ranks, and they are the ranks with the same node index. *)
Theorem topology_local_group (world_size rank : nat) (torchelastic : bool)
    (local_world_size slurm_nnodes : nat) (t : Topology) :
  topology world_size rank torchelastic local_world_size slurm_nnodes = Return t ->
  In rank (local_ranks t) /\
  length (local_ranks t) = taskspernode t /\
  forall x, In x (local_ranks t) <-> x / taskspernode t = node t.
Proof.
  intros H. apply topology_returns in H as (Ht & _ & _ & Hn & _ & Hl).
  rewrite Hl. split; [|split].
  - apply in_seq. apply (div_band rank (taskspernode t) (node t)) in Ht as Hb.
    symmetry in Hn. apply Hb in Hn. lia.
  - apply length_seq.
  - intros x. rewrite in_seq. rewrite (div_band x _ (node t) Ht). lia.
Qed.

(** X2.  The local groups of two ranks of one run are the same group or have
    no rank in common, and a rank is in another's group exactly when the two
    groups are the same. *)
Theorem topology_groups_partition (world_size r r' : nat) (torchelastic : bool)
    (local_world_size slurm_nnodes : nat) (t t' : Topology) :
  topology world_size r torchelastic local_world_size slurm_nnodes = Return t ->
  topology world_size r' torchelastic local_world_size slurm_nnodes = Return t' ->
  (In r' (local_ranks t) <-> local_ranks t' = local_ranks t) /\
  (local_ranks t' = local_ranks t \/
   forall x, In x (local_ranks t) -> ~ In x (local_ranks t')).
Proof.
  intros H H'.
  apply topology_returns in H as (Ht & Htp & _ & Hn & _ & Hl).
  apply topology_returns in H' as (Ht' & Htp' & _ & Hn' & _ & Hl').
  assert (E : taskspernode t' = taskspernode t) by congruence.
  rewrite E in *. rewrite Hl, Hl'.
  assert (Hsame : node t' = node t -> seq (node t' * taskspernode t) (taskspernode t)
                                      = seq (node t * taskspernode t) (taskspernode t))
    by (intros ->; reflexivity).
  assert (Hinj : seq (node t' * taskspernode t) (taskspernode t)
                 = seq (node t * taskspernode t) (taskspernode t) -> node t' = node t).
  { destruct (taskspernode t) as [|k]; [contradiction|]. simpl. intros [= Hk _]. nia. }
  split.
  - rewrite in_seq. split.
    + intros Hb. apply Hsame. rewrite Hn'.
      apply (div_band r' (taskspernode t) (node t) Ht). lia.
    + intros Heq. apply Hinj in Heq.
      assert (Hb : r' / taskspernode t = node t) by congruence.
      apply (div_band r' (taskspernode t) (node t) Ht) in Hb. lia.
  - destruct (Nat.eq_dec (node t') (node t)) as [Heq|Hne]; [left; auto|].
    right. intros x Hx Hx'. apply in_seq in Hx, Hx'.
    apply Hne.
    assert (H1 : x / taskspernode t = node t)
      by (apply (div_band x _ _ Ht); lia).
    assert (H2 : x / taskspernode t = node t')
      by (apply (div_band x _ _ Ht); lia).
    congruence.
Qed.

(** X3.  Every local group has exactly one leader, its first rank; for a rank
    of the world that leader is in [zeros_ranks], and the test the hook makes,
    [rank % taskspernode == 0], holds exactly for the ranks of
    [zeros_ranks]. *)
Theorem topology_one_leader_per_group (world_size rank : nat) (torchelastic : bool)
    (local_world_size slurm_nnodes : nat) (t : Topology) :
  topology world_size rank torchelastic local_world_size slurm_nnodes = Return t ->
  List.filter (fun i => i mod taskspernode t =? 0) (local_ranks t)
    = [node t * taskspernode t] /\
  (rank < world_size ->
   In (node t * taskspernode t) (zeros_ranks t) /\
   (rank mod taskspernode t = 0 <-> In rank (zeros_ranks t))).
Proof.
  intros H. apply topology_returns in H as (Ht & _ & _ & Hn & Hz & Hl).
  rewrite Hl, Hz. split; [apply one_multiple_in_band, Ht|].
  intros Hr. pose proof (Nat.div_mod_eq rank (taskspernode t)) as E.
  rewrite <- Hn in E. split.
  - apply filter_In. split.
    + apply in_seq. nia.
    + rewrite Nat.Div0.mod_mul. reflexivity.
  - rewrite filter_In, in_seq, Nat.eqb_eq. split; [intros; split; [lia | assumption] | tauto].
Qed.

Lemma multiples_below (k t : nat) :
  t <> 0 -> length (List.filter (fun i => i mod t =? 0) (seq 0 (k * t))) = k.
Proof.
  intros Ht. induction k as [|k IH]; [reflexivity|].
  replace (S k * t) with (k * t + t) by lia.
  rewrite seq_app, List.filter_app, length_app, IH. simpl.
  rewrite one_multiple_in_band by exact Ht. simpl. lia.
Qed.

(** X4.  When [taskspernode] divides the world size, the groups cover the
    world: there are [world_size / taskspernode] leaders and every rank of a
    local group is a rank of the world.  When it does not, the local group of
    the last rank names a rank that does not exist. *)
Theorem topology_groups_inside_world (world_size rank : nat) (torchelastic : bool)
    (local_world_size slurm_nnodes : nat) (t : Topology) :
  topology world_size rank torchelastic local_world_size slurm_nnodes = Return t ->
  (world_size mod taskspernode t = 0 ->
   length (zeros_ranks t) * taskspernode t = world_size /\
   (rank < world_size -> forall x, In x (local_ranks t) -> x < world_size)) /\
  (world_size mod taskspernode t <> 0 -> rank = world_size - 1 ->
   exists x, In x (local_ranks t) /\ world_size <= x).
Proof.
  intros H. apply topology_returns in H as (Ht & _ & _ & Hn & Hz & Hl).
  rewrite Hl, Hz. clear Hl Hz.
  pose proof (Nat.div_mod_eq world_size (taskspernode t)) as Ew.
  pose proof (Nat.div_mod_eq rank (taskspernode t)) as Er.
  pose proof (Nat.mod_upper_bound rank (taskspernode t) Ht) as Hb.
  rewrite <- Hn in Er.
  split.
  - intros Hd. rewrite Hd, Nat.add_0_r in Ew. split.
    + rewrite Ew at 1. rewrite (Nat.mul_comm (taskspernode t)).
      rewrite multiples_below by exact Ht. lia.
    + intros Hr x Hx. apply in_seq in Hx.
      assert (node t < world_size / taskspernode t) by nia. nia.
  - intros Hd ->. exists (node t * taskspernode t + (taskspernode t - 1)). split.
    + apply in_seq. lia.
    + destruct (Nat.eq_dec (S ((world_size - 1) mod taskspernode t)) (taskspernode t)) as [E|E].
      * exfalso. apply Hd.
        replace world_size with (S (node t) * taskspernode t) by lia.
        apply Nat.Div0.mod_mul.
      * lia.
Qed.

(** X5.  Computing the topology succeeds exactly when [taskspernode] is not
    zero: under torchelastic when LOCAL_WORLD_SIZE is not 0, and otherwise
    when SLURM_NNODES is neither 0 nor greater than the world size.  In every
    other case it stops with ZeroDivisionError. *)
Theorem topology_raises_iff (world_size rank : nat) (torchelastic : bool)
    (local_world_size slurm_nnodes : nat) :
  let fine := if torchelastic then negb (local_world_size =? 0)
              else negb (slurm_nnodes =? 0) && (slurm_nnodes <=? world_size) in
  returned (topology world_size rank torchelastic local_world_size slurm_nnodes) = fine /\
  (fine = false ->
   topology world_size rank torchelastic local_world_size slurm_nnodes
   = Raise ZeroDivisionError).
Proof.
  unfold topology, tasks_per_node, floordiv.
  destruct torchelastic; simpl.
  - destruct (local_world_size =? 0) eqn:E; simpl; [split; reflexivity|].
    apply Nat.eqb_neq in E. rewrite zero_ranks_of_filter by exact E. simpl.
    split; [reflexivity | discriminate].
  - destruct (slurm_nnodes =? 0) eqn:E; simpl; [split; reflexivity|].
    apply Nat.eqb_neq in E.
    destruct (slurm_nnodes <=? world_size) eqn:L.
    + apply Nat.leb_le in L.
      assert (Hq : world_size / slurm_nnodes <> 0).
      { intros Hq. apply Nat.div_small_iff in Hq; lia. }
      apply Nat.eqb_neq in Hq as Hq'. rewrite Hq'. simpl.
      rewrite zero_ranks_of_filter by exact Hq. simpl.
      split; [reflexivity | discriminate].
    + apply Nat.leb_gt in L. rewrite (Nat.div_small world_size slurm_nnodes L). simpl.
      split; reflexivity.
Qed.

(** The micro-batch size [bs] satisfies
    [bs * world_size * accumulation <= global_batch_size
     < (bs + 1) * world_size * accumulation]. *)
Lemma micro_batch_size_bounds (global_batch_size world_size gradient_accumulation bs : nat) :
  micro_batch_size global_batch_size world_size gradient_accumulation = Return bs ->
  world_size <> 0 /\ gradient_accumulation <> 0 /\
  bs * world_size * gradient_accumulation <= global_batch_size
    < (bs + 1) * world_size * gradient_accumulation.
Proof.
  unfold micro_batch_size, floordiv.
  destruct (world_size =? 0) eqn:Ew; simpl; [discriminate|].
  destruct (gradient_accumulation =? 0) eqn:Eg; simpl; [discriminate|].
  apply Nat.eqb_neq in Ew, Eg. intros [= <-].
  rewrite Nat.Div0.div_div.
  pose proof (Nat.div_mod_eq global_batch_size (world_size * gradient_accumulation)) as E.
  assert (Hm : global_batch_size mod (world_size * gradient_accumulation)
               < world_size * gradient_accumulation)
    by (apply Nat.mod_upper_bound; nia).
  repeat split; try assumption; nia.
Qed.

(** X6.  [dummy_loaders] yields one batch, whatever [n_samples] is.  Its
    batch size [bs] is such that the ranks and the accumulated micro-batches
    of one optimiser step together see at most the global batch, and fewer
    samples whenever the world size times the accumulation count does not
    divide it: [bs * world_size * accumulation <= global_batch_size
    < (bs + 1) * world_size * accumulation]. *)
Theorem dummy_loaders_batch_size
    (global_batch_size world_size gradient_accumulation n_samples : nat)
    (batches : list (list nat * list nat * string)) :
  dummy_loaders global_batch_size world_size gradient_accumulation n_samples
    = Return batches ->
  exists bs,
    batches = [([bs; 16; 768; 1152], [bs; 1; 768; 1152], "file.txt"%string)] /\
    world_size <> 0 /\ gradient_accumulation <> 0 /\
    bs * world_size * gradient_accumulation <= global_batch_size
      < (bs + 1) * world_size * gradient_accumulation.
Proof.
  unfold dummy_loaders.
  destruct (micro_batch_size global_batch_size world_size gradient_accumulation)
    as [bs|e] eqn:E; simpl; [|discriminate].
  intros [= <-]. exists bs. split; [reflexivity|].
  apply micro_batch_size_bounds, E.
Qed.

(** ** Whole epochs of gradient accumulation *)

Lemma succ_div_mod (n f : nat) :
  f <> 0 ->
  S n / f = n / f + (if S n mod f =? 0 then 1 else 0) /\
  S n mod f = (if S n mod f =? 0 then 0 else S (n mod f)).
Proof.
  intros Hf.
  pose proof (Nat.div_mod_eq n f) as E.
  pose proof (Nat.mod_upper_bound n f Hf) as B.
  destruct (Nat.eq_dec (S (n mod f)) f) as [L|L].
  - assert (D : S n / f = S (n / f) /\ S n mod f = 0).
    { split; symmetry.
      - apply (Nat.div_unique (S n) f (S (n / f)) 0); lia.
      - apply (Nat.mod_unique (S n) f (S (n / f)) 0); lia. }
    destruct D as [-> ->]. simpl. lia.
  - assert (D : S n / f = n / f /\ S n mod f = S (n mod f)).
    { split; symmetry.
      - apply (Nat.div_unique (S n) f (n / f) (S (n mod f))); lia.
      - apply (Nat.mod_unique (S n) f (n / f) (S (n mod f))); lia. }
    destruct D as [-> ->]. simpl. lia.
Qed.

Lemma count_multiples (f n : nat) :
  f <> 0 -> length (List.filter (fun i => (i + 1) mod f =? 0) (seq 0 n)) = n / f.
Proof.
  intros Hf. induction n as [|n IH]; [rewrite Nat.Div0.div_0_l; reflexivity|].
  rewrite seq_S, List.filter_app, length_app, IH. simpl.
  destruct (succ_div_mod n f Hf) as [-> _].
  replace (n + 1) with (S n) by lia.
  destruct (S n mod f =? 0); simpl; lia.
Qed.

Section EpochFacts.
Context {R : Type} {AR : Arith R}.

(** The stepping micro-batches of an epoch whose micro-batch [i] steps when
    [p i] holds. *)
Lemma step_indices_imap (f : nat -> R -> list (event R)) (p : nat -> bool)
    (l : list R) :
  (forall i x, existsb is_opt_step (f i x) = p i) ->
  step_indices (imap f l) = List.filter p (seq 0 (length l)).
Proof.
  intros Hp. unfold step_indices.
  assert (G : forall k (g : nat -> R -> list (event R)),
            (forall i x, existsb is_opt_step (g i x) = p (k + i)) ->
            map fst (filter (fun ie : nat * list (event R) =>
                               existsb is_opt_step (snd ie) = true)
                            (imap (fun i evs => (k + i, evs)) (imap g l)))
            = List.filter p (seq k (length l))).
  { induction l as [|x l IH]; intros k g Hg; [reflexivity|].
    cbn [imap length seq List.filter].
    rewrite filter_cons. cbn [snd].
    rewrite Hg, Nat.add_0_r.
    assert (Etl : map fst (filter (fun ie : nat * list (event R) =>
                               existsb is_opt_step (snd ie) = true)
                            (imap ((fun i evs => (k + i, evs)) ∘ S) (imap (g ∘ S) l)))
                  = List.filter p (seq (S k) (length l))).
    { rewrite <- (IH (S k) (g ∘ S)).
      - do 2 f_equal. apply imap_ext. intros i y _. simpl. f_equal. lia.
      - intros i y. simpl. rewrite Hg. f_equal. lia. }
    destruct (p k); [rewrite decide_True by reflexivity
                    | rewrite decide_False by discriminate];
      cbn [map fst]; rewrite Etl; reflexivity. }
  apply (G 0 f). intros i x. apply Hp.
Qed.

Lemma unapplied_snoc (epoch : list (list (event R))) (evs : list (event R)) :
  unapplied (epoch ++ [evs])
  = if existsb is_opt_step evs then 0 else S (unapplied epoch).
Proof. unfold unapplied. rewrite fold_left_app. reflexivity. Qed.

Lemma existsb_train_step is_ddp freq (raw : R) batch_idx :
  existsb is_opt_step (fst (train_step is_ddp freq raw batch_idx))
  = ((batch_idx + 1) mod freq =? 0).
Proof.
  unfold train_step. destruct ((batch_idx + 1) mod freq =? 0); simpl;
    [|destruct is_ddp]; reflexivity.
Qed.

Lemma existsb_deepcam_iter ga len (raw : R) idx :
  existsb is_opt_step (deepcam_iter ga len raw idx)
  = ((idx + 1) mod ga =? 0) || (idx + 1 =? len).
Proof.
  unfold deepcam_iter.
  destruct (((idx + 1) mod ga =? 0) || (idx + 1 =? len)); reflexivity.
Qed.

(** X7.  An epoch of the ResNet50 loop over [n] micro-batches steps the
    optimiser [n // freq] times, at the micro-batches [i] with
    [(i + 1) % freq == 0], and ends with the gradients of the last
    [n % freq] micro-batches accumulated and not applied. *)
Theorem resnet_epoch_steps_and_leftover (is_ddp : bool) (freq : nat)
    (train_data : list R) :
  freq <> 0 ->
  let epoch := resnet_epoch is_ddp freq train_data in
  step_indices epoch
    = List.filter (fun i => (i + 1) mod freq =? 0) (seq 0 (length train_data)) /\
  length (step_indices epoch) = length train_data / freq /\
  unapplied epoch = length train_data mod freq.
Proof.
  intros Hf epoch.
  assert (Hs : step_indices epoch
    = List.filter (fun i => (i + 1) mod freq =? 0) (seq 0 (length train_data))).
  { apply step_indices_imap. intros i x. apply existsb_train_step. }
  split; [exact Hs|]. split; [rewrite Hs; apply count_multiples, Hf|].
  subst epoch. clear Hs. unfold resnet_epoch.
  induction train_data as [|x l IH] using rev_ind;
    [rewrite Nat.Div0.mod_0_l; reflexivity|].
  rewrite imap_app. cbn [imap]. rewrite unapplied_snoc, existsb_train_step, IH.
  rewrite length_app. cbn [length].
  replace (length l + 0 + 1) with (S (length l)) by lia.
  replace (length l + 1) with (S (length l)) by lia.
  destruct (succ_div_mod (length l) freq Hf) as [_ E]. symmetry. exact E.
Qed.

(** X8.  An epoch of the DeepCAM loop leaves no accumulated gradient
    unapplied, whatever the number [n] of micro-batches: it steps at every
    [ga]-th micro-batch and at the last one, [n // ga] times when [ga]
    divides [n] and once more when it does not. *)
Theorem deepcam_epoch_applies_all (ga : nat) (train_data : list R) :
  ga <> 0 ->
  let n := length train_data in
  let epoch := deepcam_epoch ga train_data in
  unapplied epoch = 0 /\
  step_indices epoch
    = List.filter (fun i => ((i + 1) mod ga =? 0) || (i + 1 =? n)) (seq 0 n) /\
  length (step_indices epoch) = n / ga + (if n mod ga =? 0 then 0 else 1).
Proof.
  intros Hg n epoch.
  assert (Hs : step_indices epoch
    = List.filter (fun i => ((i + 1) mod ga =? 0) || (i + 1 =? n)) (seq 0 n)).
  { apply step_indices_imap. intros i x. apply existsb_deepcam_iter. }
  split; [|split; [exact Hs|]].
  - clear Hs. subst epoch n. unfold deepcam_epoch.
    induction train_data as [|x l _] using rev_ind; [reflexivity|].
    rewrite imap_app. cbn [imap].
    rewrite unapplied_snoc, existsb_deepcam_iter, length_app. cbn [length].
    rewrite Nat.add_0_r, Nat.eqb_refl, orb_true_r. reflexivity.
  - rewrite Hs. clear Hs epoch. destruct n as [|m];
      [rewrite Nat.Div0.div_0_l, Nat.Div0.mod_0_l; reflexivity|].
    rewrite seq_S, List.filter_app, length_app. cbn [List.filter].
    replace (0 + m + 1) with (S m) by lia. rewrite Nat.eqb_refl, orb_true_r.
    cbn [length].
    rewrite (List.filter_ext_in (fun i => ((i + 1) mod ga =? 0) || (i + 1 =? S m))
               (fun i => (i + 1) mod ga =? 0)).
    + rewrite count_multiples by exact Hg.
      destruct (succ_div_mod m ga Hg) as [-> _].
      destruct (S m mod ga =? 0); lia.
    + intros i Hi. apply in_seq in Hi.
      destruct (Nat.eqb_spec (i + 1) (S m)); [lia|]. apply orb_false_r.
Qed.
End EpochFacts.

(** ** The micro-batches behind each optimiser step *)

Section WindowFacts.
Context {R : Type} {AR : Arith R}.

Lemma applied_app (a b : list (event R)) (pending : nat) :
  applied (a ++ b) pending
  = (fst (applied a pending) ++ fst (applied b (snd (applied a pending))),
     snd (applied b (snd (applied a pending)))).
Proof.
  revert pending; induction a as [|e a IH]; intros pending; simpl.
  - destruct (applied b pending); reflexivity.
  - destruct e; simpl; try apply IH.
    rewrite IH. destruct (applied a pending). reflexivity.
Qed.

Lemma applied_train_step is_ddp freq (raw : R) i pending :
  applied (fst (train_step is_ddp freq raw i)) pending
  = if (i + 1) mod freq =? 0 then ([S pending], 0) else ([], S pending).
Proof.
  unfold train_step. destruct ((i + 1) mod freq =? 0); simpl;
    [|destruct is_ddp]; reflexivity.
Qed.

Lemma applied_deepcam_iter ga len (raw : R) i pending :
  applied (deepcam_iter ga len raw i) pending
  = if ((i + 1) mod ga =? 0) || (i + 1 =? len)
    then ([S pending], 0) else ([], S pending).
Proof.
  unfold deepcam_iter.
  destruct (((i + 1) mod ga =? 0) || (i + 1 =? len)); reflexivity.
Qed.

Lemma repeat_snoc {A} (x : A) (n : nat) : repeat x n ++ [x] = repeat x (S n).
Proof. induction n as [|n IH]; simpl; [reflexivity | rewrite IH; reflexivity]. Qed.

(** X9.  An epoch of the ResNet50 loop over [n] micro-batches, entered with
    the gradients of [pending] micro-batches still accumulated: when
    [n < freq] it steps never and leaves [pending + n]; otherwise its first
    step applies [pending + freq] micro-batches, every later one [freq], and
    it leaves [n % freq].  The loss of every micro-batch was divided by
    [freq]. *)
Theorem resnet_epoch_windows (is_ddp : bool) (freq : nat) (train_data : list R)
    (pending : nat) :
  freq <> 0 ->
  let n := length train_data in
  applied (concat (resnet_epoch is_ddp freq train_data)) pending
  = if n / freq =? 0 then ([], pending + n)
    else ((pending + freq) :: repeat freq (n / freq - 1), n mod freq).
Proof.
  intros Hf. cbv zeta. unfold resnet_epoch.
  induction train_data as [|x l IH] using rev_ind.
  - simpl. rewrite Nat.Div0.div_0_l. simpl. f_equal. lia.
  - rewrite imap_app, concat_app. cbn [imap concat]. rewrite app_nil_r.
    rewrite applied_app, IH, applied_train_step, length_app. cbn [length].
    replace (length l + 0 + 1) with (S (length l)) by lia.
    replace (length l + 1) with (S (length l)) by lia.
    set (n := length l).
    destruct (succ_div_mod n freq Hf) as [Hq Hm].
    pose proof (Nat.div_mod_eq n freq) as En.
    pose proof (Nat.mod_upper_bound n freq Hf) as Bn.
    pose proof (Nat.div_mod_eq (S n) freq) as En'.
    destruct (Nat.eqb_spec (S n mod freq) 0) as [Hz|Hz].
    + rewrite Hq, Hz.
      destruct (Nat.eqb_spec (n / freq) 0) as [Hq0|Hq0]; cbn [fst snd].
      * rewrite Hq0. cbn [Nat.add Nat.eqb Nat.sub repeat app].
        f_equal. f_equal. rewrite Hq0 in En. nia.
      * destruct (Nat.eqb_spec (n / freq + 1) 0) as [|_]; [lia|].
        replace (n / freq + 1 - 1) with (S (n / freq - 1)) by lia.
        rewrite <- repeat_snoc. cbn [app]. f_equal. f_equal. f_equal. f_equal.
        rewrite Hz in Hm. nia.
    + rewrite Hq, Nat.add_0_r.
      destruct (Nat.eqb_spec (n / freq) 0) as [Hq0|Hq0]; cbn [fst snd].
      * f_equal. lia.
      * rewrite app_nil_r. f_equal. lia.
Qed.

Lemma deepcam_prefix_windows (ga len : nat) (l : list R) :
  ga <> 0 -> length l < len ->
  applied (concat (imap (fun idx raw => deepcam_iter ga len raw idx) l)) 0
  = (repeat ga (length l / ga), length l mod ga).
Proof.
  intros Hg. induction l as [|x l IH] using rev_ind; intros Hl.
  - simpl. rewrite Nat.Div0.div_0_l, Nat.Div0.mod_0_l. reflexivity.
  - rewrite length_app in Hl. cbn [length] in Hl.
    rewrite imap_app, concat_app. cbn [imap concat]. rewrite app_nil_r.
    rewrite applied_app, IH by lia.
    rewrite applied_deepcam_iter, length_app. cbn [length fst snd].
    replace (length l + 0 + 1) with (S (length l)) by lia.
    replace (length l + 1) with (S (length l)) by lia.
    destruct (Nat.eqb_spec (S (length l)) len) as [|_]; [lia|].
    rewrite orb_false_r.
    destruct (succ_div_mod (length l) ga Hg) as [Hq Hm].
    destruct (Nat.eqb_spec (S (length l) mod ga) 0) as [Hz|Hz]; cbn [fst snd].
    + rewrite Hq, Hz.
      replace (length l / ga + 1) with (S (length l / ga)) by lia.
      rewrite <- repeat_snoc. do 3 f_equal.
      pose proof (Nat.div_mod_eq (S (length l)) ga) as E.
      pose proof (Nat.div_mod_eq (length l) ga) as E'.
      rewrite Hz in E. nia.
    + rewrite app_nil_r, Hq, Hm, Nat.add_0_r. reflexivity.
Qed.

(** X10.  An epoch of the DeepCAM loop over [n] micro-batches steps on
    [n // ga] full windows of [ga] micro-batches and, when [ga] does not
    divide [n], once more on the last [n % ga] micro-batches, whose losses
    were divided by [ga] all the same; nothing is left accumulated. *)
Theorem deepcam_epoch_windows (ga : nat) (train_data : list R) :
  ga <> 0 ->
  let n := length train_data in
  applied (concat (deepcam_epoch ga train_data)) 0
  = (repeat ga (n / ga) ++ (if n mod ga =? 0 then [] else [n mod ga]), 0).
Proof.
  intros Hg. cbv zeta. unfold deepcam_epoch.
  destruct train_data as [|x l _] using rev_ind.
  - simpl. rewrite Nat.Div0.div_0_l, Nat.Div0.mod_0_l. reflexivity.
  - rewrite imap_app, concat_app. cbn [imap concat]. rewrite app_nil_r.
    rewrite applied_app, deepcam_prefix_windows
      by (try exact Hg; rewrite length_app; simpl; lia).
    rewrite applied_deepcam_iter, length_app. cbn [length fst snd].
    replace (length l + 0 + 1) with (S (length l)) by lia.
    replace (length l + 1) with (S (length l)) by lia.
    rewrite Nat.eqb_refl, orb_true_r. cbn [fst snd].
    destruct (succ_div_mod (length l) ga Hg) as [Hq Hm].
    rewrite Hq.
    destruct (Nat.eqb_spec (S (length l) mod ga) 0) as [Hz|Hz].
    + rewrite app_nil_r.
      replace (length l / ga + 1) with (S (length l / ga)) by lia.
      rewrite <- repeat_snoc. do 3 f_equal. rewrite Hz in Hm.
      pose proof (Nat.div_mod_eq (S (length l)) ga) as E.
      pose proof (Nat.div_mod_eq (length l) ga) as E'.
      rewrite Hz in E. nia.
    + rewrite Nat.add_0_r, Hm. reflexivity.
Qed.
End WindowFacts.

(** ** What the hook can return *)

Section HookShape.
Context {R : Type} {AR : Arith R}.

(** X11.  Whatever the collectives do, the hook returns on no leader, and
    what it returns elsewhere is one number: the first element of what the
    local broadcast left, divided by the world size.  The buffer is never
    returned and the all-reduce among the leaders never reaches a result. *)
Theorem hook_returns_one_number (c : Collectives R) (rank world_size : nat)
    (local_ranks zero_ranks : list nat) (taskspernode : nat)
    (buffer : list R) (v : pyval R) :
  custom_reduce_hook c rank world_size
    (local_ranks, zero_ranks, taskspernode) buffer = Ok v ->
  rank mod taskspernode <> 0 /\
  exists t x rest,
    reduce c buffer 0 local_ranks = Ok t /\
    broadcast c t 0 local_ranks = Ok (x :: rest) /\
    v = VScalar (rdiv x (of_nat world_size)).
Proof.
  unfold custom_reduce_hook, _reduce.
  destruct (reduce c buffer 0 local_ranks) as [t|e]; simpl; [|discriminate].
  destruct (Nat.eqb_spec (rank mod taskspernode) 0) as [Hl|Hl].
  - unfold _all_reduce_zeros; simpl.
    destruct (all_reduce_in c t zero_ranks) as [t'|e]; simpl; [|discriminate].
    unfold _local_broadcast; simpl.
    destruct (broadcast c t' 0 local_ranks) as [t''|e]; simpl; [|discriminate].
    destruct t''; simpl; discriminate.
  - unfold _local_broadcast; simpl.
    destruct (broadcast c t 0 local_ranks) as [t'|e] eqn:Eb; simpl;
      [|discriminate].
    unfold _dev; simpl.
    destruct t' as [|x rest]; simpl; [discriminate|].
    intros [= <-]. split; [exact Hl|]. exists t, x, rest. auto.
Qed.
End HookShape.

(** ** Two runs of the step side by side *)

Section LoopPairs.
Context {R : Type}.
Implicit Types (o : Lamb R) (p q : nat).

(** [for_each_inv] for a property that only the iterations of the list have
    to keep. *)
Lemma for_each_inv_in {A} (P : Lamb R -> Prop) (xs : list A)
    (body : A -> M R unit) o :
  (forall x o, In x xs -> P o -> P (fst (body x o))) ->
  P o -> P (fst (for_each xs body o)).
Proof.
  revert o; induction xs as [|x xs IH]; intros o Hb Ho; simpl; [exact Ho|].
  unfold bind. pose proof (Hb x o (or_introl eq_refl) Ho) as Hx.
  destruct (body x o) as [o1 [[]|e]]; simpl in *; [|exact Hx].
  apply IH; [|exact Hx]. intros y o2 Hy. apply Hb. right. exact Hy.
Qed.

(** Two loops over the same list whose iterations keep a relation between
    the two objects and end alike: the loops end alike and keep it. *)
Lemma for_each_congr {A} (rel : Lamb R -> Lamb R -> Prop) (xs : list A)
    (body body' : A -> M R unit) o o' :
  (forall x o o', In x xs -> rel o o' ->
     snd (body x o) = snd (body' x o') /\
     rel (fst (body x o)) (fst (body' x o'))) ->
  rel o o' ->
  snd (for_each xs body o) = snd (for_each xs body' o') /\
  rel (fst (for_each xs body o)) (fst (for_each xs body' o')).
Proof.
  revert o o'; induction xs as [|x xs IH]; intros o o' Hb Hr; simpl; [auto|].
  unfold bind. destruct (Hb x o o' (or_introl eq_refl) Hr) as [Hs Hf].
  destruct (body x o) as [o1 [[]|e]], (body' x o') as [o1' [[]|e']];
    simpl in *; try discriminate; [|auto].
  apply IH; [|exact Hf]. intros y o2 o2' Hy. apply Hb. right. exact Hy.
Qed.
End LoopPairs.

Section StepPairs.
Context {R : Type} {SR : Scalar R}.
Implicit Types (o : Lamb R) (p q : nat) (g : ParamGroup R).

Lemma reads_slot o o' p : slot o p = slot o' p -> reads o p = reads o' p.
Proof. unfold slot, reads. intros [= -> ->]. reflexivity. Qed.

Lemma trust_block_zero_decay (a a' : bool) (wd : R) (d s : Tensor R) :
  a = a' \/ reqb wd rzero = true ->
  trust_block a wd d s = trust_block a' wd d s.
Proof.
  intros [->|H]; [reflexivity|]. unfold trust_block. rewrite H. reflexivity.
Qed.

(** The iteration for [p] is a function of what it [reads] of [p], of the
    group and of the two flags; the [adam] flag is not read when the weight
    decay of the group is 0. *)
Lemma step_param_congr g p o o' :
  bias_correction o = bias_correction o' ->
  adam o = adam o' \/ reqb (g_weight_decay g) rzero = true ->
  reads o p = reads o' p ->
  snd (step_param g p o) = snd (step_param g p o') /\
  reads (fst (step_param g p o)) p = reads (fst (step_param g p o')) p.
Proof.
  intros Hbc Had Hr. unfold reads in Hr. injection Hr as Hd Hs Hg.
  assert (Hi : init_state (params o' p) = init_state (params o p))
    by (unfold init_state; rewrite Hd; reflexivity).
  unfold step_param. rewrite <- Hs, <- Hd, <- Hbc, Hi.
  destruct (grad (params o p)) as [gr|] eqn:Eg,
           (grad (params o' p)) as [gr'|] eqn:Eg'; simpl in Hg;
    try discriminate.
  2:{ simpl. split; [reflexivity|]. unfold reads. rewrite Hd, Hs, Eg, Eg'.
      reflexivity. }
  injection Hg as Hsp Hv. rewrite <- Hsp.
  destruct (is_sparse gr) eqn:Es.
  { simpl. split; [reflexivity|]. unfold reads.
    rewrite Hd, Hs, Eg, Eg'. simpl. congruence. }
  destruct (g_betas g) as [beta1 beta2].
  assert (Ht : forall (f : R -> R -> R) (t : Tensor R),
            tmap2 f t gr' = tmap2 f t gr).
  { intros f t. unfold tmap2. rewrite Hv. reflexivity. }
  assert (Ht32 : forall (f : R -> R -> R) (t : Tensor R),
            tmap2 f t (tensor_to float32 gr') = tmap2 f t (tensor_to float32 gr)).
  { intros f t. unfold tmap2, tensor_to. simpl. rewrite Hv. reflexivity. }
  destruct (bool_decide (dtype (data (params o p)) = bfloat16)).
  - destruct (data_fp32 _) as [d|]; simpl.
    2:{ split; [reflexivity|]. unfold reads.
        rewrite Hd, Hs, Eg, Eg'. simpl. congruence. }
    rewrite !Ht32.
    destruct (bias_correction o); simpl;
      (split; [reflexivity|]); unfold reads, set_param, set_state; simpl;
      rewrite !lookup_insert_eq, !fn_lookup_insert; simpl;
      rewrite (trust_block_zero_decay (adam o) (adam o')) by exact Had;
      rewrite Es, <- Hsp, Hv; reflexivity.
  - simpl. rewrite !Ht.
    destruct (bias_correction o); simpl;
      (split; [reflexivity|]); unfold reads, set_param, set_state; simpl;
      rewrite !lookup_insert_eq, !fn_lookup_insert; simpl;
      rewrite (trust_block_zero_decay (adam o) (adam o')) by exact Had;
      rewrite Es, <- Hsp, Hv; reflexivity.
Qed.
End StepPairs.

(** ** What the step leaves alone, and when it stops before updating *)

Section StepFrames.
Context {R : Type} {SR : Scalar R}.
Variable dist : Dist R.
Implicit Types (o : Lamb R) (p q : nat) (g : ParamGroup R).

Lemma in_items (gs : list (ParamGroup R)) g p :
  In (g, p) (items gs) -> In p (concat (map g_params gs)).
Proof.
  intros H. rewrite <- items_snd. apply in_map_iff. exists (g, p). auto.
Qed.

Lemma sync_grads_frame o p :
  ~ In p (listed o) -> slot (fst (sync_grads dist o)) p = slot o p.
Proof.
  intros Hn. unfold sync_grads.
  destruct (distributed o); simpl; [|reflexivity].
  rewrite (for_each_nested (param_groups o) (fun _ p => _)).
  apply (for_each_inv_in (fun o' => slot o' p = slot o p)); [|reflexivity].
  intros [g q] o1 Hin H. simpl.
  destruct (grad (params o1 q)) as [gr|] eqn:E; simpl; [|exact H].
  rewrite <- H. unfold slot, set_param; simpl.
  rewrite fn_lookup_insert_ne; [reflexivity|].
  intros <-. apply Hn. apply (in_items _ g q Hin).
Qed.

Lemma step_loop_frame o p :
  ~ In p (listed o) -> slot (fst (step_loop o)) p = slot o p.
Proof.
  intros Hn. rewrite step_loop_items.
  apply (for_each_inv_in (fun o' => slot o' p = slot o p)); [|reflexivity].
  intros [g q] o1 Hin H. simpl.
  destruct (step_param_writes g q o1) as (Hf & _).
  rewrite Hf; [exact H|]. intros ->. apply Hn. apply (in_items _ g q Hin).
Qed.

(** X12.  The step writes nothing of a parameter that is in no parameter
    group: its value, its gradient and its state are those the closure left,
    whether the step returns or raises and whether or not the gradients are
    all-reduced. *)
Theorem step_writes_listed_only (closure : option (M R R)) o p :
  ~ In p (listed (after_closure closure o)) ->
  slot (fst (step dist closure o)) p = slot (after_closure closure o) p.
Proof.
  intros Hn. rewrite step_unfold. cbv zeta.
  destruct (closure_result closure o) as [loss|e]; [|reflexivity].
  set (o1 := after_closure closure o) in *.
  set (s := if perform_allreduce o1 then sync_grads dist o1 else (o1, Ok tt)).
  assert (Hs : slot (fst s) p = slot o1 p /\ listed (fst s) = listed o1).
  { unfold s. destruct (perform_allreduce o1); [|auto]. split.
    - apply sync_grads_frame, Hn.
    - unfold listed. destruct (sync_grads_writes dist o1) as [_ ->]. reflexivity. }
  destruct Hs as [Hs Hl].
  destruct (snd s); [|exact Hs].
  assert (Hf : slot (fst (step_loop (fst s))) p = slot o1 p).
  { rewrite step_loop_frame; [exact Hs | rewrite Hl; exact Hn]. }
  destruct (snd (step_loop (fst s))); exact Hf.
Qed.

(** X13.  With [perform_allreduce] on in a distributed run, a parameter of a
    group that has no gradient does not get passed over: the step raises
    [AttributeError] from [sync_grads], and no parameter value and no state
    has been written. *)
Theorem step_allreduce_needs_every_gradient (closure : option (M R R)) o p :
  let o1 := after_closure closure o in
  is_ok (closure_result closure o) = true ->
  perform_allreduce o1 = true -> distributed o1 = true ->
  In p (listed o1) -> grad (params o1 p) = None ->
  snd (step dist closure o)
    = Err (AttributeError "'NoneType' object has no attribute 'data'") /\
  forall q, data (params (fst (step dist closure o)) q) = data (params o1 q) /\
            state (fst (step dist closure o)) !! q = state o1 !! q.
Proof.
  cbv zeta. intros Hc Hp Hd Hin Hn. rewrite step_unfold. cbv zeta.
  destruct (closure_result closure o) as [loss|e]; [|discriminate Hc].
  rewrite Hp, (sync_grads_missing_gradient dist _ p Hd Hin Hn). simpl.
  split; [reflexivity|]. intros q.
  destruct (sync_grads_writes dist (after_closure closure o)) as [H _].
  destruct (H q) as (Hs & Hdt & _). auto.
Qed.

(** X14.  An optimiser built while the process group is not initialised, or
    in a world of one process, is not distributed, and stays so: whatever the
    process group is by the time of a step, and with [perform_allreduce] on
    or off, the step leaves every gradient as the closure left it. *)
Theorem step_of_undistributed_keeps_gradients
    (dist0 : Dist R) (params_arg : list GroupArg) (mem : nat -> Param R)
    (lr : R) (betas : R * R) (eps weight_decay : R)
    (adam0 bias_correction0 perform_allreduce0 : bool) (o : Lamb R) :
  Lamb__init__ dist0 params_arg mem lr betas eps weight_decay
               adam0 bias_correction0 perform_allreduce0 = Ok o ->
  is_initialized dist0 = false \/ get_world_size dist0 <= 1 ->
  distributed o = false /\
  forall (closure : option (M R R)) o1,
    distributed (after_closure closure o1) = distributed o ->
    forall q, grad (params (fst (step dist closure o1)) q)
              = grad (params (after_closure closure o1) q).
Proof.
  intros Hi Hw.
  assert (Hd : distributed o = false).
  { unfold Lamb__init__ in Hi.
    repeat match type of Hi with
           | (if ?c then _ else _) = _ => destruct c; [discriminate Hi|]
           end.
    injection Hi as <-. simpl.
    destruct Hw as [->|Hw]; [reflexivity|].
    apply andb_false_iff. right. apply Nat.ltb_ge. exact Hw. }
  split; [exact Hd|].
  intros closure o1 Hd1 q. rewrite Hd in Hd1.
  rewrite step_unfold. cbv zeta.
  destruct (closure_result closure o1) as [loss|e]; [|reflexivity].
  assert (Hs : (if perform_allreduce (after_closure closure o1)
                then sync_grads dist (after_closure closure o1)
                else (after_closure closure o1, Ok tt))
               = (after_closure closure o1, Ok tt)).
  { destruct (perform_allreduce _); [|reflexivity].
    apply sync_grads_not_distributed, Hd1. }
  rewrite Hs. simpl.
  destruct (snd (step_loop _)); simpl; apply step_loop_keeps_gradients.
Qed.
End StepFrames.

(** ** Runs that read the same *)

Section StepAgreement.
Context {R : Type} {SR : Scalar R}.
Implicit Types (o : Lamb R) (p q : nat) (g : ParamGroup R).

Lemma in_items_group (gs : list (ParamGroup R)) g p :
  In (g, p) (items gs) -> In g gs.
Proof.
  unfold items. rewrite in_flat_map. intros (g' & Hg & Hin).
  apply in_map_iff in Hin as (p' & [= <- <-] & _). exact Hg.
Qed.

(** Two optimisers with the same groups and flags that read the same of
    every listed parameter: the loop ends alike on both and they still read
    the same.  The [adam] flags may differ when every weight decay is 0. *)
Lemma step_loop_congr o o' :
  param_groups o = param_groups o' ->
  bias_correction o = bias_correction o' ->
  adam o = adam o' \/
    (forall g, In g (param_groups o) -> reqb (g_weight_decay g) rzero = true) ->
  (forall p, In p (listed o) -> reads o p = reads o' p) ->
  snd (step_loop o) = snd (step_loop o') /\
  forall p, In p (listed o) ->
    reads (fst (step_loop o)) p = reads (fst (step_loop o')) p.
Proof.
  intros Hpg Hbc Had Hr. rewrite !step_loop_items, <- Hpg.
  set (rel := fun o1 o1' : Lamb R =>
    bias_correction o1 = bias_correction o1' /\
    (adam o1 = adam o1' \/
     forall g, In g (param_groups o) -> reqb (g_weight_decay g) rzero = true) /\
    forall p, In p (listed o) -> reads o1 p = reads o1' p).
  destruct (for_each_congr rel (items (param_groups o))
              (fun gp => step_param (fst gp) (snd gp))
              (fun gp => step_param (fst gp) (snd gp)) o o') as [Hs (_ & _ & Hf)].
  - intros [g p] o1 o1' Hin (Hb1 & Ha1 & Hr1). cbn [fst snd].
    assert (Ha : adam o1 = adam o1' \/ reqb (g_weight_decay g) rzero = true).
    { destruct Ha1 as [?|Hz]; [left; assumption|].
      right. apply Hz. apply (in_items_group _ g p Hin). }
    assert (Hp : In p (listed o)) by apply (in_items _ g p Hin).
    destruct (step_param_congr g p o1 o1' Hb1 Ha (Hr1 p Hp)) as [Hsnd Hrd].
    split; [exact Hsnd|].
    destruct (step_param_writes g p o1) as (Hf1 & _ & (Hc1 & Hc2 & _)).
    destruct (step_param_writes g p o1') as (Hf1' & _ & (Hc1' & Hc2' & _)).
    split; [congruence|]. split.
    + destruct Ha1 as [?|Hz]; [left; congruence | right; exact Hz].
    + intros q Hq. destruct (decide (q = p)) as [->|Hne]; [exact Hrd|].
      rewrite (reads_slot _ _ _ (Hf1 q Hne)), (reads_slot _ _ _ (Hf1' q Hne)).
      apply Hr1, Hq.
  - repeat split; auto.
  - split; [exact Hs | exact Hf].
Qed.
End StepAgreement.

Section StepAgreementFacts.
Context {R : Type} {SR : Scalar R}.
Variable dist : Dist R.
Implicit Types (o : Lamb R) (p q : nat) (g : ParamGroup R).

Lemma sync_grads_set_adam (b : bool) o :
  sync_grads dist (set_adam b o)
  = (set_adam b (fst (sync_grads dist o)), snd (sync_grads dist o)).
Proof.
  unfold sync_grads. cbn [distributed param_groups set_adam].
  destruct (distributed o); [|reflexivity]. cbn [negb].
  set (body := fun group : ParamGroup R => _).
  destruct (for_each_congr (fun o1 o1' => o1' = set_adam b o1)
              (param_groups o) body body o (set_adam b o)) as [Hs Hf];
    [|reflexivity|].
  - intros group o1 o1' _ ->. unfold body.
    apply (for_each_congr (fun o1 o1' => o1' = set_adam b o1)); [|reflexivity].
    intros p o2 o2' _ ->. cbn [params set_adam].
    destruct (grad (params o2 p)); split; reflexivity.
  - rewrite (surjective_pairing (for_each _ _ (set_adam b o))).
    rewrite Hf, Hs. reflexivity.
Qed.

(** X15.  When the weight decay of every group is 0, as it is by default,
    the [adam] flag is not read: the step ends alike and leaves the same
    values, gradients and states with the flag on and off. *)
Theorem zero_weight_decay_ignores_adam (b : bool) o :
  (forall g, In g (param_groups o) -> reqb (g_weight_decay g) rzero = true) ->
  snd (step dist None (set_adam b o)) = snd (step dist None o) /\
  forall q, slot (fst (step dist None (set_adam b o))) q
            = slot (fst (step dist None o)) q.
Proof.
  intros Hz. rewrite !step_unfold. cbv zeta.
  cbn [closure_result after_closure].
  assert (Hs : (if perform_allreduce (set_adam b o)
                then sync_grads dist (set_adam b o) else (set_adam b o, Ok tt))
               = (set_adam b (fst (if perform_allreduce o then sync_grads dist o
                                   else (o, Ok tt))),
                  snd (if perform_allreduce o then sync_grads dist o
                       else (o, Ok tt)))).
  { cbn [perform_allreduce set_adam]. destruct (perform_allreduce o);
      [apply sync_grads_set_adam | reflexivity]. }
  rewrite Hs. clear Hs.
  set (s := if perform_allreduce o then sync_grads dist o else (o, Ok tt)).
  assert (Hpg : param_groups (fst s) = param_groups o).
  { unfold s. destruct (perform_allreduce o); [|reflexivity].
    apply sync_grads_writes. }
  cbn [fst snd]. destruct (snd s); [|split; reflexivity].
  destruct (step_loop_congr (set_adam b (fst s)) (fst s)) as [Hsnd Hrd];
    try reflexivity.
  { right. cbn [param_groups set_adam]. rewrite Hpg. exact Hz. }
  rewrite Hsnd.
  assert (Hq : forall q, slot (fst (step_loop (set_adam b (fst s)))) q
                         = slot (fst (step_loop (fst s))) q).
  { intros q. destruct (classic_in q (listed (fst s))) as [Hin|Hnin].
    - specialize (Hrd q Hin). unfold reads in Hrd. injection Hrd as Hd Hst _.
      destruct (step_loop_keeps_gradients (set_adam b (fst s))) as [Hg _].
      destruct (step_loop_keeps_gradients (fst s)) as [Hg' _].
      specialize (Hg q). specialize (Hg' q). cbn [params set_adam] in Hg.
      unfold slot. rewrite Hst. f_equal.
      destruct (params (fst (step_loop (set_adam b (fst s)))) q) as [d1 g1],
               (params (fst (step_loop (fst s))) q) as [d2 g2].
      simpl in *. congruence.
    - rewrite (step_loop_frame (set_adam b (fst s)) q Hnin).
      rewrite (step_loop_frame (fst s) q Hnin). reflexivity. }
  destruct (snd (step_loop (fst s))); split; auto.
Qed.
End StepAgreementFacts.

(** ** Replicas *)

Section Replicas.
Context {R : Type} {SR : Scalar R}.
Implicit Types (o : Lamb R) (p q : nat) (g : ParamGroup R).

Lemma sync_grads_keeps_flags (dist : Dist R) o :
  adam (fst (sync_grads dist o)) = adam o /\
  bias_correction (fst (sync_grads dist o)) = bias_correction o.
Proof.
  unfold sync_grads. destruct (distributed o); simpl; [|auto].
  rewrite (for_each_nested (param_groups o) (fun _ p => _)).
  apply (for_each_inv (fun o' => adam o' = adam o /\
                                 bias_correction o' = bias_correction o));
    [|auto].
  intros [g p] o1 H. simpl. destruct (grad (params o1 p)); exact H.
Qed.

(** What rank [r] of the world [w] reads of a listed parameter after
    [sync_grads]: the value and the state it had, and as gradient the sum
    over the ranks, which does not depend on [r]. *)
Lemma sync_grads_reads (w : list (Lamb R)) (ps : list nat) (r : nat) o :
  NoDup ps ->
  (forall x, In x w ->
     distributed x = true /\ listed x = ps /\
     forall p, In p ps -> is_Some (grad (params x p))) ->
  w !! r = Some o ->
  snd (sync_grads (world_dist w r) o) = Ok tt /\
  forall p, In p ps ->
    reads (fst (sync_grads (world_dist w r) o)) p
    = (data (params o p), state o !! p,
       (fun gr => (is_sparse gr,
                   sum_over_ranks
                     (map (map (fun x => rdiv x (of_nat (length w))))
                          (world_vals w p)))) <$> grad (params o p)).
Proof.
  intros Hnd Hw Hr.
  assert (Ho : In o w) by (apply list_elem_of_In, list_elem_of_lookup; eauto).
  destruct (Hw o Ho) as (Hd & Hl & Hg).
  destruct (sync_grads_distributed (world_dist w r) o) as (o' & E & P); auto.
  { rewrite Hl. exact Hnd. }
  { rewrite Hl. exact Hg. }
  destruct (sync_grads_writes (world_dist w r) o) as [Hwr _].
  rewrite E in *. cbn [fst snd] in *. split; [reflexivity|].
  intros p Hp. destruct (P p) as (gr & Hgr & Hgr'); [rewrite Hl; exact Hp|].
  destruct (Hwr p) as (Hst & Hdt & _).
  unfold reads. rewrite Hst, Hdt, Hgr, Hgr'. cbn [fmap option_fmap option_map].
  do 3 f_equal.
  unfold all_reduce_. cbn [vals]. unfold world_dist.
  cbn [all_reduce get_world_size].
  rewrite (world_contributions w (length w) r o p gr); auto.
  intros o2 H2. apply (Hw o2 H2), Hp.
Qed.

(** X16.  Replicas stay replicas.  In a distributed run with
    [perform_allreduce] on, whose ranks all list the same parameters, each
    once and each with a gradient, two ranks that enter the step with the
    same flags and groups, the same parameter values and states, and
    gradients of the same layout, leave it alike and with the same parameter
    values, states and gradient values, however their gradients differed. *)
Theorem replicas_stay_equal (w : list (Lamb R)) (ps : list nat) (r r' : nat)
    (o o' : Lamb R) :
  NoDup ps ->
  (forall x, In x w ->
     distributed x = true /\ listed x = ps /\
     forall p, In p ps -> is_Some (grad (params x p))) ->
  w !! r = Some o -> w !! r' = Some o' ->
  perform_allreduce o = true -> perform_allreduce o' = true ->
  adam o = adam o' -> bias_correction o = bias_correction o' ->
  param_groups o = param_groups o' ->
  (forall p, In p ps ->
     data (params o p) = data (params o' p) /\
     state o !! p = state o' !! p /\
     is_sparse <$> grad (params o p) = is_sparse <$> grad (params o' p)) ->
  let s := step (world_dist w r) None o in
  let s' := step (world_dist w r') None o' in
  snd s = snd s' /\
  forall p, In p ps -> reads (fst s) p = reads (fst s') p.
Proof.
  intros Hnd Hw Hr Hr' Hp Hp' Ha Hb Hpg Hsame s s'. subst s s'.
  rewrite !step_unfold. cbv zeta. cbn [closure_result after_closure].
  rewrite Hp, Hp'.
  destruct (sync_grads_reads w ps r o Hnd Hw Hr) as [E R1].
  destruct (sync_grads_reads w ps r' o' Hnd Hw Hr') as [E' R1'].
  rewrite E, E'.
  destruct (sync_grads_writes (world_dist w r) o) as [_ G].
  destruct (sync_grads_writes (world_dist w r') o') as [_ G'].
  destruct (sync_grads_keeps_flags (world_dist w r) o) as [F1 F2].
  destruct (sync_grads_keeps_flags (world_dist w r') o') as [F1' F2'].
  assert (Ho : In o w) by (apply list_elem_of_In, list_elem_of_lookup; eauto).
  assert (Hl : listed (fst (sync_grads (world_dist w r) o)) = ps).
  { unfold listed. rewrite G. apply (Hw o Ho). }
  destruct (step_loop_congr (fst (sync_grads (world_dist w r) o))
                            (fst (sync_grads (world_dist w r') o')))
    as [Hs Hrd]; try congruence.
  { left. congruence. }
  { rewrite Hl. intros p Hin. rewrite R1, R1' by exact Hin.
    destruct (Hsame p Hin) as (-> & -> & Hsp).
    destruct (grad (params o p)), (grad (params o' p)); simpl in *;
      congruence. }
  rewrite Hl in Hrd. rewrite Hs.
  destruct (snd (step_loop (fst (sync_grads (world_dist w r') o'))));
    cbn [fst snd]; split; auto.
Qed.
End Replicas.

(** ** bfloat16 parameters and their float32 copy *)

Section MasterCopy.
Context {R : Type} {SR : Scalar R}.
Variable dist : Dist R.
Implicit Types (o : Lamb R) (p q : nat) (g : ParamGroup R).

(** The iteration for a bfloat16 parameter with a dense gradient and a state
    that is absent or sound: the new value is the float32 copy of the new
    state, rounded. *)
Lemma step_param_bf16 g p o gr :
  grad (params o p) = Some gr -> is_sparse gr = false ->
  (forall st, state o !! p = Some st -> state_ok (params o p) st) ->
  dtype (data (params o p)) = bfloat16 ->
  exists P' st' d',
    step_param g p o = (set_param p P' (set_state p st' o), Ok tt) /\
    data_fp32 st' = Some d' /\
    data P' = tensor_to bfloat16 d'.
Proof.
  intros Hg Hs Hst Hbf. unfold step_param. rewrite Hg, Hs.
  set (P := params o p) in *.
  assert (Hok : state_ok P (match state o !! p with
                            | Some st => st | None => init_state P end)).
  { destruct (state o !! p) as [st|]; [apply Hst; reflexivity | apply init_state_ok]. }
  revert Hok.
  generalize (match state o !! p with Some st => st | None => init_state P end).
  intros st (_ & _ & _ & _ & Hsh & _).
  destruct (g_betas g) as [beta1 beta2].
  rewrite bool_decide_eq_true_2 by exact Hbf.
  destruct (proj2 Hsh Hbf) as [d Hd]. rewrite Hd.
  destruct (bias_correction o); simpl; eexists _, _, _;
    (split; [reflexivity|]); simpl; split; reflexivity.
Qed.

Lemma step_loop_bf16 o :
  NoDup (listed o) ->
  (forall p, In p (listed o) ->
     (forall gr, grad (params o p) = Some gr -> is_sparse gr = false) /\
     (forall st, state o !! p = Some st -> state_ok (params o p) st)) ->
  exists o',
    step_loop o = (o', Ok tt) /\
    forall p, In p (listed o) -> is_Some (grad (params o p)) ->
      dtype (data (params o p)) = bfloat16 ->
      exists st' d', state o' !! p = Some st' /\ data_fp32 st' = Some d' /\
                     data (params o' p) = tensor_to bfloat16 d'.
Proof.
  intros Hnd Hpre. rewrite step_loop_items.
  unfold listed in *. rewrite <- items_snd in *.
  destruct (for_each_slots snd
    (fun gp : ParamGroup R * nat => step_param (fst gp) (snd gp))
    (fun _ s => (forall gr, grad (fst s) = Some gr -> is_sparse gr = false) /\
                (forall st, snd s = Some st -> state_ok (fst s) st))
    (fun _ s s' =>
       is_Some (grad (fst s)) -> dtype (data (fst s)) = bfloat16 ->
       exists st' d', snd s' = Some st' /\ data_fp32 st' = Some d' /\
                      data (fst s') = tensor_to bfloat16 d')
    (items (param_groups o))) with (o := o) as (o' & E & F & P); auto.
  - intros [g p] o1 [Hs Hst]. cbn [fst snd slot] in *.
    destruct (grad (params o1 p)) as [gr|] eqn:Hg.
    + destruct (decide (dtype (data (params o1 p)) = bfloat16)) as [Hbf|Hbf].
      * destruct (step_param_bf16 g p o1 gr Hg (Hs gr eq_refl) Hst Hbf)
          as (P' & st' & d' & E & Hd & Hv).
        eexists. split; [exact E|]. split.
        -- intros q Hq. apply slot_set_ne, Hq.
        -- intros _ _. exists st', d'. unfold set_param, set_state; simpl.
           rewrite lookup_insert_eq, fn_lookup_insert. auto.
      * destruct (step_param_dense g p o1 gr Hg (Hs gr eq_refl) Hst)
          as (P' & st' & E & _).
        eexists. split; [exact E|]. split.
        -- intros q Hq. apply slot_set_ne, Hq.
        -- intros _ Hbf'. contradiction.
    + exists o1. rewrite (step_param_none g p o1 Hg). repeat split.
      intros [? H]; discriminate H.
  - intros [g p] Hin. simpl. apply Hpre, in_map_iff. exists (g, p). auto.
  - exists o'. split; [exact E|].
    intros p Hin. apply in_map_iff in Hin as ([g p'] & <- & Hin).
    apply (P (g, p') Hin).
Qed.

(** X17.  After a step that returns, the value of every bfloat16 parameter
    that had a gradient is the rounding to bfloat16 of the float32 copy kept
    in its state: the optimiser updates the copy and derives the value from
    it. *)
Theorem bf16_value_is_rounded_copy (closure : option (M R R)) o :
  let o1 := after_closure closure o in
  let o' := fst (step dist closure o) in
  is_ok (closure_result closure o) = true ->
  NoDup (listed o1) ->
  (forall p gr, In p (listed o1) ->
     grad (params o1 p) = Some gr -> is_sparse gr = false) ->
  (perform_allreduce o1 = true -> distributed o1 = true ->
   forall p, In p (listed o1) -> is_Some (grad (params o1 p))) ->
  (forall p st, In p (listed o1) ->
     state o1 !! p = Some st -> state_ok (params o1 p) st) ->
  forall p, In p (listed o1) -> is_Some (grad (params o1 p)) ->
    dtype (data (params o1 p)) = bfloat16 ->
    exists st' d', state o' !! p = Some st' /\ data_fp32 st' = Some d' /\
                   data (params o' p) = tensor_to bfloat16 d'.
Proof.
  cbv zeta. intros Hc Hnd Hg Hsync Hst.
  rewrite step_unfold. cbv zeta.
  destruct (closure_result closure o) as [loss|e]; [|discriminate Hc].
  set (o1 := after_closure closure o) in *.
  set (s := if perform_allreduce o1 then sync_grads dist o1 else (o1, Ok tt)).
  assert (Hs : snd s = Ok tt /\
               (forall q, state (fst s) !! q = state o1 !! q /\
                          data (params (fst s) q) = data (params o1 q) /\
                          same_layout (grad (params o1 q)) (grad (params (fst s) q))) /\
               param_groups (fst s) = param_groups o1).
  { unfold s. destruct (perform_allreduce o1) eqn:Hp.
    - split; [|apply sync_grads_writes].
      destruct (distributed o1) eqn:Hd.
      + destruct (sync_grads_distributed dist o1) as (o2 & E & _); auto.
        rewrite E. reflexivity.
      + rewrite sync_grads_not_distributed; auto.
    - simpl. repeat split; auto using same_layout_refl. }
  destruct Hs as (Hok & Hw & Hpg). rewrite Hok.
  assert (Hl : listed (fst s) = listed o1) by (unfold listed; rewrite Hpg; auto).
  destruct (step_loop_bf16 (fst s)) as (o' & E & P).
  { rewrite Hl. exact Hnd. }
  { rewrite Hl. intros p Hp. destruct (Hw p) as (Hs1 & Hd1 & Hl1). split.
    - intros gr' Hgr'. rewrite Hgr' in Hl1.
      destruct (grad (params o1 p)) as [gr|] eqn:Hgr; [|contradiction].
      simpl in Hl1. rewrite Hl1. apply (Hg p gr Hp Hgr).
    - intros st Hst1. rewrite Hs1 in Hst1.
      apply (state_ok_data (params o1 p)); auto. }
  rewrite E. simpl.
  intros p Hp [gr Hgr] Hbf. rewrite <- Hl in Hp.
  destruct (Hw p) as (Hs1 & Hd1 & Hl1). rewrite Hgr in Hl1.
  apply (P p Hp).
  - destruct (grad (params (fst s) p)) as [gr'|]; [eauto | contradiction].
  - rewrite Hd1. exact Hbf.
Qed.

(** X18.  Once a bfloat16 parameter has its float32 copy, an iteration
    that updates it does not read the parameter's own value: with any other
    bfloat16 tensor in its place the iteration leaves the same value,
    gradient and state, so a value written to the parameter between two
    steps is lost. *)
Theorem bf16_value_is_not_read g p o st d gr (t : Tensor R) :
  state o !! p = Some st -> data_fp32 st = Some d ->
  grad (params o p) = Some gr -> is_sparse gr = false ->
  dtype (data (params o p)) = bfloat16 -> dtype t = bfloat16 ->
  let o2 := set_param p (mkParam t (Some gr)) o in
  snd (step_param g p o2) = Ok tt /\ snd (step_param g p o) = Ok tt /\
  slot (fst (step_param g p o2)) p = slot (fst (step_param g p o)) p.
Proof.
  intros Hst Hd Hg Hs Hbf Ht. cbv zeta. unfold step_param.
  cbn [params state bias_correction adam set_param].
  rewrite fn_lookup_insert. cbn [grad data]. rewrite Hg, Hs, Hst, Hd.
  rewrite !bool_decide_eq_true_2 by assumption.
  destruct (g_betas g) as [beta1 beta2].
  destruct (bias_correction o); simpl; (split; [reflexivity|]);
    (split; [reflexivity|]);
    unfold slot, set_param, set_state; simpl;
    rewrite !lookup_insert_eq, !fn_lookup_insert; reflexivity.
Qed.

(** X19.  A parameter that was updated while it was not bfloat16 has no
    float32 copy in its state; if it is then cast to bfloat16, the next
    iteration for it raises [KeyError] on [data_fp32] and writes nothing. *)
Theorem cast_to_bf16_after_first_step_raises g g' p o gr gr' (t : Tensor R) :
  grad (params o p) = Some gr -> is_sparse gr = false ->
  state o !! p = None ->
  dtype (data (params o p)) <> bfloat16 ->
  dtype t = bfloat16 -> is_sparse gr' = false ->
  let o1 := fst (step_param g p o) in
  let o2 := set_param p (mkParam t (Some gr')) o1 in
  snd (step_param g p o) = Ok tt /\
  step_param g' p o2 = (o2, Err (KeyError "data_fp32")).
Proof.
  intros Hg Hs Hst Hnbf Ht Hs'. cbv zeta.
  destruct (step_param_dense g p o gr Hg Hs) as (P' & st' & E & _ & Hok & _ & Hdt & _).
  { intros st H. rewrite Hst in H. discriminate H. }
  rewrite E. cbn [fst snd]. split; [reflexivity|].
  assert (Hnone : data_fp32 st' = None).
  { destruct Hok as (_ & _ & _ & _ & Hiff & _).
    destruct (data_fp32 st') as [d|] eqn:Ed; [|reflexivity].
    exfalso. apply Hnbf. rewrite <- Hdt. apply Hiff. eauto. }
  unfold step_param at 1.
  cbn [params state bias_correction adam set_param set_state].
  rewrite fn_lookup_insert, lookup_insert_eq. cbn [grad data].
  rewrite Hs', Hnone. rewrite bool_decide_eq_true_2 by exact Ht.
  destruct (g_betas g') as [beta1 beta2]. reflexivity.
Qed.
End MasterCopy.

(** ** Traces *)

Section TraceFacts.
Context {R : Type}.
Implicit Types (tr : list (run_event R)).

Lemma tbind_return {A B} (m : T R A) (k : A -> T R B) tr (b : B) :
  tbind m k = (tr, Return b) ->
  exists tr1 a tr2, m = (tr1, Return a) /\ k a = (tr2, Return b) /\ tr = tr1 ++ tr2.
Proof.
  unfold tbind. destruct m as [tr1 [a|e]]; [|discriminate].
  destruct (k a) as [tr2 r] eqn:E. simpl. intros [= <- ->].
  exists tr1, a, tr2. auto.
Qed.

Lemma call_gc_return (gc : gc_call -> result unit) (c : gc_call) tr (u : unit) :
  call_gc gc c = (tr, Return u) -> tr = [Gc c] /\ gc c = Ok tt.
Proof.
  unfold call_gc, emit, traise. destruct (gc c) as [[]|e]; intros [= <-]; auto.
Qed.

Lemma emit_return (ev : run_event R) tr (u : unit) :
  emit ev = (tr, Return u) -> tr = [ev].
Proof. unfold emit. intros [= <-]. reflexivity. Qed.

Lemma tret_return {A} (a b : A) tr :
  tret a = (tr, Return b) -> tr = [] /\ a = b.
Proof. unfold tret. intros [= <- <-]. auto. Qed.

Lemma trained_app tr tr' : trained (tr ++ tr') = trained tr ++ trained tr'.
Proof. apply omap_app. Qed.

Lemma validated_app tr tr' : validated (tr ++ tr') = validated tr ++ validated tr'.
Proof. apply omap_app. Qed.

Lemma gc_calls_app tr tr' : gc_calls (tr ++ tr') = gc_calls tr ++ gc_calls tr'.
Proof. apply omap_app. Qed.

Lemma opt_events_app tr tr' : opt_events (tr ++ tr') = opt_events tr ++ opt_events tr'.
Proof. apply omap_app. Qed.
End TraceFacts.

(** ** The epoch loop of ResNet50 *)

Section ResNetRun.
Context {R : Type} {SR : Scalar R}.
Variable gc : gc_call -> result unit.
Variable rank world_size : nat.
Variable benchmark : bool.
Variable n_epochs : Z.
Variable target_accuracy : R.
Variable train_loss val_loss : nat -> option R.
Variable val_metric : nat -> R.

Local Notation "'pass'" := (resnet_pass gc rank world_size benchmark n_epochs
                    target_accuracy train_loss val_loss val_metric).
Local Notation "'while'" := (resnet_while gc rank world_size benchmark n_epochs
                     target_accuracy train_loss val_loss val_metric).
Local Notation "'run'" := (resnet_run gc rank world_size benchmark n_epochs
                   target_accuracy train_loss val_loss val_metric).
Local Notation "'met'" := (target_met world_size target_accuracy).

Lemma print_loss_return (loss : option R) tr (u : unit) :
  print_loss rank benchmark loss = (tr, Return u) -> tr = [].
Proof.
  unfold print_loss, local, tbind, tret, traise.
  destruct ((rank =? 0) && benchmark); [destruct loss|]; simpl;
    intros [= <-]; reflexivity.
Qed.

(** A pass that returns: what it trained, validated and assigned, and why it
    left the loop or went on. *)
Lemma resnet_pass_return (l l' : Locals R) (brk : bool) tr :
  pass l = (tr, Return (l', brk)) ->
  trained tr = [l_E l] /\
  validated tr = (if l_E l mod 4 =? 0 then [l_E l] else []) /\
  gc_calls tr = [start_epoch (l_E l); start_eval (l_E l);
                 stop_eval (l_E l); stop_epoch (l_E l)] /\
  l_val_accuracy l'
    = (if l_E l mod 4 =? 0 then Some (val_metric (l_E l)) else l_val_accuracy l) /\
  (if brk
   then l_E l' = l_E l /\ opt_events tr = [] /\
        ((Z.of_nat (l_E l) >= n_epochs)%Z \/ met (l_val_accuracy l') = true)
   else l_E l' = l_E l + 1 /\ opt_events tr = [SchedulerStep] /\
        (Z.of_nat (l_E l) < n_epochs)%Z /\ met (l_val_accuracy l') = false).
Proof.
  unfold resnet_pass. intros H.
  apply tbind_return in H as (t1 & [] & t1' & H1 & H & ->).
  apply call_gc_return in H1 as [-> _].
  apply tbind_return in H as (t2 & [] & t2' & H2 & H & ->).
  apply emit_return in H2 as ->.
  apply tbind_return in H as (t3 & [] & t3' & H3 & H & ->).
  apply print_loss_return in H3 as ->.
  apply tbind_return in H as (t4 & [] & t4' & H4 & H & ->).
  apply call_gc_return in H4 as [-> _].
  apply tbind_return in H as (t5 & [loss va] & t5' & H5 & H & ->).
  apply tbind_return in H as (t6 & [] & t6' & H6 & H & ->).
  apply call_gc_return in H6 as [-> _].
  apply tbind_return in H as (t7 & [] & t7' & H7 & H & ->).
  apply call_gc_return in H7 as [-> _].
  assert (Hv : t5 = (if l_E l mod 4 =? 0 then [Validated (l_E l)] else []) /\
               va = (if l_E l mod 4 =? 0 then Some (val_metric (l_E l))
                     else l_val_accuracy l)).
  { destruct (l_E l mod 4 =? 0).
    - apply tbind_return in H5 as (u1 & [] & u1' & G1 & H5 & ->).
      apply emit_return in G1 as ->.
      apply tbind_return in H5 as (u2 & [] & u2' & G2 & H5 & ->).
      apply print_loss_return in G2 as ->.
      apply tret_return in H5 as [-> [= _ <-]]. auto.
    - apply tret_return in H5 as [-> [= _ <-]]. auto. }
  destruct Hv as [-> ->].
  assert (Hend :
    t7' = (if brk then [] else [Opt SchedulerStep]) /\
    l_val_accuracy l'
      = (if l_E l mod 4 =? 0 then Some (val_metric (l_E l)) else l_val_accuracy l) /\
    (if brk
     then l_E l' = l_E l /\
          ((Z.of_nat (l_E l) >= n_epochs)%Z \/ met (l_val_accuracy l') = true)
     else l_E l' = l_E l + 1 /\
          (Z.of_nat (l_E l) < n_epochs)%Z /\ met (l_val_accuracy l') = false)).
  { destruct (Z.geb_spec (Z.of_nat (l_E l)) n_epochs) as [Hge|Hlt].
    - apply tret_return in H as [-> [= <- <-]]. simpl. repeat split; auto.
      left. lia.
    - set (va := if l_E l mod 4 =? 0 then Some (val_metric (l_E l))
                 else l_val_accuracy l) in *.
      fold (met va) in H. destruct (met va) eqn:Hm.
      + apply tret_return in H as [-> [= <- <-]]. simpl. repeat split; auto.
      + apply tbind_return in H as (u1 & [] & u1' & G1 & H & ->).
        apply emit_return in G1 as ->.
        apply tret_return in H as [-> [= <- <-]]. simpl. repeat split; auto. }
  destruct Hend as (-> & Hva & Hb).
  rewrite !trained_app, !validated_app, !gc_calls_app.
  split; [|split; [|split; [|split; [exact Hva|]]]].
  - destruct (l_E l mod 4 =? 0), brk; reflexivity.
  - destruct (l_E l mod 4 =? 0), brk; reflexivity.
  - destruct (l_E l mod 4 =? 0), brk; reflexivity.
  - rewrite !opt_events_app.
    destruct brk.
    + destruct Hb as [? ?]. repeat split; auto.
      destruct (l_E l mod 4 =? 0); reflexivity.
    + destruct Hb as (? & ? & ?). repeat split; auto.
      destruct (l_E l mod 4 =? 0); reflexivity.
Qed.

Lemma resnet_while_ends (fuel : nat) (l : Locals R) :
  (Z.max 1 (n_epochs - Z.of_nat (l_E l) + 1) <= Z.of_nat fuel)%Z ->
  is_Some (while fuel l).
Proof.
  revert l. induction fuel as [|fuel IH]; intros l Hf; [lia|].
  cbn [resnet_while].
  destruct (pass l) as [t1 [[l1 brk]|e]] eqn:Ep; [|eauto].
  destruct brk; [eauto|].
  destruct (resnet_pass_return l l1 false t1 Ep) as (_ & _ & _ & _ & HE & _ & Hlt & _).
  destruct (IH l1) as [[t2 r] ->]; [rewrite HE; lia | eauto].
Qed.

(** X20.  The ResNet50 loop always comes to an end, normally or by an
    exception, within [max(1, n_epochs)] passes, whatever the data, the
    accuracies, the configuration and the calls on [gc] do. *)
Theorem resnet_run_terminates (more : nat) :
  is_Some (resnet_run gc rank world_size benchmark n_epochs target_accuracy
             train_loss val_loss val_metric
             (Z.to_nat (Z.max 1 n_epochs) + more)).
Proof.
  unfold resnet_run.
  destruct (resnet_while_ends (Z.to_nat (Z.max 1 n_epochs) + more)
              (mkLocals 1 None None)) as [m ->]; [simpl; lia | eauto].
Qed.

(** X21.  With [gc] as ML/gc.py defines it, the ResNet50 loop does not
    train: [gc.start_epoch] is [None], the first pass raises [TypeError]
    when it calls it, and nothing was trained, validated or reported by
    then, whatever the rank, the configuration and the data. *)
Theorem resnet_run_raises_at_first_gc_call
    (get_rank : result nat) (body : gc_call -> result unit) (fuel : nat) :
  resnet_run (decorated_gc get_rank body) rank world_size benchmark n_epochs
             target_accuracy train_loss val_loss val_metric (S fuel)
  = Some ([], Raise (Raised (TypeError "'NoneType' object is not callable"))).
Proof. reflexivity. Qed.
End ResNetRun.

(** ** The epoch loop of DeepCAM *)

Section DeepCamRun.
Context {R : Type} {SR : Scalar R}.
Variable n_epochs : Z.
Variable ga : nat.
Variable scheduler_bound : bool.
Variable train_data : nat -> list R.
Variable validate : nat -> bool.

(** X22.  With [gc] as ML_HPC/gc.py defines it, the DeepCAM loop does not
    train either: its first statement calls [gc.start_epoch], which is
    [None], and raises [TypeError] before any micro-batch, whatever the
    configuration and the data. *)
Theorem deepcam_run_raises_at_first_gc_call
    (get_rank : result nat) (body : gc_call -> result unit) (fuel : nat) :
  deepcam_run (decorated_gc get_rank body) n_epochs ga scheduler_bound
              train_data validate (S fuel)
  = Some ([], Raise (Raised (TypeError "'NoneType' object is not callable"))).
Proof. reflexivity. Qed.

(** X24.  When [gc["lr_schedule"]["type"]] is neither "multistep" nor
    "cosine_annealing", no scheduler is assigned, and the loop over the
    micro-batches raises [UnboundLocalError] in its first micro-batch: after
    the backward pass and, if it is a stepping micro-batch, after the
    optimiser has stepped and the gradients are zeroed.  It does so before
    the body calls [gc], so whatever [gc] does. *)
Theorem deepcam_unassigned_scheduler_raises
    (gc : gc_call -> result unit) (epoch : nat) (raw : R) (rest : list R) :
  ga <> 0 ->
  tfor 0 (raw :: rest) (deepcam_batch gc ga false epoch (S (length rest)))
  = (Opt (Backward (rdiv raw (of_nat ga)) false)
     :: (if (1 mod ga =? 0) || (1 =? S (length rest))
         then [Opt OptStep; Opt ZeroGrad] else []),
     Raise (UnboundLocalError "scheduler")).
Proof.
  intros Hga. cbn [tfor]. unfold deepcam_batch, scheduler, lift, pymod.
  destruct (Nat.eqb_spec ga 0) as [|_]; [contradiction|].
  cbn [Nat.add].
  set (m := 1 mod ga). set (b := 1 =? S (length rest)).
  cbv [tbind emit tret traise fst snd app].
  destruct ((m =? 0) || b); reflexivity.
Qed.
End DeepCamRun.

(** ** The configuration object *)

Section ConfigFacts.
Context {V : Type}.
Variable lower : string -> string.
Variable load : string -> option (option (gmap string (pyobj V))).
Implicit Types (self gc : GlobalContext V).

Lemma gpu_to_cuda_items self :
  gc_attrs (fst (gpu_to_cuda lower self)) = gc_attrs self /\
  (forall key, key <> "device"%string ->
     gc_items (fst (gpu_to_cuda lower self)) !! key = gc_items self !! key) /\
  (gc_items (fst (gpu_to_cuda lower self)) !! "device"%string
     = gc_items self !! "device"%string \/
   exists s, gc_items self !! "device"%string = Some (Str s) /\
             lower s = "gpu"%string /\
             gc_items (fst (gpu_to_cuda lower self)) !! "device"%string
               = Some (Str "cuda")).
Proof.
  unfold gpu_to_cuda, getitem.
  destruct (gc_items self !! "device"%string) as [[s|v]|] eqn:E; simpl; auto.
  destruct (String.eqb_spec (lower s) "gpu") as [Hl|Hl]; simpl; auto.
  split; [reflexivity|]. split.
  - intros key Hk. apply lookup_insert_ne. congruence.
  - right. exists s. rewrite lookup_insert_eq. auto.
Qed.

(** X25.  [update_config] never changes what [gc[key]] returns: it loads the
    document into the attributes of the object, not into its items.  The one
    item it may write is ["device"], from a spelling of "gpu" to "cuda", and
    that by the value the item had before, not by the document. *)
Theorem update_config_keeps_items self (config_path : string) :
  let self' := fst (update_config lower load self config_path) in
  (forall key, key <> "device"%string ->
     gc_items self' !! key = gc_items self !! key) /\
  (gc_items self' !! "device"%string = gc_items self !! "device"%string \/
   exists s, gc_items self !! "device"%string = Some (Str s) /\
             lower s = "gpu"%string /\
             gc_items self' !! "device"%string = Some (Str "cuda")) /\
  (returned (snd (update_config lower load self config_path)) = true ->
   exists m, load config_path = Some (Some m) /\ gc_attrs self' = m).
Proof.
  cbv zeta. unfold update_config, open_yaml.
  destruct (load config_path) as [[m|]|]; simpl;
    try (repeat split; auto; discriminate).
  set (s1 := mkGlobalContext (gc_items self) (m ∪ ∅)).
  destruct (gpu_to_cuda_items s1) as (Ha & Hk & Hd).
  split; [exact Hk|]. split; [exact Hd|].
  intros _. exists m. split; [reflexivity|]. rewrite Ha. simpl.
  apply (right_id ∅ (∪)).
Qed.

(** X26.  The option [-d gpu] alone leaves the device "gpu": the backend is
    then "mpi" or "gloo", never "nccl".  Given together with [-c] and a
    readable mapping, the same option ends as "cuda", because it is
    [update_config] that rewrites the item. *)
Theorem device_option_gpu (dev : string) gc
    (is_mpi_available is_torchelastic_launched : bool) :
  dev <> ""%string -> lower dev = "gpu"%string ->
  lower "gpu" = "gpu"%string -> lower "cuda" = "cuda"%string ->
  let direct := is_mpi_available && negb is_torchelastic_launched in
  (exists gc',
     main_options lower load dev "" gc = (gc', Return tt) /\
     device lower gc' = Return "gpu"%string /\
     backend lower is_mpi_available is_torchelastic_launched gc'
       = Return (if direct then "mpi" else "gloo")%string) /\
  (forall config m,
     config <> ""%string -> load config = Some (Some m) ->
     exists gc',
       main_options lower load dev config gc = (gc', Return tt) /\
       device lower gc' = Return "cuda"%string /\
       backend lower is_mpi_available is_torchelastic_launched gc'
         = Return (if direct then "mpi" else "nccl")%string /\
       forall key, key <> "device"%string ->
         gc_items gc' !! key = gc_items gc !! key).
Proof.
  intros Hd Hl Hg Hc. cbv zeta. unfold main_options.
  apply String.eqb_neq in Hd. rewrite Hd, Hl. cbn [negb andb].
  rewrite bool_decide_eq_true_2 by (right; left; reflexivity).
  split.
  - eexists. split; [reflexivity|].
    unfold backend, device, getitem, setitem. cbn [gc_items].
    rewrite lookup_insert_eq. cbn [obind str_lower]. rewrite Hg.
    split; [reflexivity|]. destruct (_ && _); reflexivity.
  - intros config m Hcf Hm. apply String.eqb_neq in Hcf. rewrite Hcf.
    cbn [negb]. unfold update_config, open_yaml. rewrite Hm.
    cbn [dict_update gc_items gc_attrs setitem].
    unfold gpu_to_cuda, getitem. cbn [gc_items].
    rewrite lookup_insert_eq. cbn [obind str_lower]. rewrite Hg.
    cbn [String.eqb Ascii.eqb Bool.eqb andb].
    eexists. split; [reflexivity|].
    unfold backend, device, getitem, setitem. cbn [gc_items].
    rewrite lookup_insert_eq. cbn [obind str_lower]. rewrite Hc.
    split; [reflexivity|]. split; [destruct (_ && _); reflexivity|].
    intros key Hk. rewrite !lookup_insert_ne by congruence. reflexivity.
Qed.

(** X27.  A first construction that returns has read a mapping whose
    ["device"] is a string: its items are that mapping, with a spelling of
    "gpu" replaced by "cuda".  From then on every construction returns this
    object and reads nothing, whatever path it is given. *)
Theorem construction_reads_config_once (config_path later : option string)
    (instance : option (GlobalContext V)) gc :
  GlobalContext_call lower load None config_path = (instance, Return gc) ->
  instance = Some gc /\
  (exists path m s,
     config_path = Some path /\ load path = Some (Some m) /\
     m !! "device"%string = Some (Str s) /\
     gc_items gc = (if String.eqb (lower s) "gpu"
                    then <["device"%string := Str "cuda"]> m else m)) /\
  GlobalContext_call lower load instance later = (instance, Return gc).
Proof.
  unfold GlobalContext_call, GlobalContext__init__, open_yaml.
  cbn [gc_attrs gc_items]. rewrite bool_decide_eq_true_2 by reflexivity.
  destruct config_path as [path|]; [|discriminate].
  destruct (load path) as [[m|]|] eqn:El; try discriminate.
  cbn [dict_update]. rewrite (right_id ∅ (∪) m).
  unfold gpu_to_cuda, getitem. cbn [gc_items].
  destruct (m !! "device"%string) as [[s|v]|] eqn:Ed; try discriminate.
  cbn [obind str_lower].
  destruct (String.eqb (lower s) "gpu") eqn:Eg; intros [= <- <-];
    (split; [reflexivity|]); (split; [|reflexivity]);
    exists path, m, s; rewrite ?Eg; auto.
Qed.
End ConfigFacts.

(** ** The further properties on concrete inputs *)

Lemma topology_local_group_witness :
  In 5 [4; 5; 6; 7] /\ length [4; 5; 6; 7] = 4 /\
  forall x, In x [4; 5; 6; 7] <-> x / 4 = 1.
Proof.
  exact (topology_local_group 8 5 false 0 2
           (mkTopology 4 1 [0; 4] [4; 5; 6; 7]) eq_refl).
Defined.

Lemma topology_groups_partition_witness :
  (In 2 [4; 5; 6; 7] <-> [0; 1; 2; 3] = [4; 5; 6; 7]) /\
  ([0; 1; 2; 3] = [4; 5; 6; 7] \/
   forall x, In x [4; 5; 6; 7] -> ~ In x [0; 1; 2; 3]).
Proof.
  exact (topology_groups_partition 8 5 2 false 0 2
           (mkTopology 4 1 [0; 4] [4; 5; 6; 7])
           (mkTopology 4 0 [0; 4] [0; 1; 2; 3]) eq_refl eq_refl).
Defined.

Lemma topology_one_leader_per_group_witness :
  List.filter (fun i => i mod 4 =? 0) [4; 5; 6; 7] = [4] /\
  (5 < 8 -> In 4 [0; 4] /\ (5 mod 4 = 0 <-> In 5 [0; 4])).
Proof.
  exact (topology_one_leader_per_group 8 5 false 0 2
           (mkTopology 4 1 [0; 4] [4; 5; 6; 7]) eq_refl).
Defined.

Lemma topology_groups_inside_world_witness :
  (7 mod 3 = 0 ->
   length [0; 3; 6] * 3 = 7 /\
   (6 < 7 -> forall x, In x [6; 7; 8] -> x < 7)) /\
  (7 mod 3 <> 0 -> 6 = 7 - 1 -> exists x, In x [6; 7; 8] /\ 7 <= x).
Proof.
  exact (topology_groups_inside_world 7 6 false 0 2
           (mkTopology 3 2 [0; 3; 6] [6; 7; 8]) eq_refl).
Defined.

Lemma dummy_loaders_batch_size_witness :
  exists bs,
    [([2; 16; 768; 1152], [2; 1; 768; 1152], "file.txt"%string)]
      = [([bs; 16; 768; 1152], [bs; 1; 768; 1152], "file.txt"%string)] /\
    4 <> 0 /\ 3 <> 0 /\ bs * 4 * 3 <= 32 < (bs + 1) * 4 * 3.
Proof.
  exact (dummy_loaders_batch_size 32 4 3 1000 _ eq_refl).
Defined.

Lemma resnet_epoch_steps_and_leftover_witness :
  let epoch := resnet_epoch true 4 (repeat (F32.of_Z 1) 10) in
  step_indices epoch
    = List.filter (fun i => (i + 1) mod 4 =? 0)
                  (seq 0 (length (repeat (F32.of_Z 1) 10))) /\
  length (step_indices epoch) = length (repeat (F32.of_Z 1) 10) / 4 /\
  unapplied epoch = length (repeat (F32.of_Z 1) 10) mod 4.
Proof.
  apply (resnet_epoch_steps_and_leftover true 4 (repeat (F32.of_Z 1) 10)).
  discriminate.
Defined.

Lemma deepcam_epoch_applies_all_witness :
  let n := length (repeat (F32.of_Z 1) 10) in
  let epoch := deepcam_epoch 4 (repeat (F32.of_Z 1) 10) in
  unapplied epoch = 0 /\
  step_indices epoch
    = List.filter (fun i => ((i + 1) mod 4 =? 0) || (i + 1 =? n)) (seq 0 n) /\
  length (step_indices epoch) = n / 4 + (if n mod 4 =? 0 then 0 else 1).
Proof.
  apply (deepcam_epoch_applies_all 4 (repeat (F32.of_Z 1) 10)).
  discriminate.
Defined.

Lemma resnet_epoch_windows_witness :
  let n := length (repeat (F32.of_Z 1) 10) in
  applied (concat (resnet_epoch true 4 (repeat (F32.of_Z 1) 10))) 2
  = if n / 4 =? 0 then ([], 2 + n)
    else ((2 + 4) :: repeat 4 (n / 4 - 1), n mod 4).
Proof.
  apply (resnet_epoch_windows true 4 (repeat (F32.of_Z 1) 10) 2).
  discriminate.
Defined.

Lemma deepcam_epoch_windows_witness :
  let n := length (repeat (F32.of_Z 1) 10) in
  applied (concat (deepcam_epoch 4 (repeat (F32.of_Z 1) 10))) 0
  = (repeat 4 (n / 4) ++ (if n mod 4 =? 0 then [] else [n mod 4]), 0).
Proof.
  apply (deepcam_epoch_windows 4 (repeat (F32.of_Z 1) 10)).
  discriminate.
Defined.

Lemma hook_returns_one_number_witness :
  1 mod 2 <> 0 /\
  exists t x rest,
    reduce (one_node_collectives
              [[F32.of_Z 1; F32.of_Z 2]; [F32.of_Z 3; F32.of_Z 4]] 1)
           [F32.of_Z 3; F32.of_Z 4] 0 [0; 1] = Ok t /\
    broadcast (one_node_collectives
                 [[F32.of_Z 1; F32.of_Z 2]; [F32.of_Z 3; F32.of_Z 4]] 1)
              t 0 [0; 1] = Ok (x :: rest) /\
    VScalar (F32.of_Z 2) = VScalar (rdiv x (of_nat 2)).
Proof.
  apply (hook_returns_one_number
           (one_node_collectives
              [[F32.of_Z 1; F32.of_Z 2]; [F32.of_Z 3; F32.of_Z 4]] 1)
           1 2 [0; 1] [0] 2 [F32.of_Z 3; F32.of_Z 4] (VScalar (F32.of_Z 2))).
  vm_compute. reflexivity.
Defined.

Lemma step_writes_listed_only_witness :
  slot (fst (step Scenario.single None (Scenario.built [0]))) 5
  = slot (Scenario.built [0]) 5.
Proof.
  apply (step_writes_listed_only Scenario.single None (Scenario.built [0]) 5).
  simpl. intros [H|[]]. discriminate H.
Defined.

Lemma step_allreduce_needs_every_gradient_witness :
  snd (step Scenario.single None (Distributed.built [0; 2]))
    = Err (AttributeError "'NoneType' object has no attribute 'data'") /\
  forall q,
    data (params (fst (step Scenario.single None (Distributed.built [0; 2]))) q)
      = data (params (Distributed.built [0; 2]) q) /\
    state (fst (step Scenario.single None (Distributed.built [0; 2]))) !! q
      = state (Distributed.built [0; 2]) !! q.
Proof.
  apply (step_allreduce_needs_every_gradient Scenario.single None
           (Distributed.built [0; 2]) 2).
  - reflexivity.
  - reflexivity.
  - reflexivity.
  - simpl. right. left. reflexivity.
  - reflexivity.
Defined.

Lemma replicas_stay_equal_witness :
  let s := step (world_dist Distributed.world 0) None
                (Distributed.rank_with (F32.ratio 1 10)) in
  let s' := step (world_dist Distributed.world 1) None
                 (Distributed.rank_with (F32.ratio 3 10)) in
  snd s = snd s' /\
  forall p, In p [0] -> reads (fst s) p = reads (fst s') p.
Proof.
  assert (Hnd : NoDup [0]) by apply NoDup_singleton.
  assert (Hw : forall x, In x Distributed.world ->
            distributed x = true /\ listed x = [0] /\
            forall p, In p [0] -> is_Some (grad (params x p))).
  { intros x [<-|[<-|[]]]; (split; [reflexivity|]); (split; [reflexivity|]);
      intros p _; eexists; reflexivity. }
  assert (Hsame : forall p, In p [0] ->
            data (params (Distributed.rank_with (F32.ratio 1 10)) p)
              = data (params (Distributed.rank_with (F32.ratio 3 10)) p) /\
            state (Distributed.rank_with (F32.ratio 1 10)) !! p
              = state (Distributed.rank_with (F32.ratio 3 10)) !! p /\
            is_sparse <$> grad (params (Distributed.rank_with (F32.ratio 1 10)) p)
              = is_sparse <$> grad (params (Distributed.rank_with (F32.ratio 3 10)) p)).
  { intros p _. repeat split. }
  exact (replicas_stay_equal Distributed.world [0] 0 1
           (Distributed.rank_with (F32.ratio 1 10))
           (Distributed.rank_with (F32.ratio 3 10)) Hnd Hw
           eq_refl eq_refl eq_refl eq_refl eq_refl eq_refl eq_refl Hsame).
Defined.

Lemma bf16_value_is_rounded_copy_witness :
  exists st' d',
    state (fst (step Scenario.single None (Scenario.built [0; 1; 2]))) !! 1
      = Some st' /\
    data_fp32 st' = Some d' /\
    data (params (fst (step Scenario.single None (Scenario.built [0; 1; 2]))) 1)
      = tensor_to bfloat16 d'.
Proof.
  assert (Hnd : NoDup (listed (Scenario.built [0; 1; 2]))).
  { compute_done. }
  assert (Hc : is_ok (closure_result None (Scenario.built [0; 1; 2])) = true)
    by reflexivity.
  assert (Hg : forall p gr, In p (listed (Scenario.built [0; 1; 2])) ->
             grad (params (Scenario.built [0; 1; 2]) p) = Some gr ->
             is_sparse gr = false).
  { intros p gr [<-|[<-|[<-|[]]]] [= <-]; reflexivity. }
  assert (Hsync : perform_allreduce (Scenario.built [0; 1; 2]) = true ->
             distributed (Scenario.built [0; 1; 2]) = true ->
             forall p, In p (listed (Scenario.built [0; 1; 2])) ->
               is_Some (grad (params (Scenario.built [0; 1; 2]) p))).
  { intros H. discriminate H. }
  assert (Hs : forall p st, In p (listed (Scenario.built [0; 1; 2])) ->
             state (Scenario.built [0; 1; 2]) !! p = Some st ->
             state_ok (params (Scenario.built [0; 1; 2]) p) st).
  { intros p st _ H. discriminate H. }
  apply (bf16_value_is_rounded_copy Scenario.single None
           (Scenario.built [0; 1; 2]) Hc Hnd Hg Hsync Hs 1).
  - simpl. right. left. reflexivity.
  - eexists. reflexivity.
  - reflexivity.
Defined.

Lemma bf16_value_is_not_read_witness :
  let g := mkGroup [1] Scenario.lr Scenario.betas Scenario.eps Scenario.weight_decay in
  let o2 := set_param 1 (mkParam (Scenario.vec bfloat16 false (F32.of_Z 2))
                                 (Some (Scenario.vec bfloat16 false (F32.ratio 1 10))))
                      Plain.seen in
  snd (step_param g 1 o2) = Ok tt /\ snd (step_param g 1 Plain.seen) = Ok tt /\
  slot (fst (step_param g 1 o2)) 1 = slot (fst (step_param g 1 Plain.seen)) 1.
Proof.
  apply (bf16_value_is_not_read
           (mkGroup [1] Scenario.lr Scenario.betas Scenario.eps Scenario.weight_decay)
           1 Plain.seen (init_state (Scenario.mem 1))
           (tensor_to float32 (data (Scenario.mem 1)))
           (Scenario.vec bfloat16 false (F32.ratio 1 10))
           (Scenario.vec bfloat16 false (F32.of_Z 2))).
  - apply lookup_insert_eq.
  - reflexivity.
  - reflexivity.
  - reflexivity.
  - reflexivity.
  - reflexivity.
Defined.

Lemma zero_weight_decay_ignores_adam_witness :
  snd (step Scenario.single None (set_adam true (Plain.built [0])))
  = snd (step Scenario.single None (Plain.built [0])) /\
  forall q,
    slot (fst (step Scenario.single None (set_adam true (Plain.built [0])))) q
    = slot (fst (step Scenario.single None (Plain.built [0]))) q.
Proof.
  apply (zero_weight_decay_ignores_adam Scenario.single true (Plain.built [0])).
  intros g [<-|[]]. reflexivity.
Defined.

Lemma step_of_undistributed_keeps_gradients_witness :
  distributed (Scenario.built [0]) = false /\
  forall (closure : option (M spec_float spec_float)) o1,
    distributed (after_closure closure o1) = distributed (Scenario.built [0]) ->
    forall q, grad (params (fst (step Scenario.single closure o1)) q)
              = grad (params (after_closure closure o1) q).
Proof.
  apply (step_of_undistributed_keeps_gradients Scenario.single Scenario.single
           [mkGroupArg [0] None None None None] Scenario.mem
           Scenario.lr Scenario.betas Scenario.eps Scenario.weight_decay
           false true false (Scenario.built [0])).
  - reflexivity.
  - left. reflexivity.
Defined.

Lemma cast_to_bf16_after_first_step_raises_witness :
  let g := mkGroup [0] Scenario.lr Scenario.betas Scenario.eps Scenario.weight_decay in
  let o1 := fst (step_param g 0 (Scenario.built [0])) in
  let o2 := set_param 0 (mkParam (Scenario.vec bfloat16 false (F32.of_Z 1))
                                 (Some (Scenario.vec float32 false (F32.ratio 1 10))))
                      o1 in
  snd (step_param g 0 (Scenario.built [0])) = Ok tt /\
  step_param g 0 o2 = (o2, Err (KeyError "data_fp32")).
Proof.
  apply (cast_to_bf16_after_first_step_raises
           (mkGroup [0] Scenario.lr Scenario.betas Scenario.eps Scenario.weight_decay)
           (mkGroup [0] Scenario.lr Scenario.betas Scenario.eps Scenario.weight_decay)
           0 (Scenario.built [0])
           (Scenario.vec float32 false (F32.ratio 1 10))
           (Scenario.vec float32 false (F32.ratio 1 10))
           (Scenario.vec bfloat16 false (F32.of_Z 1))).
  - reflexivity.
  - reflexivity.
  - reflexivity.
  - discriminate.
  - reflexivity.
  - reflexivity.
Defined.

Lemma deepcam_unassigned_scheduler_raises_witness :
  tfor 0 [F32.of_Z 1; F32.of_Z 1; F32.of_Z 1]
       (deepcam_batch (decorated_gc (Ok 0) (fun _ => Ok tt)) 2 false 0
                      (S (length [F32.of_Z 1; F32.of_Z 1])))
  = (Opt (Backward (rdiv (F32.of_Z 1) (of_nat 2)) false)
     :: (if (1 mod 2 =? 0) || (1 =? S (length [F32.of_Z 1; F32.of_Z 1]))
         then [Opt OptStep; Opt ZeroGrad] else []),
     Raise (UnboundLocalError "scheduler")).
Proof.
  apply (@deepcam_unassigned_scheduler_raises spec_float F32.scalar 2
           (decorated_gc (Ok 0) (fun _ => Ok tt)) 0
           (F32.of_Z 1) [F32.of_Z 1; F32.of_Z 1]).
  discriminate.
Defined.

Lemma device_option_gpu_witness :
  let direct := false && negb false in
  (exists gc',
     main_options ascii_lower ConfigFile.load "GPU" "" ConfigFile.empty
       = (gc', Return tt) /\
     device ascii_lower gc' = Return "gpu"%string /\
     backend ascii_lower false false gc'
       = Return (if direct then "mpi" else "gloo")%string) /\
  (forall config m,
     config <> ""%string -> ConfigFile.load config = Some (Some m) ->
     exists gc',
       main_options ascii_lower ConfigFile.load "GPU" config ConfigFile.empty
         = (gc', Return tt) /\
       device ascii_lower gc' = Return "cuda"%string /\
       backend ascii_lower false false gc'
         = Return (if direct then "mpi" else "nccl")%string /\
       forall key, key <> "device"%string ->
         gc_items gc' !! key = gc_items ConfigFile.empty !! key).
Proof.
  apply (device_option_gpu ascii_lower ConfigFile.load "GPU" ConfigFile.empty
           false false).
  - discriminate.
  - reflexivity.
  - reflexivity.
  - reflexivity.
Defined.

Lemma construction_reads_config_once_witness :
  let gc := mkGlobalContext (<["device"%string := Str "cuda"]> ConfigFile.document) ∅ in
  Some gc = Some gc /\
  (exists path m s,
     Some "config.yaml"%string = Some path /\
     ConfigFile.load path = Some (Some m) /\
     m !! "device"%string = Some (Str s) /\
     gc_items gc = (if String.eqb (ascii_lower s) "gpu"
                    then <["device"%string := Str "cuda"]> m else m)) /\
  GlobalContext_call ascii_lower ConfigFile.load (Some gc) None
    = (Some gc, Return gc).
Proof.
  apply (construction_reads_config_once ascii_lower ConfigFile.load
           (Some "config.yaml"%string) None).
  vm_compute. reflexivity.
Defined.
